(** * Vega-Lite: normalization of composite specs and the concat model

    A shallow embedding of [src/normalize/core.ts] (class [CoreNormalizer],
    [mergeEncoding], [mergeProjection]) and of [src/compile/concat.ts]
    (class [ConcatModel]).

    JavaScript objects used as records become Rocq records, objects used as
    maps (an encoding, a selection component) become insertion-ordered
    association lists, the variants of a spec become an inductive type, and
    the logger [log.warn] together with thrown errors becomes a writer/error
    monad [M].  Collaborators whose source lives in other files of the
    repository (the composite-mark normalizers, [replaceRepeaterInEncoding],
    [varName], [channelHasField], [buildModel], the [Model] base class) are
    taken as parameters, bundled in a record; the generic handlers of the
    base class [SpecMapper] are modelled from the specification. *)

From Stdlib Require Import List String ZArith Bool Arith Lia.
From Stdlib Require DecimalString DecimalNat.
From Stdlib Require Import Ascii.
Import ListNotations.
Local Open Scope string_scope.
Local Open Scope list_scope.
Set Warnings "-register-all".

(** ** JSON payloads that the code only carries around *)

Inductive Json : Type :=
| JNull
| JBool (b : bool)
| JNum (n : Z)
| JStr (s : string)
| JArr (items : list Json)
| JObj (props : list (string * Json)).

(** ** util.ts and JavaScript object idioms on insertion-ordered objects *)

Module Util.

Definition Obj (V : Type) : Type := list (string * V).

Section Objects.
Context {V : Type}.

(** [o[key]] *)
Fixpoint lookup (key : string) (o : Obj V) : option V :=
  match o with
  | [] => None
  | (k, v) :: rest => if String.eqb key k then Some v else lookup key rest
  end.

(** [o[key] = v]: an existing key keeps its place, a new key goes last. *)
Fixpoint set (key : string) (v : V) (o : Obj V) : Obj V :=
  match o with
  | [] => [(key, v)]
  | (k, w) :: rest =>
      if String.eqb key k then (k, v) :: rest else (k, w) :: set key v rest
  end.

(** [{...a, ...b}] *)
Definition assign (a b : Obj V) : Obj V :=
  fold_left (fun acc kv => set (fst kv) (snd kv) acc) b a.

(** [keys(o)], that is [Object.keys] *)
Definition keys (o : Obj V) : list string := List.map fst o.

(** [omit(o, props)] and the rest pattern [{p1, p2, ...rest} = o] *)
Definition omit (o : Obj V) (props : list string) : Obj V :=
  filter (fun kv => negb (existsb (String.eqb (fst kv)) props)) o.

(** No key occurs twice: what every JavaScript object satisfies. *)
Definition wf (o : Obj V) : Prop := NoDup (keys o).
End Objects.

(** Truthiness of the values the code tests with [?:], [&&] and [||]. *)
Definition isSome {A : Type} (o : option A) : bool :=
  match o with Some _ => true | None => false end.

Definition truthyNum (n : option Z) : bool :=
  match n with Some z => negb (Z.eqb z 0) | None => false end.

Definition truthyStr (s : option string) : bool :=
  match s with Some t => negb (String.eqb t "") | None => false end.

Definition truthyBool (b : option bool) : bool :=
  match b with Some true => true | _ => false end.

(** Truthiness of a JSON value: [undefined], [null], [false], [0] and the
    empty string are falsy; arrays and objects are truthy, also when they
    are empty. *)
Definition truthyJson (j : option Json) : bool :=
  match j with
  | None => false
  | Some JNull => false
  | Some (JBool b) => b
  | Some (JNum n) => negb (Z.eqb n 0)
  | Some (JStr s) => negb (String.eqb s "")
  | Some (JArr _) => true
  | Some (JObj _) => true
  end.

(** [a ?? b]: [b] when [a] is [undefined] or [null], else [a] *)
Definition nullish (a b : option Json) : option Json :=
  match a with
  | None => b
  | Some JNull => b
  | Some _ => a
  end.

(** One property of [{...under, ...over}]: the later object wins where it
    has the property. *)
Definition spreadProp {A : Type} (over under : option A) : option A :=
  match over with Some _ => over | None => under end.

End Util.
Import Util.

(** ** Spec types (spec/*.ts, channeldef.ts, encoding.ts) *)

Inductive Field : Type :=
| FieldName (f : string)
| RepeatRef (r : string).

Inductive LayoutAlign : Type := AlignAll | AlignEach | AlignNone.

(** A channel definition.  The four layout properties are the ones a
    [FacetEncodingFieldDef] may carry; everything the normalizer does not
    look at is in [cd_rest]. *)
Record ChannelDef : Type := mkChannelDef {
  cd_field : option Field;
  cd_align : option LayoutAlign;
  cd_center : option bool;
  cd_spacing : option Z;
  cd_columns : option Z;
  cd_rest : Obj Json
}.

Definition Encoding : Type := Obj ChannelDef.

Definition ROW : string := "row".
Definition COLUMN : string := "column".
Definition FACET : string := "facet".

(** [RowCol<T>] and the [T | RowCol<T>] of [GenericCompositionLayout] *)
Record RowCol (A : Type) : Type := mkRowCol {
  rc_row : option A;
  rc_column : option A
}.
Arguments mkRowCol {A} _ _.
Arguments rc_row {A} _.
Arguments rc_column {A} _.

Inductive LayoutVal (A : Type) : Type :=
| Flat (a : A)
| PerAxis (rc : RowCol A).
Arguments Flat {A} _.
Arguments PerAxis {A} _.

(** [GenericCompositionLayoutWithColumns] *)
Record Layout : Type := mkLayout {
  align : option (LayoutVal LayoutAlign);
  center : option (LayoutVal bool);
  spacing : option (LayoutVal Z);
  columns : option Z
}.

Definition emptyLayout : Layout := mkLayout None None None None.

Inductive ResolveMode : Type := Shared | Independent.

Record AxisResolveMap : Type := mkAxisResolveMap {
  axis_x : option ResolveMode;
  axis_y : option ResolveMode
}.

Record Resolve : Type := mkResolve {
  resolve_axis : option AxisResolveMap;
  resolve_rest : Obj Json
}.

(** The properties every spec variant may carry besides the ones that make
    it a unit, a layer, a facet, a repeat or a concatenation. *)
Record Common : Type := mkCommon {
  name : option string;
  data : option Json;
  layout : Layout;
  resolve : option Resolve;
  rest : Obj Json
}.

Definition emptyCommon : Common := mkCommon None None emptyLayout None [].

Record UnitSpec : Type := mkUnitSpec {
  u_common : Common;
  u_mark : Json;
  u_encoding : option Encoding;
  u_width : option Z;
  u_height : option Z;
  u_view : option Json;
  u_projection : option Json;
  u_selection : option Json
}.

(** [FacetMapping] and [FacetFieldDef | FacetMapping] *)
Record FacetMapping : Type := mkFacetMapping {
  fm_row : option ChannelDef;
  fm_column : option ChannelDef
}.

Inductive FacetDef : Type :=
| FacetField (def : ChannelDef)
| FacetMap (mapping : FacetMapping).

(** [string[] | RepeatMapping] *)
Inductive RepeatDef : Type :=
| RepeatFlat (values : list string)
| RepeatRowCol (row column : option (list string)).

Inductive Spec : Type :=
| SUnit (u : UnitSpec)
| SLayer (c : Common) (encoding : option Encoding) (projection : option Json)
         (layer : list Spec)
| SFacet (c : Common) (facet : FacetDef) (spec : Spec)
| SRepeat (c : Common) (repeat : RepeatDef) (spec : Spec)
| SConcat (c : Common) (concat : list Spec)
| SHConcat (c : Common) (hconcat : list Spec)
| SVConcat (c : Common) (vconcat : list Spec).

Definition common_of (s : Spec) : Common :=
  match s with
  | SUnit u => u_common u
  | SLayer c _ _ _ | SFacet c _ _ | SRepeat c _ _
  | SConcat c _ | SHConcat c _ | SVConcat c _ => c
  end.

Definition with_common (s : Spec) (c : Common) : Spec :=
  match s with
  | SUnit u =>
      SUnit (mkUnitSpec c (u_mark u) (u_encoding u) (u_width u) (u_height u)
                        (u_view u) (u_projection u) (u_selection u))
  | SLayer _ e p l => SLayer c e p l
  | SFacet _ f s' => SFacet c f s'
  | SRepeat _ r s' => SRepeat c r s'
  | SConcat _ l => SConcat c l
  | SHConcat _ l => SHConcat c l
  | SVConcat _ l => SVConcat c l
  end.

(** [spec.name = n] *)
Definition set_name (s : Spec) (n : string) : Spec :=
  let c := common_of s in
  with_common s (mkCommon (Some n) (data c) (layout c) (resolve c) (rest c)).

(** [omit(spec, ['data'])] *)
Definition omit_data_common (c : Common) : Common :=
  mkCommon (name c) None (layout c) (resolve c) (rest c).

Definition omit_data (s : Spec) : Spec :=
  with_common s (omit_data_common (common_of s)).

Definition set_columns (c : Common) (n : option Z) : Common :=
  let l := layout c in
  mkCommon (name c) (data c) (mkLayout (align l) (center l) (spacing l) n)
           (resolve c) (rest c).

(** [omit(spec, ['columns'])] *)
Definition omit_columns (c : Common) : Common := set_columns c None.

Definition set_data (c : Common) (d : option Json) : Common :=
  mkCommon (name c) d (layout c) (resolve c) (rest c).

(** ** log.ts: warnings, and the monad of results *)

Module Log.

Inductive Message : Type :=
| columnsNotSupportByRowCol (type : string)
| facetChannelDropped (channels : list string)
| encodingOverridden (channels : list string)
| projectionOverridden (parentProjection projection : Json)
| CONCAT_CANNOT_SHARE_AXIS
| otherMessage (text : string).

(** The members of [CoreNormalizer.nonFacetUnitNormalizers]. *)
Inductive NormalizerName : Type :=
| BoxPlot | ErrorBar | ErrorBand | PathOverlay | RuleForRangedLine | RangeStep.

(** What a run leaves behind: the warnings logged, and (so that which
    collaborator was consulted can be stated) one entry per call of a chain
    normalizer's [hasMatchingType] and [run]. *)
Inductive Event : Type :=
| Warn (m : Message)
| HasMatchingType (n : NormalizerName) (spec : UnitSpec)
| Run (n : NormalizerName) (spec : UnitSpec).

Inductive Failure : Type :=
| InvalidSpec      (* [throw new Error(log.message.invalidSpec(spec))] *)
| TypeError        (* destructuring or [Object.keys] of [undefined] *)
| OutOfFuel.       (* the recursion bound of the embedding was reached *)

Inductive M (A : Type) : Type :=
| Done (a : A) (log : list Event)
| Thrown (e : Failure).
Arguments Done {A} _ _.
Arguments Thrown {A} _.

Definition ret {A : Type} (a : A) : M A := Done a [].

Definition bind {A B : Type} (m : M A) (f : A -> M B) : M B :=
  match m with
  | Done a l =>
      match f a with
      | Done b l' => Done b (l ++ l')
      | Thrown e => Thrown e
      end
  | Thrown e => Thrown e
  end.

Definition emit (e : Event) : M unit := Done tt [e].

(** [log.warn(m)] *)
Definition warn (m : Message) : M unit := emit (Warn m).

Definition throw {A : Type} (e : Failure) : M A := Thrown e.

Definition value {A : Type} (m : M A) : option A :=
  match m with Done a _ => Some a | Thrown _ => None end.

Definition events {A : Type} (m : M A) : list Event :=
  match m with Done _ l => l | Thrown _ => [] end.

Definition warnings (l : list Event) : list Message :=
  flat_map (fun e => match e with Warn m => [m] | _ => [] end) l.

End Log.
Import Log.

Declare Scope monad_scope.
Delimit Scope monad_scope with monad.
Notation "x <- m ;; k" := (bind m (fun x => k))
  (at level 61, m at next level, right associativity) : monad_scope.
Notation "m ;; k" := (bind m (fun _ => k))
  (at level 61, right associativity) : monad_scope.
Local Open Scope monad_scope.

Section Traversals.
Context {A B S : Type}.

(** [xs.map(f)] with an effectful [f], left to right *)
Definition mapM (f : A -> M B) : list A -> M (list B) :=
  fix go (xs : list A) : M (list B) :=
    match xs with
    | [] => ret []
    | x :: rest => y <- f x ;; ys <- go rest ;; ret (y :: ys)
    end.

(** [xs.map((x, i) => f(x, i))], the index starting at [i] *)
Definition mapMi (f : nat -> A -> M B) : nat -> list A -> M (list B) :=
  fix go (i : nat) (xs : list A) : M (list B) :=
    match xs with
    | [] => ret []
    | x :: rest => y <- f i x ;; ys <- go (Datatypes.S i) rest ;; ret (y :: ys)
    end.

(** [for (const x of xs) { ... }] over an accumulator *)
Definition foldM (f : S -> A -> M S) : list A -> S -> M S :=
  fix go (xs : list A) (s : S) : M S :=
    match xs with
    | [] => ret s
    | x :: rest => s' <- f s x ;; go rest s'
    end.
End Traversals.

(** ** normalize/base.ts: the context and the pluggable unit normalizers *)

Definition Config : Type := Json.

(** [RepeaterValue]: the current binding of each repeat dimension. *)
Record RepeaterValue : Type := mkRepeaterValue {
  rv_repeat : option string;
  rv_row : option string;
  rv_column : option string
}.

Record NormalizerParams : Type := mkParams {
  config : Config;
  parentEncoding : option Encoding;
  parentProjection : option Json;
  repeater : option RepeaterValue
}.

(** [{...params, repeater: r}] *)
Definition with_repeater (params : NormalizerParams) (r : RepeaterValue)
  : NormalizerParams :=
  mkParams (config params) (parentEncoding params) (parentProjection params)
           (Some r).

(** [{config}] *)
Definition only_config (cfg : Config) : NormalizerParams :=
  mkParams cfg None None None.

(** [interface NonFacetUnitNormalizer]: a match predicate and an expansion
    that receives the callback [normalizeLayerOrUnit]. *)
Record NonFacetUnitNormalizer : Type := mkNormalizer {
  hasMatchingType : UnitSpec -> Config -> bool;
  run : UnitSpec -> NormalizerParams ->
        (Spec -> NormalizerParams -> M Spec) -> M Spec
}.

(** The functions and objects [core.ts] imports from files that are not
    part of the embedded sources. *)
Record Imports : Type := mkImports {
  varName : string -> string;
  channelHasField : option Encoding -> string -> bool;
  replaceRepeaterInEncoding :
    option Encoding -> option RepeaterValue -> M (option Encoding);
  replaceRepeaterInFacet : ChannelDef -> option RepeaterValue -> M FacetDef;
  boxPlotNormalizer : NonFacetUnitNormalizer;
  errorBarNormalizer : NonFacetUnitNormalizer;
  errorBandNormalizer : NonFacetUnitNormalizer;
  pathOverlayNormalizer : NonFacetUnitNormalizer;
  ruleForRangedLineNormalizer : NonFacetUnitNormalizer;
  rangeStepNormalizer : NonFacetUnitNormalizer
}.

(** ** normalize/core.ts *)

Module Normalize.

(** *** The module-level functions [mergeEncoding] and [mergeProjection] *)

(** The [reduce] that collects the parent keys the child also defines. *)
Definition overriden (parentEncoding encoding : Encoding) : list string :=
  fold_left
    (fun o key => if isSome (lookup key encoding) then o ++ [key] else o)
    (keys parentEncoding) [].

Definition mergeEncoding (parentEncoding encoding : option Encoding)
  : M (option Encoding) :=
  match parentEncoding, encoding with
  | Some p, Some e =>
      if (0 <? List.length (overriden p e))%nat
      then warn (encodingOverridden (overriden p e))
      else ret tt
  | _, _ => ret tt
  end ;;
  let merged :=
    assign (match parentEncoding with Some p => p | None => [] end)
           (match encoding with Some e => e | None => [] end) in
  ret (if (0 <? List.length (keys merged))%nat then Some merged else None).

Definition mergeProjection (parentProjection projection : option Json)
  : M (option Json) :=
  match parentProjection, projection with
  | Some pp, Some p =>
      if truthyJson parentProjection && truthyJson projection
      then warn (projectionOverridden pp p)
      else ret tt
  | _, _ => ret tt
  end ;;
  ret (nullish projection parentProjection).

(** *** The methods of [CoreNormalizer]

    The methods call one another through [this]; the three methods that are
    re-entered on a sub-spec ([map], [mapLayerOrUnit], [mapUnit]) are reached
    through the record [This], which is what ties the recursion. *)

Record This : Type := mkThis {
  this_map : Spec -> NormalizerParams -> M Spec;
  this_mapLayerOrUnit : Spec -> NormalizerParams -> M Spec;
  this_mapUnit : UnitSpec -> NormalizerParams -> M Spec
}.

Section Methods.
Variable I : Imports.
Variable this : This.

(** [private nonFacetUnitNormalizers = [...]] *)
Definition nonFacetUnitNormalizers
  : list (NormalizerName * NonFacetUnitNormalizer) :=
  [ (BoxPlot, boxPlotNormalizer I);
    (ErrorBar, errorBarNormalizer I);
    (ErrorBand, errorBandNormalizer I);
    (PathOverlay, pathOverlayNormalizer I);
    (RuleForRangedLine, ruleForRangedLineNormalizer I);
    (RangeStep, rangeStepNormalizer I) ].

Definition with_encoding (u : UnitSpec) (e : option Encoding) : UnitSpec :=
  mkUnitSpec (u_common u) (u_mark u) e (u_width u) (u_height u)
             (u_view u) (u_projection u) (u_selection u).

Definition with_projection (u : UnitSpec) (p : option Json) : UnitSpec :=
  mkUnitSpec (u_common u) (u_mark u) (u_encoding u) (u_width u) (u_height u)
             (u_view u) p (u_selection u).

(** [mapUnitWithParentEncodingOrProjection] *)
Definition mapUnitWithParentEncodingOrProjection
           (spec : UnitSpec) (params : NormalizerParams) : M Spec :=
  mergedProjection <-
    mergeProjection (parentProjection params) (u_projection spec) ;;
  replaced <-
    replaceRepeaterInEncoding I (u_encoding spec) (repeater params) ;;
  mergedEncoding <- mergeEncoding (parentEncoding params) replaced ;;
  let spec1 :=
    if truthyJson mergedProjection
    then with_projection spec mergedProjection
    else spec in
  let spec2 :=
    match mergedEncoding with
    | Some e => with_encoding spec1 (Some e)
    | None => spec1
    end in
  this_mapUnit this spec2 (only_config (config params)).

(** The [for ... of this.nonFacetUnitNormalizers] loop of [mapUnit]. *)
Fixpoint tryNormalizers
         (chain : list (NormalizerName * NonFacetUnitNormalizer))
         (spec : UnitSpec) (params : NormalizerParams) : M Spec :=
  match chain with
  | [] => ret (SUnit spec)
  | (n, unitNormalizer) :: later =>
      emit (HasMatchingType n spec) ;;
      if hasMatchingType unitNormalizer spec (config params)
      then emit (Run n spec) ;;
           run unitNormalizer spec params (this_mapLayerOrUnit this)
      else tryNormalizers later spec params
  end.

(** [mapUnit] *)
Definition mapUnit (spec : UnitSpec) (params : NormalizerParams) : M Spec :=
  replaced <-
    replaceRepeaterInEncoding I (u_encoding spec) (repeater params) ;;
  let specWithReplacedEncoding := with_encoding spec replaced in
  if isSome (parentEncoding params) || truthyJson (parentProjection params)
  then mapUnitWithParentEncodingOrProjection specWithReplacedEncoding params
  else tryNormalizers nonFacetUnitNormalizers specWithReplacedEncoding params.

(** Modelled from the spec: the base class [SpecMapper] (spec/map.ts) is
    not among the embedded sources.  Its handlers are the generic ones the
    spec describes: a composite node keeps its own properties and has its
    children normalized in declaration order. *)
Definition SpecMapper_mapLayer (c : Common) (encoding : option Encoding)
           (projection : option Json) (layer : list Spec)
           (params : NormalizerParams) : M Spec :=
  subspecs <- mapM (fun subspec => this_mapLayerOrUnit this subspec params)
                   layer ;;
  ret (SLayer c encoding projection subspecs).

(** Modelled from the spec: [SpecMapper.mapFacet], the generic handler of
    a facet node (its inner spec is normalized, the rest is kept). *)
Definition SpecMapper_mapFacet (c : Common) (facet : FacetDef) (spec : Spec)
           (params : NormalizerParams) : M Spec :=
  inner <- this_map this spec params ;;
  ret (SFacet c facet inner).

(** Modelled from the spec: [SpecMapper.mapConcat], [mapHConcat] and
    [mapVConcat], the generic handlers of the concatenation family. *)
Definition SpecMapper_mapConcat (c : Common) (concat : list Spec)
           (params : NormalizerParams) : M Spec :=
  subspecs <- mapM (fun subspec => this_map this subspec params) concat ;;
  ret (SConcat c subspecs).

Definition SpecMapper_mapHConcat (c : Common) (hconcat : list Spec)
           (params : NormalizerParams) : M Spec :=
  subspecs <- mapM (fun subspec => this_map this subspec params) hconcat ;;
  ret (SHConcat c subspecs).

Definition SpecMapper_mapVConcat (c : Common) (vconcat : list Spec)
           (params : NormalizerParams) : M Spec :=
  subspecs <- mapM (fun subspec => this_map this subspec params) vconcat ;;
  ret (SVConcat c subspecs).

(** [mapLayer] *)
Definition mapLayer (c : Common) (encoding : option Encoding)
           (projection : option Json) (layer : list Spec)
           (params : NormalizerParams) : M Spec :=
  mergedEncoding <- mergeEncoding (parentEncoding params) encoding ;;
  mergedProjection <- mergeProjection (parentProjection params) projection ;;
  let params' :=
    mkParams (config params) mergedEncoding mergedProjection
             (repeater params) in
  SpecMapper_mapLayer c None None layer params'.

(** Modelled from the spec: [SpecMapper.mapLayerOrUnit]; any other variant
    is the configuration error of the generic dispatch. *)
Definition mapLayerOrUnit (spec : Spec) (params : NormalizerParams)
  : M Spec :=
  match spec with
  | SLayer c encoding projection layer =>
      mapLayer c encoding projection layer params
  | SUnit u => mapUnit u params
  | _ => throw InvalidSpec
  end.

(** [mapFacet] *)
Definition isFacetMapping (facet : FacetDef) : bool :=
  match facet with FacetMap _ => true | FacetField _ => false end.

Definition mapFacet (c : Common) (facet : FacetDef) (spec : Spec)
           (params : NormalizerParams) : M Spec :=
  c' <- (if isFacetMapping facet && truthyNum (columns (layout c))
         then warn (columnsNotSupportByRowCol "facet") ;;
              ret (omit_columns c)
         else ret c) ;;
  SpecMapper_mapFacet c' facet spec params.

(** [getFacetMappingAndLayout] *)
Definition withoutLayout (def : ChannelDef) : ChannelDef :=
  mkChannelDef (cd_field def) None None None None (cd_rest def).

(** [layout[prop] = layout[prop] ?? {}; layout[prop][channel] = v] *)
Definition setAxis {A : Type} (channel : string) (v : A)
           (cur : option (LayoutVal A)) : option (LayoutVal A) :=
  match cur with
  | Some (Flat a) => Some (Flat a)
  | _ =>
      let o := match cur with
               | Some (PerAxis rc) => rc
               | _ => mkRowCol None None
               end in
      Some (PerAxis (if String.eqb channel ROW
                     then mkRowCol (Some v) (rc_column o)
                     else mkRowCol (rc_row o) (Some v)))
  end.

Definition setAxisIfDefined {A : Type} (channel : string) (v : option A)
           (cur : option (LayoutVal A)) : option (LayoutVal A) :=
  match v with Some x => setAxis channel x cur | None => cur end.

(** One turn of [for (const channel of [ROW, COLUMN])]. *)
Definition facetChannelStep (row column : option ChannelDef)
           (acc : FacetMapping * Layout) (channel : string)
  : FacetMapping * Layout :=
  let (facetMapping, layout) := acc in
  match (if String.eqb channel ROW then row else column) with
  | Some def =>
      (if String.eqb channel ROW
       then mkFacetMapping (Some (withoutLayout def)) (fm_column facetMapping)
       else mkFacetMapping (fm_row facetMapping) (Some (withoutLayout def)),
       mkLayout (setAxisIfDefined channel (cd_align def) (align layout))
                (setAxisIfDefined channel (cd_center def) (center layout))
                (setAxisIfDefined channel (cd_spacing def) (spacing layout))
                (columns layout))
  | None => acc
  end.

Definition getFacetMappingAndLayout (row column facet : option ChannelDef)
           (params : NormalizerParams) : M (FacetDef * Layout) :=
  if isSome row || isSome column then
    (if isSome facet
     then warn (facetChannelDropped
                  ((if isSome row then [ROW] else []) ++
                   (if isSome column then [COLUMN] else [])))
     else ret tt) ;;
    let (facetMapping, layout) :=
      fold_left (facetChannelStep row column) [ROW; COLUMN]
                (mkFacetMapping None None, emptyLayout) in
    ret (FacetMap facetMapping, layout)
  else
    match facet with
    | None => throw TypeError
    | Some def =>
        facetMapping <-
          replaceRepeaterInFacet I (withoutLayout def) (repeater params) ;;
        ret (facetMapping,
             mkLayout
               (match cd_align def with
                | Some a => Some (Flat a) | None => None end)
               (if truthyBool (cd_center def) then Some (Flat true) else None)
               (match cd_spacing def with
                | Some z => if truthyNum (Some z) then Some (Flat z) else None
                | None => None end)
               (if truthyNum (cd_columns def) then cd_columns def else None))
    end.

(** [{...outerSpec, ...layout}] on the layout properties *)
Definition spreadLayout (outer l : Layout) : Layout :=
  mkLayout (spreadProp (align l) (align outer))
           (spreadProp (center l) (center outer))
           (spreadProp (spacing l) (spacing outer))
           (spreadProp (columns l) (columns outer)).

(** [mapFacetedUnit] *)
Definition mapFacetedUnit (spec : UnitSpec) (params : NormalizerParams)
  : M Spec :=
  match u_encoding spec with
  | None => throw TypeError
  | Some enc =>
      let row := lookup ROW enc in
      let column := lookup COLUMN enc in
      let facet := lookup FACET enc in
      let encoding := omit enc [ROW; COLUMN; FACET] in
      let outerSpec := u_common spec in
      fl <- getFacetMappingAndLayout row column facet params ;;
      replaced <- replaceRepeaterInEncoding I (Some encoding)
                                            (repeater params) ;;
      mapFacet
        (mkCommon (name outerSpec) (data outerSpec)
                  (spreadLayout (layout outerSpec) (snd fl))
                  (resolve outerSpec) (rest outerSpec))
        (fst fl)
        (SUnit (mkUnitSpec emptyCommon (u_mark spec) replaced
                  (if truthyNum (u_width spec) then u_width spec else None)
                  (if truthyNum (u_height spec) then u_height spec else None)
                  (if truthyJson (u_view spec) then u_view spec else None)
                  (if truthyJson (u_projection spec)
                   then u_projection spec else None)
                  (if truthyJson (u_selection spec)
                   then u_selection spec else None)))
        params
  end.

(** [mapRepeat] *)
Definition isArray (repeat : RepeatDef) : bool :=
  match repeat with RepeatFlat _ => true | RepeatRowCol _ _ => false end.

(** [(!isArray(repeat) && repeat.row) || [repeater ? repeater.row : null]] *)
Definition rowValues (repeat : RepeatDef) (repeater : option RepeaterValue)
  : list (option string) :=
  match repeat with
  | RepeatRowCol (Some row) _ => List.map Some row
  | _ => [match repeater with Some r => rv_row r | None => None end]
  end.

Definition columnValues (repeat : RepeatDef)
           (repeater : option RepeaterValue) : list (option string) :=
  match repeat with
  | RepeatRowCol _ (Some column) => List.map Some column
  | _ => [match repeater with Some r => rv_column r | None => None end]
  end.

(** [(isArray(repeat) && repeat) || [repeater ? repeater.repeat : null]] *)
Definition repeatValues (repeat : RepeatDef)
           (repeater : option RepeaterValue) : list (option string) :=
  match repeat with
  | RepeatFlat values => List.map Some values
  | _ => [match repeater with Some r => rv_repeat r | None => None end]
  end.

(** [(v ? `${prefix}${varName(v)}` : '')] *)
Definition nameToken (prefix : string) (v : option string) : string :=
  match v with
  | Some s => if truthyStr v then prefix ++ varName I s else ""
  | None => ""
  end.

Definition childName (repeatValue rowValue columnValue : option string)
  : string :=
  nameToken "__repeat_" repeatValue ++
  nameToken "__row_" rowValue ++
  nameToken "__column_" columnValue.

(** The body of the innermost loop: normalize the template under the new
    binding, name the result, and push it without its data. *)
Definition repeatChild (childSpec : Spec) (params : NormalizerParams)
           (repeatValue rowValue columnValue : option string)
           (children : list Spec) : M (list Spec) :=
  let childRepeater := mkRepeaterValue repeatValue rowValue columnValue in
  child <- this_map this childSpec (with_repeater params childRepeater) ;;
  let named :=
    set_name child (childName repeatValue rowValue columnValue) in
  ret (children ++ [omit_data named]).

Definition mapRepeat (c : Common) (repeat : RepeatDef) (childSpec : Spec)
           (params : NormalizerParams) : M Spec :=
  let data0 := data c in
  let remainingProperties := omit_data_common c in
  spec <- (if negb (isArray repeat) && truthyNum (columns (layout c))
           then warn (columnsNotSupportByRowCol "repeat") ;;
                ret (omit_columns c)
           else ret c) ;;
  let repeater := repeater params in
  let row := rowValues repeat repeater in
  let column := columnValues repeat repeater in
  let repeatValues := repeatValues repeat repeater in
  children <-
    foldM (fun children repeatValue =>
      foldM (fun children rowValue =>
        foldM (fun children columnValue =>
                 repeatChild childSpec params
                             repeatValue rowValue columnValue children)
              column children)
            row children)
          repeatValues [] ;;
  let columns :=
    match repeat with
    | RepeatFlat _ => columns (layout spec)
    | RepeatRowCol _ (Some col) => Some (Z.of_nat (List.length col))
    | RepeatRowCol _ None => Some 1%Z
    end in
  ret (SConcat
         (set_columns
            (set_data remainingProperties
                      (nullish data0 (data (common_of childSpec))))
            columns)
         children).

(** Modelled from the spec: [SpecMapper.map], the generic dispatch on the
    variant of the node. *)
Definition SpecMapper_map (spec : Spec) (params : NormalizerParams)
  : M Spec :=
  match spec with
  | SFacet c facet inner => mapFacet c facet inner params
  | SRepeat c repeat inner => mapRepeat c repeat inner params
  | SHConcat c hconcat => SpecMapper_mapHConcat c hconcat params
  | SVConcat c vconcat => SpecMapper_mapVConcat c vconcat params
  | SConcat c concat => SpecMapper_mapConcat c concat params
  | _ => mapLayerOrUnit spec params
  end.

(** [map] *)
Definition map (spec : Spec) (params : NormalizerParams) : M Spec :=
  match spec with
  | SUnit u =>
      let hasRow := channelHasField I (u_encoding u) ROW in
      let hasColumn := channelHasField I (u_encoding u) COLUMN in
      let hasFacet := channelHasField I (u_encoding u) FACET in
      if hasRow || hasColumn || hasFacet
      then mapFacetedUnit u params
      else SpecMapper_map spec params
  | _ => SpecMapper_map spec params
  end.
End Methods.

(** The object [new CoreNormalizer()]: every call through [this] spends one
    unit of the recursion bound. *)
Fixpoint CoreNormalizer (I : Imports) (fuel : nat) : This :=
  match fuel with
  | O => mkThis (fun _ _ => throw OutOfFuel) (fun _ _ => throw OutOfFuel)
                (fun _ _ => throw OutOfFuel)
  | S n =>
      let this := CoreNormalizer I n in
      mkThis (map I this) (mapLayerOrUnit I this) (mapUnit I this)
  end.

(** Modelled from the spec: [normalize(spec, context) -> canonicalSpec]
    (normalize/index.ts is not among the embedded sources); at the root the
    context holds the configuration only. *)
Definition normalize (I : Imports) (fuel : nat) (spec : Spec) (cfg : Config)
  : M Spec :=
  this_map (CoreNormalizer I fuel) spec (only_config cfg).

End Normalize.

(** ** compile/concat.ts *)

Module Compile.

Definition SelectionComponent : Type := Json.

(** The [component] record of a model, of which [ConcatModel] touches
    [selection]. *)
Record Component : Type := mkComponent {
  selection : option (Obj SelectionComponent);
  component_rest : Obj Json
}.

(** What the [Model] base class keeps for every model. *)
Record ModelBase : Type := mkModelBase {
  base_name : string;
  base_component : Component;
  base_rest : Obj Json
}.

Inductive ConcatType : Type := vconcat | hconcat | concat.

(** A model is a [ConcatModel] or a model of one of the classes that are
    not part of the embedded sources (unit, layer, facet), kept abstract. *)
Inductive Model (Other : Type) : Type :=
| OtherModel (m : Other)
| ConcatModel (base : ModelBase) (concatType : ConcatType)
              (children : list (Model Other)).
Arguments OtherModel {Other} _.
Arguments ConcatModel {Other} _ _ _.

(** The collaborators of [concat.ts] that live in other files. *)
Record Imports (Other : Type) : Type := mkImports {
  (* [child.parseSelections()] and [child.component.selection] of a model
     of another class *)
  other_parseSelections : Other -> M Other;
  other_selection : Other -> option (Obj SelectionComponent);
  (* [super(spec, 'concat', parent, parentGivenName, config, resolve)] *)
  Model_constructor :
    Spec -> string -> option ModelBase -> string -> Config ->
    option Resolve -> M ModelBase;
  (* [this.getName(text)] *)
  getName : ModelBase -> string -> string;
  (* [buildModel(spec, parent, parentGivenName, unitSize, config)] *)
  buildModel :
    Spec -> ModelBase -> string -> option Json -> Config -> M (Model Other)
}.
Arguments other_parseSelections {Other} _ _.
Arguments other_selection {Other} _ _.
Arguments Model_constructor {Other} _ _ _ _ _ _ _.
Arguments getName {Other} _ _ _.
Arguments buildModel {Other} _ _ _ _ _ _.

Section ConcatModel.
Context {Other : Type}.
Variable X : Imports Other.

(** [model.component.selection] *)
Definition selection_of (m : Model Other) : option (Obj SelectionComponent) :=
  match m with
  | OtherModel o => other_selection X o
  | ConcatModel base _ _ => selection (base_component base)
  end.

(** [this.component.selection = sel] *)
Definition with_selection (base : ModelBase)
           (sel : Obj SelectionComponent) : ModelBase :=
  mkModelBase (base_name base)
              (mkComponent (Some sel)
                           (component_rest (base_component base)))
              (base_rest base).

(** [for (const key of keys(sel)) { mine[key] = sel[key]; }] *)
Definition mergeSelection (mine sel : Obj SelectionComponent)
  : Obj SelectionComponent :=
  fold_left
    (fun acc key =>
       match lookup key sel with Some v => set key v acc | None => acc end)
    (keys sel) mine.

(** One turn of [for (const child of this.children)] in
    [parseSelections]: the child parses its selections, then they are
    copied into the parent's mapping. *)
Definition parseSelectionsStep
           (parseChild : Model Other -> M (Model Other))
           (acc : list (Model Other) * Obj SelectionComponent)
           (child : Model Other)
  : M (list (Model Other) * Obj SelectionComponent) :=
  child' <- parseChild child ;;
  match selection_of child' with
  | None => throw TypeError
  | Some sel => ret (fst acc ++ [child'], mergeSelection (snd acc) sel)
  end.

(** [parseSelections] *)
Fixpoint parseSelections (m : Model Other) : M (Model Other) :=
  match m with
  | OtherModel o =>
      o' <- other_parseSelections X o ;; ret (OtherModel o')
  | ConcatModel base concatType children =>
      r <- foldM (parseSelectionsStep parseSelections) children ([], []) ;;
      ret (ConcatModel (with_selection base (snd r)) concatType (fst r))
  end.

Definition isShared (m : option ResolveMode) : bool :=
  match m with Some Shared => true | _ => false end.

(** [spec.resolve?.axis?.x === 'shared' || spec.resolve?.axis?.y === 'shared'] *)
Definition sharesAxis (r : option Resolve) : bool :=
  match r with
  | Some res =>
      match resolve_axis res with
      | Some ax => isShared (axis_x ax) || isShared (axis_y ax)
      | None => false
      end
  | None => false
  end.

(** [getChildren]; on a spec that is no concatenation [spec.concat] is
    [undefined]. *)
Definition getChildren (spec : Spec) : option (list Spec) :=
  match spec with
  | SVConcat _ l => Some l
  | SHConcat _ l => Some l
  | SConcat _ l => Some l
  | _ => None
  end.

Definition concatTypeOf (spec : Spec) : ConcatType :=
  match spec with
  | SVConcat _ _ => vconcat
  | SHConcat _ _ => hconcat
  | _ => concat
  end.

(** ['concat_' + i] *)
Definition concatChildName (i : nat) : string :=
  "concat_" ++ DecimalString.NilZero.string_of_uint (Nat.to_uint i).

(** [constructor] *)
Definition ConcatModel_constructor (spec : Spec)
           (parent : option ModelBase) (parentGivenName : string)
           (config : Config) : M (Model Other) :=
  base <- Model_constructor X spec "concat" parent parentGivenName config
                            (resolve (common_of spec)) ;;
  (if sharesAxis (resolve (common_of spec))
   then warn CONCAT_CANNOT_SHARE_AXIS
   else ret tt) ;;
  let concatType := concatTypeOf spec in
  match getChildren spec with
  | None => throw TypeError
  | Some specs =>
      children <-
        mapMi (fun i child =>
                 buildModel X child base
                            (getName X base (concatChildName i)) None config)
              0 specs ;;
      ret (ConcatModel base concatType children)
  end.
End ConcatModel.

End Compile.

(** ** Sample collaborators

    Concrete stand-ins for the imported functions, used to run the
    embedding on concrete specs. *)

Module Sample.

Definition isWordChar (c : Ascii.ascii) : bool :=
  let n := Ascii.nat_of_ascii c in
  ((48 <=? n) && (n <=? 57) || (65 <=? n) && (n <=? 90) ||
   (97 <=? n) && (n <=? 122) || (n =? 95))%nat.

Definition isDigit (c : Ascii.ascii) : bool :=
  let n := Ascii.nat_of_ascii c in ((48 <=? n) && (n <=? 57))%nat.

Fixpoint replaceNonWord (s : string) : string :=
  match s with
  | EmptyString => EmptyString
  | String c rest =>
      String (if isWordChar c then c else "_"%char) (replaceNonWord rest)
  end.

(** An identifier-safe form of a string. *)
Definition varName (s : string) : string :=
  match s with
  | String c _ => if isDigit c then "_" ++ replaceNonWord s
                  else replaceNonWord s
  | EmptyString => EmptyString
  end.

Definition channelHasField (encoding : option Encoding) (channel : string)
  : bool :=
  match encoding with
  | Some e =>
      match lookup channel e with
      | Some def => isSome (cd_field def)
      | None => false
      end
  | None => false
  end.

Definition binding (r : RepeaterValue) (dimension : string) : option string :=
  if String.eqb dimension "row" then rv_row r
  else if String.eqb dimension "column" then rv_column r
  else if String.eqb dimension "repeat" then rv_repeat r
  else None.

Definition replaceInDef (def : ChannelDef) (repeater : option RepeaterValue)
  : option ChannelDef :=
  match cd_field def with
  | Some (RepeatRef r) =>
      match repeater with
      | Some rv =>
          match binding rv r with
          | Some f =>
              Some (mkChannelDef (Some (FieldName f)) (cd_align def)
                                 (cd_center def) (cd_spacing def)
                                 (cd_columns def) (cd_rest def))
          | None => None
          end
      | None => None
      end
  | _ => Some def
  end.

(** Repeat references are replaced by the bound field; a channel whose
    reference has no binding is dropped with a warning. *)
Fixpoint replaceRepeater (e : Encoding) (repeater : option RepeaterValue)
  : M Encoding :=
  match e with
  | [] => ret []
  | (channel, def) :: rest =>
      match replaceInDef def repeater with
      | Some def' =>
          out <- replaceRepeater rest repeater ;; ret ((channel, def') :: out)
      | None =>
          warn (otherMessage "noSuchRepeatedValue") ;;
          replaceRepeater rest repeater
      end
  end.

Definition replaceRepeaterInEncoding (encoding : option Encoding)
           (repeater : option RepeaterValue) : M (option Encoding) :=
  match encoding with
  | Some e => out <- replaceRepeater e repeater ;; ret (Some out)
  | None => ret (Some [])
  end.

Definition replaceRepeaterInFacet (def : ChannelDef)
           (repeater : option RepeaterValue) : M FacetDef :=
  match replaceInDef def repeater with
  | Some def' => ret (FacetField def')
  | None => throw TypeError
  end.

(** A composite mark named [mark] that expands into a layer with one unit
    per part, normalized through the callback. *)
Definition compositeMark (mark : string) (parts : list string)
  : NonFacetUnitNormalizer :=
  mkNormalizer
    (fun spec _ =>
       match u_mark spec with JStr m => String.eqb m mark | _ => false end)
    (fun spec params normalize =>
       normalize
         (SLayer (u_common spec) None None
            (List.map
               (fun part =>
                  SUnit (mkUnitSpec emptyCommon (JStr part) (u_encoding spec)
                                    None None None None None))
               parts))
         params).

(** A normalizer that matches nothing. *)
Definition inert : NonFacetUnitNormalizer :=
  mkNormalizer (fun _ _ => false) (fun spec _ _ => ret (SUnit spec)).

Definition imports : Imports :=
  mkImports varName channelHasField replaceRepeaterInEncoding
            replaceRepeaterInFacet
            (compositeMark "boxplot" ["rule"; "bar"; "tick"])
            (compositeMark "errorbar" ["rule"])
            (compositeMark "errorband" ["area"])
            inert inert inert.

(** Sample values *)
Definition fieldDef (f : string) : ChannelDef :=
  mkChannelDef (Some (FieldName f)) None None None None [].

Definition repeatDef (dimension : string) : ChannelDef :=
  mkChannelDef (Some (RepeatRef dimension)) None None None None [].

Definition unit (mark : string) (e : Encoding) : UnitSpec :=
  mkUnitSpec emptyCommon (JStr mark) (Some e) None None None None None.

Definition named (n : string) : Common :=
  mkCommon (Some n) None emptyLayout None [].

Definition withData (d : Json) : Common :=
  mkCommon None (Some d) emptyLayout None [].

Definition withColumns (n : Z) : Common :=
  mkCommon None None (mkLayout None None None (Some n)) None [].

Definition cfg : Config := JObj [].

End Sample.

(** ** Vocabulary of the statements *)

(** [e ?? {}] *)
Definition orEmpty {V : Type} (o : option (Obj V)) : Obj V :=
  match o with Some x => x | None => [] end.

(** The cross product of the three value sequences, enumerated with the
    first as the outer loop, the second as the middle loop and the third
    as the inner loop. *)
Definition crossProduct {A : Type} (repeatValues row column : list A)
  : list (A * A * A) :=
  flat_map
    (fun r => flat_map (fun ro => List.map (fun co => (r, ro, co)) column) row)
    repeatValues.

(** The repeater binding of one element of the cross product. *)
Definition bindingOf (t : option string * option string * option string)
  : RepeaterValue :=
  mkRepeaterValue (fst (fst t)) (snd (fst t)) (snd t).

(** What one repeat dimension contributes to the name of a child: nothing
    when its value is [null] (or the empty text), else the prefix followed
    by the sanitized value. *)
Definition namePart (sanitize : string -> string) (prefix : string)
           (v : option string) : string :=
  match v with
  | None => ""
  | Some s => if String.eqb s "" then "" else prefix ++ sanitize s
  end.

(** The name of the child of one element of the cross product: the parts
    of its repeat, row and column values, in this order. *)
Definition childNameOf (I : Imports)
           (t : option string * option string * option string) : string :=
  namePart (varName I) "__repeat_" (fst (fst t)) ++
  namePart (varName I) "__row_" (snd (fst t)) ++
  namePart (varName I) "__column_" (snd t).

(** The child pushed for one element: the normalized template, renamed
    and without its data. *)
Definition finishChild (I : Imports)
           (t : option string * option string * option string)
           (child : Spec) : Spec :=
  omit_data (set_name child (childNameOf I t)).

Definition expandChild (I : Imports) (this : Normalize.This)
           (childSpec : Spec) (params : NormalizerParams)
           (t : option string * option string * option string) : M Spec :=
  child <- Normalize.this_map this childSpec
             (with_repeater params (bindingOf t)) ;;
  ret (finishChild I t child).

(** The bindings [mapRepeat] enumerates for a repeat definition. *)
Definition bindings (repeat : RepeatDef) (repeater : option RepeaterValue)
  : list (option string * option string * option string) :=
  crossProduct (Normalize.repeatValues repeat repeater)
               (Normalize.rowValues repeat repeater)
               (Normalize.columnValues repeat repeater).

(** The columns warning of [mapRepeat] and [mapFacet]. *)
Definition columnsWarning (rowColForm : bool) (c : Common) (type : string)
  : list Event :=
  if rowColForm && truthyNum (columns (layout c))
  then [Warn (columnsNotSupportByRowCol type)]
  else [].

(** The column count [mapRepeat] writes on the concatenation. *)
Definition effectiveColumns (repeat : RepeatDef) (c : Common) : option Z :=
  match repeat with
  | RepeatFlat _ => columns (layout c)
  | RepeatRowCol _ (Some col) => Some (Z.of_nat (List.length col))
  | RepeatRowCol _ None => Some 1%Z
  end.

(** The properties of the concatenation [mapRepeat] returns: those of the
    repeat node, with the column count above and with the node's own data
    unless that is missing or [null], in which case the template's. *)
Definition repeatWrapper (repeat : RepeatDef) (c : Common) (childSpec : Spec)
  : Common :=
  mkCommon (name c)
           (match data c with
            | None => data (common_of childSpec)
            | Some JNull => data (common_of childSpec)
            | Some d => Some d
            end)
           (mkLayout (align (layout c)) (center (layout c))
                     (spacing (layout c)) (effectiveColumns repeat c))
           (resolve c) (rest c).

(** A channel definition reduced to its field-definition part: the layout
    properties [align], [center], [spacing] and [columns] are gone. *)
Definition fieldPart (def : ChannelDef) : ChannelDef :=
  mkChannelDef (cd_field def) None None None None (cd_rest def).

(** The facet mapping built from the row and column channels. *)
Definition rowColumnMapping (enc : Encoding) : FacetMapping :=
  mkFacetMapping (option_map fieldPart (lookup ROW enc))
                 (option_map fieldPart (lookup COLUMN enc)).

(** The channels named by the warning about a dropped facet channel. *)
Definition presentRowColumn (enc : Encoding) : list string :=
  (if isSome (lookup ROW enc) then [ROW] else []) ++
  (if isSome (lookup COLUMN enc) then [COLUMN] else []).

(** The inner unit [mapFacetedUnit] builds, given the encoding that
    repeater substitution returned. *)
Definition innerUnit (spec : UnitSpec) (replaced : option Encoding)
  : UnitSpec :=
  mkUnitSpec emptyCommon (u_mark spec) replaced
             (if truthyNum (u_width spec) then u_width spec else None)
             (if truthyNum (u_height spec) then u_height spec else None)
             (if truthyJson (u_view spec) then u_view spec else None)
             (if truthyJson (u_projection spec) then u_projection spec
              else None)
             (if truthyJson (u_selection spec) then u_selection spec
              else None).

(** The warning [mergeProjection] logs: one, naming both projections, when
    both are truthy. *)
Definition projectionWarning (parentProjection projection : option Json)
  : list Event :=
  match parentProjection, projection with
  | Some pp, Some p =>
      if truthyJson parentProjection && truthyJson projection
      then [Warn (projectionOverridden pp p)]
      else []
  | _, _ => []
  end.

(** The unit [mapUnitWithParentEncodingOrProjection] hands back to
    [mapUnit]: the merged encoding replaces the unit's own when the merge
    produced one, the merged projection when it is truthy. *)
Definition mergedUnit (spec : UnitSpec) (mergedProjection : option Json)
           (mergedEncoding : option Encoding) : UnitSpec :=
  mkUnitSpec (u_common spec) (u_mark spec)
             (match mergedEncoding with
              | Some e => Some e
              | None => u_encoding spec
              end)
             (u_width spec) (u_height spec) (u_view spec)
             (if truthyJson mergedProjection then mergedProjection
              else u_projection spec)
             (u_selection spec).

(** The entries the loop of [mapUnit] leaves for the normalizers it asked
    without a match. *)
Definition asked (chain : list (NormalizerName * NonFacetUnitNormalizer))
           (spec : UnitSpec) : list Event :=
  List.map (fun entry => HasMatchingType (fst entry) spec) chain.

(** No normalizer of the chain matches the unit. *)
Definition noneMatches (chain : list (NormalizerName * NonFacetUnitNormalizer))
           (spec : UnitSpec) (cfg : Config) : Prop :=
  Forall (fun entry => hasMatchingType (snd entry) spec cfg = false) chain.

(** *** Trees a second normalization leaves alone *)

Definition isUnitOrLayer (s : Spec) : bool :=
  match s with SUnit _ | SLayer _ _ _ _ => true | _ => false end.

Definition allOf {A : Type} (P : A -> Prop) (l : list A) : Prop :=
  fold_right (fun x acc => P x /\ acc) True l.

(** Nesting depth of a spec. *)
Fixpoint depth (s : Spec) : nat :=
  match s with
  | SUnit _ => 0
  | SFacet _ _ inner | SRepeat _ _ inner => S (depth inner)
  | SLayer _ _ _ l | SConcat _ l | SHConcat _ l | SVConcat _ l =>
      S (list_max (List.map depth l))
  end.

(** No Repeat node anywhere in the tree. *)
Fixpoint noRepeat (s : Spec) : Prop :=
  match s with
  | SUnit _ => True
  | SRepeat _ _ _ => False
  | SFacet _ _ inner => noRepeat inner
  | SLayer _ _ _ l | SConcat _ l | SHConcat _ l | SVConcat _ l =>
      allOf noRepeat l
  end.

(** The unit has no field under the row, column and facet channels, as
    [channelHasField] tells; other specs have no encoding to look at. *)
Definition noFacetChannel (I : Imports) (s : Spec) : Prop :=
  match s with
  | SUnit u =>
      channelHasField I (u_encoding u) ROW = false /\
      channelHasField I (u_encoding u) COLUMN = false /\
      channelHasField I (u_encoding u) FACET = false
  | _ => True
  end.

(** No unit that [map] visits (the root, the inner spec of a facet, a
    member of a concatenation) has a field under the row, column or facet
    channel; the units inside a layer are not looked at. *)
Fixpoint facetsPromoted (I : Imports) (s : Spec) : Prop :=
  match s with
  | SUnit u => noFacetChannel I (SUnit u)
  | SLayer _ _ _ _ => True
  | SFacet _ _ inner | SRepeat _ _ inner => facetsPromoted I inner
  | SConcat _ l | SHConcat _ l | SVConcat _ l => allOf (facetsPromoted I) l
  end.

(** The context inherits nothing: no parent encoding, and a parent
    projection that is missing or falsy. *)
Definition noParent (params : NormalizerParams) : Prop :=
  parentEncoding params = None /\
  truthyJson (parentProjection params) = false.

(** A tree on which [normalize] has nothing left to do under the
    configuration [cfg]: no repeat node; no layer with an encoding or
    projection of its own, and only units and layers in a layer; no
    row/column facet with a non-zero column count; no unit that a chain
    normalizer matches or whose encoding the repeater substitution (with no
    binding) would change.  [dispatched] tells whether the node stands where
    [map] visits it (the root, the inner spec of a facet, a member of a
    concatenation): there a unit with a row, column or facet channel would
    be promoted, whereas the members of a layer are visited by
    [mapLayerOrUnit], which does not look at these channels. *)
Fixpoint settled (I : Imports) (cfg : Config) (dispatched : bool) (s : Spec)
  : Prop :=
  match s with
  | SUnit u =>
      (dispatched = true -> noFacetChannel I (SUnit u)) /\
      (exists l, replaceRepeaterInEncoding I (u_encoding u) None
                 = Done (u_encoding u) l) /\
      noneMatches (Normalize.nonFacetUnitNormalizers I) u cfg
  | SLayer _ encoding projection l =>
      encoding = None /\ projection = None /\
      allOf (fun x => isUnitOrLayer x = true /\ settled I cfg false x) l
  | SFacet c facet inner =>
      Normalize.isFacetMapping facet && truthyNum (columns (layout c)) = false
      /\ settled I cfg true inner
  | SRepeat _ _ _ => False
  | SConcat _ l | SHConcat _ l | SVConcat _ l => allOf (settled I cfg true) l
  end.

(** A function that normalizes units and layers, such as [mapLayerOrUnit]
    or the expansion of a chain normalizer, settles its argument when what
    it returns is a unit or a layer with nothing left to do inside a layer,
    and nothing left to do anywhere when it was given a unit free of facet
    channels under a context that inherits nothing. *)
Definition settles (I : Imports)
           (f : Spec -> NormalizerParams -> M Spec) : Prop :=
  forall s params t l,
    f s params = Done t l ->
    isUnitOrLayer t = true
    /\ settled I (config params) false t
    /\ (noParent params -> noFacetChannel I s ->
        settled I (config params) true t).

(** A unit with another name and other data. *)
Definition renamed (u : UnitSpec) (n : option string) (d : option Json)
  : UnitSpec :=
  mkUnitSpec (mkCommon n d (layout (u_common u)) (resolve (u_common u))
                       (rest (u_common u)))
             (u_mark u) (u_encoding u) (u_width u) (u_height u) (u_view u)
             (u_projection u) (u_selection u).

(** What a second normalization asks of the collaborators of [core.ts],
    whose code is in other files: the repeater substitution has nothing
    left to do on an encoding it returned and gives no field to a row,
    column or facet channel that had none; the match predicates of the
    chain do not depend on the name and the data of the unit; and the
    expansion of a normalizer that matches settles the unit when the
    callback it is handed settles specs. *)
Record collaboratorsSettle (I : Imports) : Prop := mkCollaboratorsSettle {
  substitution_settles :
    forall e repeater e' l,
      replaceRepeaterInEncoding I e repeater = Done e' l ->
      exists l', replaceRepeaterInEncoding I e' None = Done e' l';
  substitution_adds_no_field :
    forall e repeater e' l channel,
      replaceRepeaterInEncoding I e repeater = Done e' l ->
      channelHasField I e channel = false ->
      channelHasField I e' channel = false;
  match_ignores_name_and_data :
    forall entry u n d cfg,
      In entry (Normalize.nonFacetUnitNormalizers I) ->
      hasMatchingType (snd entry) (renamed u n d) cfg
      = hasMatchingType (snd entry) u cfg;
  expansion_settles :
    forall entry callback,
      In entry (Normalize.nonFacetUnitNormalizers I) ->
      settles I callback ->
      forall u params t l,
        hasMatchingType (snd entry) u (config params) = true ->
        run (snd entry) u params callback = Done t l ->
        isUnitOrLayer t = true
        /\ settled I (config params) false t
        /\ (noParent params -> noFacetChannel I (SUnit u) ->
            settled I (config params) true t)
}.

(** The invariant of the three methods reached through [this]. *)
Record thisSettles (I : Imports) (this : Normalize.This) : Prop :=
  mkThisSettles {
  map_settles :
    forall s params t l,
      noParent params ->
      Normalize.this_map this s params = Done t l ->
      settled I (config params) true t;
  mapLayerOrUnit_settles : settles I (Normalize.this_mapLayerOrUnit this);
  mapUnit_settles :
    settles I (fun s params =>
                 match s with
                 | SUnit u => Normalize.this_mapUnit this u params
                 | _ => throw InvalidSpec
                 end)
}.

(** *** Concat models *)

(** The mapping a concat model ends up with, given its children after they
    parsed their selections: each child's entries are copied in turn, in
    the order of the children. *)
Definition mergedSelections {Other : Type} (X : Compile.Imports Other)
           (parsed : list (Compile.Model Other))
  : Obj Compile.SelectionComponent :=
  fold_left
    (fun acc child =>
       Compile.mergeSelection acc (orEmpty (Compile.selection_of X child)))
    parsed [].

(** Sample models of another class: a leaf that declares selections and
    publishes them when it parses them. *)
Module SampleModel.

Record Leaf : Type := mkLeaf {
  leaf_name : string;
  declared : Obj Compile.SelectionComponent;
  published : option (Obj Compile.SelectionComponent)
}.

Definition parseSelections (m : Leaf) : M Leaf :=
  ret (mkLeaf (leaf_name m) (declared m) (Some (declared m))).

Definition Model_constructor (spec : Spec) (type : string)
           (parent : option Compile.ModelBase) (parentGivenName : string)
           (config : Config) (resolve : option Resolve)
  : M Compile.ModelBase :=
  ret (Compile.mkModelBase
         (match name (common_of spec) with
          | Some n => n
          | None => parentGivenName
          end)
         (Compile.mkComponent None []) []).

Definition getName (base : Compile.ModelBase) (text : string) : string :=
  (if String.eqb (Compile.base_name base) "" then text
   else Compile.base_name base ++ "_" ++ text)%string.

Definition buildModel (spec : Spec) (parent : Compile.ModelBase)
           (parentGivenName : string) (unitSize : option Json)
           (config : Config) : M (Compile.Model Leaf) :=
  ret (Compile.OtherModel (mkLeaf parentGivenName [] None)).

Definition imports : Compile.Imports Leaf :=
  Compile.mkImports Leaf parseSelections published Model_constructor getName
                    buildModel.

Definition leaf (n : string) (sel : Obj Compile.SelectionComponent)
  : Compile.Model Leaf :=
  Compile.OtherModel (mkLeaf n sel None).

Definition parsedLeaf (n : string) (sel : Obj Compile.SelectionComponent)
  : Compile.Model Leaf :=
  Compile.OtherModel (mkLeaf n sel (Some sel)).

Definition base (n : string) : Compile.ModelBase :=
  Compile.mkModelBase n (Compile.mkComponent None []) [].

End SampleModel.

(** [repeater ? repeater.dimension : null]: the inherited binding of one
    repeat dimension. *)
Definition inherited (dimension : RepeaterValue -> option string)
           (repeater : option RepeaterValue) : option string :=
  match repeater with Some r => dimension r | None => None end.


(** ** compile/concat.ts, the other phases of [ConcatModel] *)

Module ConcatPhases.

(** What these methods reach outside [concat.ts]: two imported functions,
    the methods every model inherits from the [Model] base class, and the
    methods of the models of the other classes. *)
Record Methods (Other : Type) : Type := mkMethods {
  (* [parseData(this)] of ./data/parse *)
  data_parseData : Compile.Model Other -> M Json;
  (* [assembleLayoutSignals(this)] of ./layoutsize/assemble *)
  layout_assembleLayoutSignals : Compile.Model Other -> list Json;
  (* [child.getName(text)], [child.assembleTitle()],
     [child.assembleGroupStyle()], [child.assembleGroupEncodeEntry(b)],
     [child.assembleGroup()] *)
  child_getName : Compile.Model Other -> string -> string;
  assembleTitle : Compile.Model Other -> option Json;
  assembleGroupStyle : Compile.Model Other -> option string;
  assembleGroupEncodeEntry : Compile.Model Other -> bool -> option Json;
  assembleGroup : Compile.Model Other -> Obj Json;
  (* the phases of a model of another class *)
  other_parseData : Other -> M Other;
  other_parseMarkGroup : Other -> M Other;
  other_parseAxesAndHeaders : Other -> M Other;
  other_assembleSelectionTopLevelSignals : Other -> list Json -> list Json;
  other_assembleSignals : Other -> list Json;
  other_assembleLayoutSignals : Other -> list Json;
  other_assembleSelectionData : Other -> list Json -> list Json
}.
Arguments data_parseData {Other} _ _.
Arguments layout_assembleLayoutSignals {Other} _ _.
Arguments child_getName {Other} _ _ _.
Arguments assembleTitle {Other} _ _.
Arguments assembleGroupStyle {Other} _ _.
Arguments assembleGroupEncodeEntry {Other} _ _ _.
Arguments assembleGroup {Other} _ _.
Arguments other_parseData {Other} _ _.
Arguments other_parseMarkGroup {Other} _ _.
Arguments other_parseAxesAndHeaders {Other} _ _.
Arguments other_assembleSelectionTopLevelSignals {Other} _ _ _.
Arguments other_assembleSignals {Other} _ _.
Arguments other_assembleLayoutSignals {Other} _ _.
Arguments other_assembleSelectionData {Other} _ _ _.

Section Phases.
Context {Other : Type}.
Variable Y : Methods Other.

(** [this.component.data = d] *)
Definition with_data (base : Compile.ModelBase) (d : Json)
  : Compile.ModelBase :=
  Compile.mkModelBase
    (Compile.base_name base)
    (Compile.mkComponent
       (Compile.selection (Compile.base_component base))
       (set "data" d (Compile.component_rest (Compile.base_component base))))
    (Compile.base_rest base).

(** [parseData] *)
Fixpoint parseData (m : Compile.Model Other) : M (Compile.Model Other) :=
  match m with
  | Compile.OtherModel o =>
      o' <- other_parseData Y o ;; ret (Compile.OtherModel o')
  | Compile.ConcatModel base concatType children =>
      d <- data_parseData Y m ;;
      children' <- mapM parseData children ;;
      ret (Compile.ConcatModel (with_data base d) concatType children')
  end.

(** [parseMarkGroup] *)
Fixpoint parseMarkGroup (m : Compile.Model Other) : M (Compile.Model Other) :=
  match m with
  | Compile.OtherModel o =>
      o' <- other_parseMarkGroup Y o ;; ret (Compile.OtherModel o')
  | Compile.ConcatModel base concatType children =>
      children' <- mapM parseMarkGroup children ;;
      ret (Compile.ConcatModel base concatType children')
  end.

(** [parseAxesAndHeaders] *)
Fixpoint parseAxesAndHeaders (m : Compile.Model Other)
  : M (Compile.Model Other) :=
  match m with
  | Compile.OtherModel o =>
      o' <- other_parseAxesAndHeaders Y o ;; ret (Compile.OtherModel o')
  | Compile.ConcatModel base concatType children =>
      children' <- mapM parseAxesAndHeaders children ;;
      ret (Compile.ConcatModel base concatType children')
  end.

(** [assembleSelectionTopLevelSignals] *)
Fixpoint assembleSelectionTopLevelSignals (m : Compile.Model Other)
         (signals : list Json) : list Json :=
  match m with
  | Compile.OtherModel o => other_assembleSelectionTopLevelSignals Y o signals
  | Compile.ConcatModel _ _ children =>
      fold_left (fun sg child => assembleSelectionTopLevelSignals child sg)
                children signals
  end.

(** [assembleSignals]: the children are asked, the answer is empty. *)
Fixpoint assembleSignals (m : Compile.Model Other) : list Json :=
  match m with
  | Compile.OtherModel o => other_assembleSignals Y o
  | Compile.ConcatModel _ _ children =>
      let _ := List.map assembleSignals children in []
  end.

(** [assembleLayoutSignals] *)
Fixpoint assembleLayoutSignals (m : Compile.Model Other) : list Json :=
  match m with
  | Compile.OtherModel o => other_assembleLayoutSignals Y o
  | Compile.ConcatModel _ _ children =>
      fold_left (fun signals child => signals ++ assembleLayoutSignals child)
                children (layout_assembleLayoutSignals Y m)
  end.

(** [assembleSelectionData] *)
Fixpoint assembleSelectionData (m : Compile.Model Other) (data : list Json)
  : list Json :=
  match m with
  | Compile.OtherModel o => other_assembleSelectionData Y o data
  | Compile.ConcatModel _ _ children =>
      fold_left (fun db child => assembleSelectionData child db) children data
  end.

(** The group [assembleMarks] builds for one child. *)
Definition assembleMarkGroup (child : Compile.Model Other) : Obj Json :=
  let title := assembleTitle Y child in
  let style := assembleGroupStyle Y child in
  let encodeEntry := assembleGroupEncodeEntry Y child false in
  assign
    (assign
       (assign
          (assign [("type", JStr "group");
                   ("name", JStr (child_getName Y child "group"))]
                  (match title with
                   | Some t => if truthyJson title then [("title", t)] else []
                   | None => []
                   end))
          (match style with
           | Some st => if truthyStr style then [("style", JStr st)] else []
           | None => []
           end))
       (match encodeEntry with
        | Some e =>
            if truthyJson encodeEntry
            then [("encode", JObj [("update", e)])] else []
        | None => []
        end))
    (assembleGroup Y child).

(** [assembleMarks], for a concat model's children *)
Definition assembleMarks (children : list (Compile.Model Other))
  : list (Obj Json) :=
  List.map assembleMarkGroup children.

(** [assembleDefaultLayout] *)
Definition assembleDefaultLayout (concatType : Compile.ConcatType)
  : Obj Json :=
  assign
    (match concatType with
     | Compile.vconcat => [("columns", JNum 1)]
     | _ => []
     end)
    [("bounds", JStr "full"); ("align", JStr "each")].
End Phases.

End ConcatPhases.

(** The leaves of a model tree, that is its models of the other classes,
    in the order of the children. *)
Fixpoint leaves {Other : Type} (m : Compile.Model Other) : list Other :=
  match m with
  | Compile.OtherModel o => [o]
  | Compile.ConcatModel _ _ children => flat_map leaves children
  end.

(** The models of a tree in pre-order: each concat model before its
    children, the children in their order. *)
Fixpoint preorder {Other : Type} (m : Compile.Model Other)
  : list (Compile.Model Other) :=
  match m with
  | Compile.OtherModel _ => [m]
  | Compile.ConcatModel _ _ children => m :: flat_map preorder children
  end.

(** The tree of concat models around the leaves: every concat model with
    its base, its concat type and its children in order, every leaf
    blanked. *)
Fixpoint shape {Other : Type} (m : Compile.Model Other)
  : Compile.Model Datatypes.unit :=
  match m with
  | Compile.OtherModel _ => Compile.OtherModel tt
  | Compile.ConcatModel base concatType children =>
      Compile.ConcatModel base concatType (List.map shape children)
  end.

(** [o] when it has a key, [undefined] otherwise: what [mergeEncoding]
    returns for the merged object [o]. *)
Definition nonEmpty {V : Type} (o : Obj V) : option (Obj V) :=
  match o with [] => None | _ => Some o end.

(** The keys of [b] that [a] does not have. *)
Definition newKeys {V : Type} (a b : Obj V) : list string :=
  filter (fun key => negb (isSome (lookup key a))) (keys b).

(** The context under which [mapLayer] normalizes the members of a layer
    that declares [encoding] and [projection]. *)
Definition layerContext (params : NormalizerParams)
           (encoding : option Encoding) (projection : option Json)
  : NormalizerParams :=
  mkParams (config params)
           (nonEmpty (assign (orEmpty (parentEncoding params))
                             (orEmpty encoding)))
           (match projection with
            | None => parentProjection params
            | Some JNull => parentProjection params
            | Some p => Some p
            end)
           (repeater params).

(** A layout property of a channel definition that may be missing. *)
Definition propOf {A : Type} (def : option ChannelDef)
           (prop : ChannelDef -> option A) : option A :=
  match def with Some d => prop d | None => None end.

(** The per-axis value of a layout property: absent when neither the row
    nor the column definition sets it. *)
Definition perAxis {A : Type} (row column : option A)
  : option (LayoutVal A) :=
  match row, column with
  | None, None => None
  | _, _ => Some (PerAxis (mkRowCol row column))
  end.

(** The layout taken from the row and column channel definitions. *)
Definition rowColumnLayout (row column : option ChannelDef) : Layout :=
  mkLayout (perAxis (propOf row cd_align) (propOf column cd_align))
           (perAxis (propOf row cd_center) (propOf column cd_center))
           (perAxis (propOf row cd_spacing) (propOf column cd_spacing))
           None.

(** The layout taken from a facet channel definition. *)
Definition facetLayout (def : ChannelDef) : Layout :=
  mkLayout (option_map Flat (cd_align def))
           (if truthyBool (cd_center def) then Some (Flat true) else None)
           (if truthyNum (cd_spacing def)
            then option_map Flat (cd_spacing def) else None)
           (if truthyNum (cd_columns def) then cd_columns def else None).

(** The selection mappings of the leaves of a model tree, in the order of
    the children. *)
Fixpoint leafSelections {Other : Type} (X : Compile.Imports Other)
         (m : Compile.Model Other) : list (Obj Compile.SelectionComponent) :=
  match m with
  | Compile.OtherModel o => [orEmpty (Compile.other_selection X o)]
  | Compile.ConcatModel _ _ children => flat_map (leafSelections X) children
  end.

(** The definition of [key] in the last object of a sequence that has
    one. *)
Definition pick {V : Type} (key : string) (found : option V) (o : Obj V)
  : option V :=
  match lookup key o with Some v => Some v | None => found end.

Definition lastDefinition {V : Type} (key : string) (objs : list (Obj V))
  : option V :=
  fold_left (pick key) objs None.

(** The layout signals one model contributes itself. *)
Definition ownLayoutSignals {Other : Type} (Y : ConcatPhases.Methods Other)
           (m : Compile.Model Other) : list Json :=
  match m with
  | Compile.OtherModel o => ConcatPhases.other_assembleLayoutSignals Y o
  | Compile.ConcatModel _ _ _ => ConcatPhases.layout_assembleLayoutSignals Y m
  end.

(** [model.component.data] *)
Definition data_of (base : Compile.ModelBase) : option Json :=
  lookup "data" (Compile.component_rest (Compile.base_component base)).

(** Sample methods for the sample leaves. *)
Module SamplePhases.

Definition nameOf (m : Compile.Model SampleModel.Leaf) : string :=
  match m with
  | Compile.OtherModel o => SampleModel.leaf_name o
  | Compile.ConcatModel base _ _ => Compile.base_name base
  end.

Definition methods : ConcatPhases.Methods SampleModel.Leaf :=
  ConcatPhases.mkMethods SampleModel.Leaf
    (fun m => ret (JStr (nameOf m ++ "_data")))
    (fun m => [JStr (nameOf m ++ "_layout")])
    (fun m text => (nameOf m ++ "_" ++ text)%string)
    (fun m => match m with
              | Compile.OtherModel o =>
                  if String.eqb (SampleModel.leaf_name o) "plain" then None
                  else Some (JObj [("text", JStr (SampleModel.leaf_name o))])
              | _ => None
              end)
    (fun m => match m with
              | Compile.OtherModel o =>
                  if String.eqb (SampleModel.leaf_name o) "plain" then Some ""
                  else Some "cell"
              | _ => None
              end)
    (fun m _ => None)
    (fun m => match m with
              | Compile.OtherModel o => [("marks", JArr [])]
              | _ => [("layout", JObj [])]
              end)
    (fun o => ret o)
    (fun o =>
       Done (SampleModel.mkLeaf (SampleModel.leaf_name o ++ "+marks")
                                (SampleModel.declared o)
                                (SampleModel.published o))
            [Warn (otherMessage (SampleModel.leaf_name o ++ ": marks"))])
    (fun o =>
       Done (SampleModel.mkLeaf (SampleModel.leaf_name o ++ "+axes")
                                (SampleModel.declared o)
                                (SampleModel.published o))
            [Warn (otherMessage (SampleModel.leaf_name o ++ ": axes"))])
    (fun o signals =>
       signals ++ List.map (fun kv => JStr (fst kv)) (SampleModel.declared o))
    (fun o => [JStr (SampleModel.leaf_name o ++ "_signal")])
    (fun o => [JStr (SampleModel.leaf_name o ++ "_width")])
    (fun o data =>
       data ++ [JStr (SampleModel.leaf_name o ++ "_store")]).

End SamplePhases.

(** The entries of the group before the child's own group is spread over
    them. *)
Definition groupHead {Other : Type} (Y : ConcatPhases.Methods Other)
           (child : Compile.Model Other) : Obj Json :=
  assign
    (assign
       (assign [("type", JStr "group");
                ("name", JStr (ConcatPhases.child_getName Y child "group"))]
               (match ConcatPhases.assembleTitle Y child with
                | Some t =>
                    if truthyJson (ConcatPhases.assembleTitle Y child)
                    then [("title", t)] else []
                | None => []
                end))
       (match ConcatPhases.assembleGroupStyle Y child with
        | Some st =>
            if truthyStr (ConcatPhases.assembleGroupStyle Y child)
            then [("style", JStr st)] else []
        | None => []
        end))
    (match ConcatPhases.assembleGroupEncodeEntry Y child false with
     | Some e =>
         if truthyJson (ConcatPhases.assembleGroupEncodeEntry Y child false)
         then [("encode", JObj [("update", e)])] else []
     | None => []
     end).

(** * Properties *)

(** ** The monad of results *)

Section MonadFacts.
Context {A B C : Type}.

Lemma bind_ret_l (a : A) (f : A -> M B) : bind (ret a) f = f a.
Proof. unfold bind, ret. destruct (f a); reflexivity. Qed.

Lemma bind_ret_r (m : M A) : bind m ret = m.
Proof. destruct m as [a l|e]; simpl; [rewrite app_nil_r|]; reflexivity. Qed.

Lemma bind_assoc (m : M A) (f : A -> M B) (g : B -> M C) :
  bind (bind m f) g = bind m (fun a => bind (f a) g).
Proof.
  destruct m as [a l|e]; simpl; [|reflexivity].
  destruct (f a) as [b l'|e]; simpl; [|reflexivity].
  destruct (g b) as [c l''|e]; simpl; [|reflexivity].
  now rewrite app_assoc.
Qed.

Lemma bind_Done (a : A) (l : list Event) (f : A -> M B) :
  bind (Done a l) f = bind (Done tt l) (fun _ => f a).
Proof. reflexivity. Qed.

Lemma bind_Done_inv (m : M A) (f : A -> M B) (b : B) (l : list Event) :
  bind m f = Done b l ->
  exists a l1 l2, m = Done a l1 /\ f a = Done b l2 /\ l = l1 ++ l2.
Proof.
  destruct m as [a l1|e]; simpl; [|discriminate].
  destruct (f a) as [b' l2|e] eqn:E; [|discriminate].
  intros H; inversion H; subst. now exists a, l1, l2.
Qed.

Lemma value_Done (m : M A) (a : A) :
  value m = Some a -> exists l, m = Done a l.
Proof.
  destruct m as [a' l|e]; simpl; intros H; inversion H. now exists l.
Qed.

Lemma bind_ext (m : M A) (f g : A -> M B) :
  (forall a, f a = g a) -> bind m f = bind m g.
Proof. intros H. destruct m as [a l|e]; simpl; [rewrite H|]; reflexivity. Qed.
End MonadFacts.

Lemma mapM_nil {A B : Type} (f : A -> M B) : mapM f [] = ret [].
Proof. reflexivity. Qed.

Lemma mapM_cons {A B : Type} (f : A -> M B) (x : A) (xs : list A) :
  mapM f (x :: xs) = (y <- f x ;; ys <- mapM f xs ;; ret (y :: ys)).
Proof. reflexivity. Qed.

Lemma foldM_nil {A S : Type} (f : S -> A -> M S) (s : S) :
  foldM f [] s = ret s.
Proof. reflexivity. Qed.

Lemma foldM_cons {A S : Type} (f : S -> A -> M S) (x : A) (xs : list A)
      (s : S) :
  foldM f (x :: xs) s = (s' <- f s x ;; foldM f xs s').
Proof. reflexivity. Qed.

Lemma mapM_app {A B : Type} (f : A -> M B) (xs ys : list A) :
  mapM f (xs ++ ys) =
  (us <- mapM f xs ;; vs <- mapM f ys ;; ret (us ++ vs)).
Proof.
  induction xs as [|x xs IH].
  - rewrite mapM_nil, bind_ret_l. cbn [app].
    rewrite <- (bind_ret_r (mapM f ys)) at 1. reflexivity.
  - cbn [app]. rewrite !mapM_cons, IH, !bind_assoc.
    apply bind_ext; intros y.
    rewrite !bind_assoc. apply bind_ext; intros us.
    rewrite !bind_assoc, bind_ret_l.
    apply bind_ext; intros vs. now rewrite bind_ret_l.
Qed.

(** A loop that pushes one result per element is a [mapM]. *)
Lemma foldM_push {A B : Type} (g : A -> M B) (h : list B -> A -> M (list B)) :
  (forall acc x, h acc x = (y <- g x ;; ret (acc ++ [y]))) ->
  forall xs acc, foldM h xs acc = (ys <- mapM g xs ;; ret (acc ++ ys)).
Proof.
  intros Hh. induction xs as [|x xs IH]; intros acc.
  - rewrite foldM_nil, mapM_nil, bind_ret_l, app_nil_r. reflexivity.
  - rewrite foldM_cons, mapM_cons, Hh, !bind_assoc. apply bind_ext; intros y.
    rewrite bind_ret_l, IH, !bind_assoc. apply bind_ext; intros ys.
    rewrite bind_ret_l, <- app_assoc. reflexivity.
Qed.

(** A loop whose body is itself such a loop runs over the flattened
    sequence. *)
Lemma foldM_flat {A A' B : Type} (g : A' -> M B) (F : A -> list A')
      (h : list B -> A -> M (list B)) :
  (forall acc x, h acc x = (ys <- mapM g (F x) ;; ret (acc ++ ys))) ->
  forall xs acc,
    foldM h xs acc = (ys <- mapM g (flat_map F xs) ;; ret (acc ++ ys)).
Proof.
  intros Hh. induction xs as [|x xs IH]; intros acc.
  - cbn [flat_map]. rewrite foldM_nil, mapM_nil, bind_ret_l, app_nil_r.
    reflexivity.
  - cbn [flat_map]. rewrite foldM_cons, Hh, mapM_app, !bind_assoc.
    apply bind_ext; intros us.
    rewrite bind_ret_l, IH, !bind_assoc. apply bind_ext; intros vs.
    rewrite !bind_ret_l, <- app_assoc. reflexivity.
Qed.

(** When every element succeeds, so does the traversal. *)
Lemma mapM_Forall2 {A B : Type} (f : A -> M B) (xs : list A) (ys : list B) :
  Forall2 (fun x y => exists l, f x = Done y l) xs ys ->
  exists l, mapM f xs = Done ys l.
Proof.
  induction 1 as [|x y xs ys [l Hx] _ [l' IH]].
  - now exists [].
  - rewrite mapM_cons, Hx, IH. simpl. eexists; reflexivity.
Qed.

Lemma mapM_length {A B : Type} (f : A -> M B) (xs : list A) (ys : list B)
      (l : list Event) :
  mapM f xs = Done ys l -> List.length ys = List.length xs.
Proof.
  revert ys l. induction xs as [|x xs IH]; intros ys l H.
  - inversion H; reflexivity.
  - rewrite mapM_cons in H. apply bind_Done_inv in H as (y & l1 & l2 & _ & H & _).
    apply bind_Done_inv in H as (ys' & l3 & l4 & Hys & H & _).
    inversion H; subst. simpl. f_equal. eauto.
Qed.

(** ** Objects *)

Section ObjectFacts.
Context {V : Type}.
Implicit Types (o a b : Obj V) (k key : string) (v : V).

Lemma lookup_set_same key v o : lookup key (set key v o) = Some v.
Proof.
  induction o as [|[k w] o IH]; simpl.
  - now rewrite String.eqb_refl.
  - destruct (String.eqb key k) eqn:E; simpl; rewrite E; auto.
Qed.

Lemma lookup_set_other key k v o :
  key <> k -> lookup key (set k v o) = lookup key o.
Proof.
  intros Hne. induction o as [|[k' w] o IH]; simpl.
  - apply String.eqb_neq in Hne. now rewrite Hne.
  - destruct (String.eqb k k') eqn:E; simpl.
    + apply String.eqb_eq in E; subst k'.
      apply String.eqb_neq in Hne. now rewrite Hne.
    + now rewrite IH.
Qed.

Lemma lookup_None_notin key o : lookup key o = None <-> ~ In key (keys o).
Proof.
  induction o as [|[k w] o IH]; simpl.
  - tauto.
  - destruct (String.eqb key k) eqn:E.
    + apply String.eqb_eq in E; subst. split; [discriminate|tauto].
    + apply String.eqb_neq in E. rewrite IH.
      split; [intros H [H1|H1]; auto | tauto].
Qed.

(** In [{...a, ...b}] an entry of [b] wins over the entry of [a]. *)
Lemma lookup_assign key a b :
  wf b ->
  lookup key (assign a b) =
  match lookup key b with Some v => Some v | None => lookup key a end.
Proof.
  unfold assign, wf. revert a.
  induction b as [|[k w] b IH]; intros a Hwf; simpl; [reflexivity|].
  inversion Hwf as [|? ? Hnotin Hwf']; subst.
  rewrite IH by assumption.
  destruct (String.eqb key k) eqn:E.
  - apply String.eqb_eq in E; subst k.
    apply lookup_None_notin in Hnotin. rewrite Hnotin.
    apply lookup_set_same.
  - apply String.eqb_neq in E.
    destruct (lookup key b); [reflexivity|].
    now apply lookup_set_other.
Qed.

Lemma set_not_nil key v o : set key v o <> [].
Proof. destruct o as [|[k w] o]; simpl; [|destruct (String.eqb key k)]; discriminate. Qed.

Lemma assign_nil a b : assign a b = [] <-> a = [] /\ b = [].
Proof.
  unfold assign. split.
  - revert a. induction b as [|[k w] b IH]; simpl; intros a H; [auto|].
    apply IH in H as [H _]. now apply set_not_nil in H.
  - intros [-> ->]. reflexivity.
Qed.

Lemma keys_set key v o :
  keys (set key v o) =
  if isSome (lookup key o) then keys o else keys o ++ [key].
Proof.
  induction o as [|[k w] o IH]; simpl; [reflexivity|].
  destruct (String.eqb key k) eqn:E; simpl; [reflexivity|].
  rewrite IH. destruct (isSome (lookup key o)); reflexivity.
Qed.
End ObjectFacts.

Lemma fold_push_filter {A : Type} (P : A -> bool) (xs acc : list A) :
  fold_left (fun o x => if P x then o ++ [x] else o) xs acc =
  acc ++ filter P xs.
Proof.
  revert acc. induction xs as [|x xs IH]; intros acc; simpl.
  - now rewrite app_nil_r.
  - rewrite IH. destruct (P x); [rewrite <- app_assoc|]; reflexivity.
Qed.

(** ** [mergeEncoding] *)

Section MergeEncodingFacts.
Import Normalize.

Lemma overriden_filter (p e : Encoding) :
  overriden p e = filter (fun key => isSome (lookup key e)) (keys p).
Proof. unfold overriden. now rewrite fold_push_filter. Qed.

Lemma mergeEncoding_run (parentEncoding encoding : option Encoding) :
  let p := orEmpty parentEncoding in
  let e := orEmpty encoding in
  let dropped := filter (fun key => isSome (lookup key e)) (keys p) in
  mergeEncoding parentEncoding encoding =
  Done (match assign p e with [] => None | _ => Some (assign p e) end)
       (match dropped with
        | [] => []
        | _ => [Warn (encodingOverridden dropped)]
        end).
Proof.
  intros p e dropped. unfold mergeEncoding.
  assert (Hw :
    match parentEncoding, encoding with
    | Some p0, Some e0 =>
        if (0 <? List.length (overriden p0 e0))%nat
        then warn (encodingOverridden (overriden p0 e0))
        else ret tt
    | _, _ => ret tt
    end = Done tt (match dropped with
                   | [] => []
                   | _ => [Warn (encodingOverridden dropped)]
                   end)).
  { subst dropped p e.
    destruct parentEncoding as [p0|], encoding as [e0|]; simpl;
      try reflexivity.
    - rewrite overriden_filter.
      destruct (filter _ (keys p0)); reflexivity.
    - induction (keys p0) as [|k ks IH]; simpl; [reflexivity|exact IH]. }
  rewrite Hw. clear Hw.
  assert (Hm : forall (m : Encoding) (l : list Event),
    (_ <- Done tt l ;;
     ret (if (0 <? List.length (keys m))%nat then Some m else None)) =
    Done (match m with [] => None | _ => Some m end) l).
  { intros [|kv m] l; simpl; now rewrite app_nil_r. }
  apply Hm.
Qed.
End MergeEncodingFacts.

(** C4: in [mergeEncoding] every key of the child overrides the parent's
    identical key; the overridden keys are reported together in one warning
    (none when nothing is overridden); and an empty merge gives [undefined]
    instead of an empty mapping. *)
Theorem mergeEncoding_child_overrides_one_warning :
  forall parentEncoding encoding : option Encoding,
    wf (orEmpty encoding) ->
    let p := orEmpty parentEncoding in
    let e := orEmpty encoding in
    let dropped := filter (fun key => isSome (lookup key e)) (keys p) in
    exists merged,
      Normalize.mergeEncoding parentEncoding encoding =
        Done merged
             (match dropped with
              | [] => []
              | _ => [Warn (encodingOverridden dropped)]
              end)
      /\ (forall key,
            lookup key (orEmpty merged) =
            match lookup key e with
            | Some def => Some def
            | None => lookup key p
            end)
      /\ (p = [] /\ e = [] -> merged = None)
      /\ merged <> Some [].
Proof.
  intros parentEncoding encoding Hwf p e dropped.
  eexists. split; [apply mergeEncoding_run|]. fold p e.
  split; [|split].
  - intros key. rewrite <- (lookup_assign key p e Hwf).
    destruct (assign p e); reflexivity.
  - intros H. apply assign_nil in H. now rewrite H.
  - destruct (assign p e); discriminate.
Qed.

(** The merge of a parent [{x: A, y: B}] with a child [{x: C}]. *)
Lemma mergeEncoding_child_overrides_one_warning_witness :
  let parentEncoding :=
    Some [("x", Sample.fieldDef "A"); ("y", Sample.fieldDef "B")] in
  let encoding := Some [("x", Sample.fieldDef "C")] in
  wf (orEmpty encoding) /\
  exists merged,
    Normalize.mergeEncoding parentEncoding encoding =
      Done merged [Warn (encodingOverridden ["x"])]
    /\ (forall key,
          lookup key (orEmpty merged) =
          match lookup key (orEmpty encoding) with
          | Some def => Some def
          | None => lookup key (orEmpty parentEncoding)
          end)
    /\ (orEmpty parentEncoding = [] /\ orEmpty encoding = [] ->
        merged = None)
    /\ merged <> Some [].
Proof.
  assert (W : wf (orEmpty (Some [("x", Sample.fieldDef "C")]))).
  { unfold wf; simpl. constructor; [intros []|constructor]. }
  split; [exact W|].
  exact (mergeEncoding_child_overrides_one_warning
           (Some [("x", Sample.fieldDef "A"); ("y", Sample.fieldDef "B")])
           (Some [("x", Sample.fieldDef "C")]) W).
Defined.

(** ** [mapRepeat] *)

Lemma mapM_map {A A' B : Type} (g : A' -> M B) (f : A -> A') (xs : list A) :
  mapM g (List.map f xs) = mapM (fun x => g (f x)) xs.
Proof.
  induction xs as [|x xs IH]; [reflexivity|].
  cbn [List.map]. rewrite !mapM_cons, IH. reflexivity.
Qed.

Lemma crossProduct_length {A : Type} (rs ros cos : list A) :
  List.length (crossProduct rs ros cos) =
  (List.length rs * List.length ros * List.length cos)%nat.
Proof.
  unfold crossProduct.
  assert (Hin : forall r : A,
    List.length (flat_map (fun ro => List.map (fun co => (r, ro, co)) cos) ros)
    = (List.length ros * List.length cos)%nat).
  { intros r. induction ros as [|ro ros IH]; simpl; [reflexivity|].
    rewrite length_app, length_map, IH. reflexivity. }
  induction rs as [|r rs IH]; simpl; [reflexivity|].
  rewrite length_app, Hin, IH. lia.
Qed.

Section MapRepeatFacts.
Import Normalize.
Variable I : Imports.
Variable this : This.

Lemma nameToken_part prefix v :
  nameToken I prefix v = namePart (varName I) prefix v.
Proof.
  unfold nameToken, namePart, truthyStr.
  destruct v as [s|]; [|reflexivity]. now destruct (String.eqb s "").
Qed.

Lemma childName_parts r ro co : childName I r ro co = childNameOf I (r, ro, co).
Proof. unfold childName, childNameOf. now rewrite !nameToken_part. Qed.

Lemma repeatChild_expand childSpec params r ro co children :
  repeatChild I this childSpec params r ro co children =
  (y <- expandChild I this childSpec params (r, ro, co) ;;
   ret (children ++ [y])).
Proof.
  unfold repeatChild, expandChild. rewrite bind_assoc, childName_parts.
  apply bind_ext; intros child. now rewrite bind_ret_l.
Qed.

(** The three nested loops enumerate the cross product. *)
Lemma mapRepeat_loops childSpec params (rs ros cos : list (option string)) :
  foldM (fun children repeatValue =>
    foldM (fun children rowValue =>
      foldM (fun children columnValue =>
               repeatChild I this childSpec params
                           repeatValue rowValue columnValue children)
            cos children)
          ros children)
        rs [] =
  mapM (expandChild I this childSpec params) (crossProduct rs ros cos).
Proof.
  rewrite (foldM_flat (expandChild I this childSpec params)
             (fun r => flat_map
                         (fun ro => List.map (fun co => (r, ro, co)) cos)
                         ros)).
  - unfold crossProduct. rewrite <- bind_ret_r. apply bind_ext.
    reflexivity.
  - intros acc r.
    apply (foldM_flat (expandChild I this childSpec params)
             (fun ro => List.map (fun co => (r, ro, co)) cos)).
    intros acc' ro. rewrite mapM_map.
    apply (foldM_push
             (fun co => expandChild I this childSpec params (r, ro, co))).
    intros acc'' co. apply repeatChild_expand.
Qed.

Lemma mapRepeat_run c repeat childSpec params :
  mapRepeat I this c repeat childSpec params =
  (_ <- Done tt (columnsWarning (negb (isArray repeat)) c "repeat") ;;
   children <- mapM (expandChild I this childSpec params)
                    (bindings repeat (repeater params)) ;;
   ret (SConcat (repeatWrapper repeat c childSpec) children)).
Proof.
  unfold mapRepeat. rewrite mapRepeat_loops. fold (bindings repeat (repeater params)).
  unfold columnsWarning.
  assert (Hw : forall spec,
    spec = c \/ isArray repeat = false ->
    set_columns
      (set_data (omit_data_common c)
                (nullish (data c) (data (common_of childSpec))))
      (match repeat with
       | RepeatFlat _ => columns (layout spec)
       | RepeatRowCol _ (Some col) => Some (Z.of_nat (List.length col))
       | RepeatRowCol _ None => Some 1%Z
       end) = repeatWrapper repeat c childSpec).
  { intros spec Hs.
    unfold repeatWrapper, effectiveColumns, set_columns, set_data,
      omit_data_common, nullish.
    cbn [name data layout resolve rest align center spacing].
    destruct repeat as [values|row col];
      [destruct Hs as [->|Hs]; [|discriminate]|];
      destruct (data c) as [[]|]; reflexivity. }
  destruct (negb (isArray repeat) && truthyNum (columns (layout c))) eqn:E.
  - destruct repeat as [values|row col]; [discriminate|].
    rewrite bind_assoc. unfold warn, emit. cbn [bind]. rewrite bind_ret_l.
    rewrite (Hw (omit_columns c)) by (right; reflexivity). reflexivity.
  - rewrite bind_ret_l. rewrite (Hw c) by (left; reflexivity).
    cbn [bind ret app].
    destruct (mapM _ _) as [kids l|e]; reflexivity.
Qed.

(** When the template normalizes under every binding, the children are
    the renamed results, in the order of the bindings. *)
Lemma expandChild_Forall2 childSpec params ts normalized :
  Forall2 (fun t child =>
             exists l, this_map this childSpec
                         (with_repeater params (bindingOf t)) = Done child l)
          ts normalized ->
  exists l,
    mapM (expandChild I this childSpec params) ts =
    Done (List.map (fun p => finishChild I (fst p) (snd p))
                   (combine ts normalized)) l.
Proof.
  intros H. apply mapM_Forall2.
  induction H as [|t child ts normalized [l Ht] _ IH]; simpl;
    constructor; auto.
  exists l. unfold expandChild. rewrite Ht. simpl. now rewrite app_nil_r.
Qed.

Lemma finishChild_name t child :
  name (common_of (finishChild I t child)) = Some (childNameOf I t).
Proof. destruct child; reflexivity. Qed.

Lemma finishChild_data t child :
  data (common_of (finishChild I t child)) = None.
Proof. destruct child; reflexivity. Qed.
End MapRepeatFacts.

(** C3: [mapRepeat] produces one child per element of the cross product of
    the repeat, row and column values (repeat outermost, column innermost),
    each child being the template normalized under that binding; its name
    is made of a [__repeat_], a [__row_] and a [__column_] part, in this
    order, each being the prefix followed by the sanitized value, and
    missing when the value is [null]. *)
Theorem mapRepeat_cross_product :
  forall (I : Imports) (this : Normalize.This) (c : Common)
         (repeat : RepeatDef) (childSpec : Spec) (params : NormalizerParams)
         (normalized : list Spec),
    let rs := Normalize.repeatValues repeat (repeater params) in
    let ros := Normalize.rowValues repeat (repeater params) in
    let cos := Normalize.columnValues repeat (repeater params) in
    Forall2 (fun t child =>
               exists l, Normalize.this_map this childSpec
                           (with_repeater params (bindingOf t)) = Done child l)
            (crossProduct rs ros cos) normalized ->
    exists wrapper children log,
      Normalize.mapRepeat I this c repeat childSpec params =
        Done (SConcat wrapper children) log
      /\ children =
         List.map (fun p => omit_data
                              (set_name (snd p) (childNameOf I (fst p))))
                  (combine (crossProduct rs ros cos) normalized)
      /\ List.length children =
         (List.length rs * List.length ros * List.length cos)%nat
      /\ List.map (fun child => name (common_of child)) children =
         List.map
           (fun t =>
              Some (namePart (varName I) "__repeat_" (fst (fst t)) ++
                    namePart (varName I) "__row_" (snd (fst t)) ++
                    namePart (varName I) "__column_" (snd t))%string)
           (crossProduct rs ros cos)
      /\ (forall prefix,
            namePart (varName I) prefix None = ""
            /\ forall s, s <> "" ->
                 namePart (varName I) prefix (Some s)
                 = (prefix ++ varName I s)%string)
      /\ (forall values,
            repeat = RepeatFlat values ->
            rs = List.map Some values
            /\ ros = [inherited rv_row (repeater params)]
            /\ cos = [inherited rv_column (repeater params)])
      /\ (forall row column,
            repeat = RepeatRowCol row column ->
            rs = [inherited rv_repeat (repeater params)]
            /\ ros = match row with
                     | Some values => List.map Some values
                     | None => [inherited rv_row (repeater params)]
                     end
            /\ cos = match column with
                     | Some values => List.map Some values
                     | None => [inherited rv_column (repeater params)]
                     end).
Proof.
  intros I this c repeat childSpec params normalized rs ros cos H.
  destruct (expandChild_Forall2 I this childSpec params _ _ H) as [l Hl].
  pose proof (Forall2_length H) as Hlen.
  exists (repeatWrapper repeat c childSpec).
  eexists. eexists.
  split; [|split; [reflexivity|split; [|split; [|split; [|split]]]]];
    [ | | | |
      intros values ->; repeat split |
      intros row column ->; destruct row, column; repeat split ].
  - rewrite mapRepeat_run. unfold bindings. fold rs ros cos.
    rewrite Hl. reflexivity.
  - rewrite length_map, length_combine, <- Hlen, Nat.min_id.
    apply crossProduct_length.
  - rewrite map_map. clear Hl.
    induction H as [|t child ts ns _ _ IH]; [reflexivity|].
    cbn [combine List.map fst snd]. f_equal.
    + destruct child; reflexivity.
    + apply IH. now inversion Hlen.
  - intros prefix. split; [reflexivity|]. intros s Hs.
    unfold namePart. apply String.eqb_neq in Hs. now rewrite Hs.
Qed.

(** A repeat over the rows [r.1], [r 2] and the columns [1st], [c-2],
    values that are no identifiers as they are. *)
Lemma mapRepeat_cross_product_witness :
  let this := Normalize.CoreNormalizer Sample.imports 2 in
  let repeat := RepeatRowCol (Some ["r.1"; "r 2"]) (Some ["1st"; "c-2"]) in
  let childSpec :=
    SUnit (Sample.unit "point" [("x", Sample.repeatDef "row");
                                ("y", Sample.repeatDef "column")]) in
  let params := only_config Sample.cfg in
  let unitOf r co :=
    SUnit (Sample.unit "point" [("x", Sample.fieldDef r);
                                ("y", Sample.fieldDef co)]) in
  let normalized :=
    [unitOf "r.1" "1st"; unitOf "r.1" "c-2";
     unitOf "r 2" "1st"; unitOf "r 2" "c-2"] in
  let cross :=
    [(None, Some "r.1", Some "1st"); (None, Some "r.1", Some "c-2");
     (None, Some "r 2", Some "1st"); (None, Some "r 2", Some "c-2")] in
  crossProduct (Normalize.repeatValues repeat (repeater params))
               (Normalize.rowValues repeat (repeater params))
               (Normalize.columnValues repeat (repeater params)) = cross /\
  Forall2 (fun t child =>
             exists l, Normalize.this_map this childSpec
                         (with_repeater params (bindingOf t)) = Done child l)
          cross normalized /\
  exists wrapper children log,
    Normalize.mapRepeat Sample.imports this emptyCommon repeat childSpec params
      = Done (SConcat wrapper children) log
    /\ List.length children = 4%nat
    /\ List.map (fun child => name (common_of child)) children =
       [Some "__row_r_1__column__1st"; Some "__row_r_1__column_c_2";
        Some "__row_r_2__column__1st"; Some "__row_r_2__column_c_2"].
Proof.
  intros this repeat childSpec params unitOf normalized cross.
  assert (F : Forall2
    (fun t child =>
       exists l, Normalize.this_map this childSpec
                   (with_repeater params (bindingOf t)) = Done child l)
    cross normalized).
  { repeat (constructor; [apply value_Done; vm_compute; reflexivity|]).
    constructor. }
  split; [reflexivity|]. split; [exact F|].
  destruct (mapRepeat_cross_product Sample.imports this emptyCommon repeat
              childSpec params normalized F)
    as (wrapper & children & log & Hrun & _ & Hlen & Hnames & _ & _ & _).
  exists wrapper, children, log.
  split; [exact Hrun|]. split; [exact Hlen|exact Hnames].
Defined.

(** C1 (the code at the failing input): with data on the repeat wrapper and
    on the child template, the concatenation [mapRepeat] returns carries
    the wrapper's data, since [data ?? childSpec.data] asks the wrapper
    first. *)
Theorem mapRepeat_data_wrapper_first :
  option_map
    (fun s => data (common_of s))
    (value
       (Normalize.mapRepeat Sample.imports
          (Normalize.CoreNormalizer Sample.imports 2)
          (Sample.withData (JStr "wrapper"))
          (RepeatFlat ["a"; "b"])
          (SUnit (mkUnitSpec (Sample.withData (JStr "child")) (JStr "point")
                             (Some [("x", Sample.repeatDef "repeat")])
                             None None None None None))
          (only_config Sample.cfg)))
  = Some (Some (JStr "wrapper")).
Proof. vm_compute. reflexivity. Qed.

(** The data of the concatenation in general: the wrapper's own data when
    it declares some, the template's otherwise. *)
Lemma mapRepeat_data :
  forall (I : Imports) (this : Normalize.This) (c : Common)
         (repeat : RepeatDef) (childSpec : Spec) (params : NormalizerParams)
         (s : Spec) (log : list Event),
    Normalize.mapRepeat I this c repeat childSpec params = Done s log ->
    data (common_of s) =
    match data c with
    | None => data (common_of childSpec)
    | Some JNull => data (common_of childSpec)
    | Some d => Some d
    end.
Proof.
  intros I this c repeat childSpec params s log H.
  rewrite mapRepeat_run in H.
  apply bind_Done_inv in H as (u & l1 & l2 & _ & H & _).
  apply bind_Done_inv in H as (kids & l3 & l4 & _ & H & _).
  inversion H; subst. reflexivity.
Qed.

(** ** Explicit column counts: [mapFacet] and [mapRepeat] *)

Section ColumnsFacts.
Import Normalize.
Variable I : Imports.
Variable this : This.

Lemma mapFacet_run c facet inner params :
  mapFacet this c facet inner params =
  (_ <- Done tt (columnsWarning (isFacetMapping facet) c "facet") ;;
   inner' <- this_map this inner params ;;
   ret (SFacet (if isFacetMapping facet && truthyNum (columns (layout c))
                then omit_columns c else c)
               facet inner')).
Proof.
  unfold mapFacet, columnsWarning, SpecMapper_mapFacet.
  destruct (isFacetMapping facet && truthyNum (columns (layout c))).
  - rewrite bind_assoc. unfold warn, emit. cbn [bind].
    rewrite bind_ret_l. reflexivity.
  - rewrite bind_ret_l. cbn [bind app].
    destruct (this_map this inner params) as [s l|e]; reflexivity.
Qed.

Lemma mapRepeat_children c repeat childSpec params normalized :
  Forall2 (fun t child =>
             exists l, this_map this childSpec
                         (with_repeater params (bindingOf t)) = Done child l)
          (bindings repeat (repeater params)) normalized ->
  exists children log,
    mapM (expandChild I this childSpec params)
         (bindings repeat (repeater params)) = Done children log /\
    mapRepeat I this c repeat childSpec params =
    Done (SConcat (repeatWrapper repeat c childSpec) children)
         (columnsWarning (negb (isArray repeat)) c "repeat" ++ log).
Proof.
  intros H.
  destruct (expandChild_Forall2 I this childSpec params _ _ H) as [l Hl].
  eexists. exists l. split; [exact Hl|].
  rewrite mapRepeat_run, Hl. simpl. now rewrite app_nil_r.
Qed.
End ColumnsFacts.

(** C6, as the code has it: the guard is the truthiness of the declared
    column count.  A row/column facet logs the warning and loses the count
    exactly when it is non-zero, and keeps a count of 0 (and every other
    property) silently; a row/column repeat logs the warning exactly when
    the count is non-zero, and its concatenation gets as many columns as
    there are column values, or 1 when no column sequence is declared,
    whatever count was declared; a flat repeat keeps its column count and
    [mapRepeat] logs nothing of its own. *)
Theorem columns_dropped_for_row_column_forms :
  forall (I : Imports) (this : Normalize.This) (c : Common)
         (mapping : FacetMapping) (inner inner' : Spec) (l : list Event)
         (row col : option (list string)) (values : list string)
         (childSpec : Spec) (params : NormalizerParams)
         (normalizedRowCol normalizedFlat : list Spec),
    Normalize.this_map this inner params = Done inner' l ->
    Forall2 (fun t child =>
               exists l', Normalize.this_map this childSpec
                            (with_repeater params (bindingOf t))
                          = Done child l')
            (bindings (RepeatRowCol row col) (repeater params))
            normalizedRowCol ->
    Forall2 (fun t child =>
               exists l', Normalize.this_map this childSpec
                            (with_repeater params (bindingOf t))
                          = Done child l')
            (bindings (RepeatFlat values) (repeater params))
            normalizedFlat ->
    let declared := columns (layout c) in
    let nonZero :=
      match declared with Some n => negb (Z.eqb n 0) | None => false end in
    (exists c',
       Normalize.mapFacet this c (FacetMap mapping) inner params =
         Done (SFacet c' (FacetMap mapping) inner')
              ((if nonZero
                then [Warn (columnsNotSupportByRowCol "facet")] else [])
               ++ l)
       /\ columns (layout c') = (if nonZero then None else declared)
       /\ align (layout c') = align (layout c)
       /\ center (layout c') = center (layout c)
       /\ spacing (layout c') = spacing (layout c)
       /\ name c' = name c /\ data c' = data c
       /\ resolve c' = resolve c /\ rest c' = rest c)
    /\ (exists wrapper children log,
          Normalize.mapRepeat I this c (RepeatRowCol row col) childSpec params
          = Done (SConcat wrapper children)
                 ((if nonZero
                   then [Warn (columnsNotSupportByRowCol "repeat")] else [])
                  ++ log)
          /\ mapM (expandChild I this childSpec params)
                  (bindings (RepeatRowCol row col) (repeater params))
             = Done children log
          /\ columns (layout wrapper) =
             Some (match col with
                   | Some cs => Z.of_nat (List.length cs)
                   | None => 1%Z
                   end))
    /\ (exists wrapper children log,
          Normalize.mapRepeat I this c (RepeatFlat values) childSpec params
          = Done (SConcat wrapper children) log
          /\ mapM (expandChild I this childSpec params)
                  (bindings (RepeatFlat values) (repeater params))
             = Done children log
          /\ columns (layout wrapper) = declared).
Proof.
  intros I this c mapping inner inner' l row col values childSpec params
         nrc nflat Hinner Hrc Hflat declared nonZero.
  assert (Hnz : truthyNum (columns (layout c)) = nonZero) by reflexivity.
  split; [|split].
  - exists (if nonZero then omit_columns c else c). split.
    + rewrite mapFacet_run. unfold columnsWarning.
      cbn [Normalize.isFacetMapping andb].
      rewrite Hnz, Hinner. destruct nonZero; cbn [bind ret app];
        now rewrite app_nil_r.
    + destruct nonZero; repeat split.
  - destruct (mapRepeat_children I this c _ childSpec params _ Hrc)
      as (children & log & Hkids & Hrun).
    exists (repeatWrapper (RepeatRowCol row col) c childSpec), children, log.
    split; [|split; [exact Hkids|]].
    + rewrite Hrun. unfold columnsWarning. cbn [Normalize.isArray negb andb].
      now rewrite Hnz.
    + destruct col; reflexivity.
  - destruct (mapRepeat_children I this c _ childSpec params _ Hflat)
      as (children & log & Hkids & Hrun).
    exists (repeatWrapper (RepeatFlat values) c childSpec), children, log.
    split; [|split; [exact Hkids|reflexivity]].
    rewrite Hrun. reflexivity.
Qed.

(** A column count of 3 on a row facet, on a row/column repeat and on a flat
    repeat. *)
Lemma columns_dropped_for_row_column_forms_witness :
  let this := Normalize.CoreNormalizer Sample.imports 2 in
  let c := Sample.withColumns 3 in
  let mapping := mkFacetMapping (Some (Sample.fieldDef "a")) None in
  let inner := SUnit (Sample.unit "point" [("x", Sample.fieldDef "f")]) in
  let params := only_config Sample.cfg in
  let row := Some ["r1"] in
  let col := Some ["c1"; "c2"] in
  let values := ["a"; "b"] in
  (exists l, Normalize.this_map this inner params = Done inner l) /\
  Forall2 (fun t child =>
             exists l', Normalize.this_map this inner
                          (with_repeater params (bindingOf t)) = Done child l')
          (bindings (RepeatRowCol row col) (repeater params))
          [inner; inner] /\
  Forall2 (fun t child =>
             exists l', Normalize.this_map this inner
                          (with_repeater params (bindingOf t)) = Done child l')
          (bindings (RepeatFlat values) (repeater params))
          [inner; inner] /\
  (exists c' l,
     Normalize.mapFacet this c (FacetMap mapping) inner params
     = Done (SFacet c' (FacetMap mapping) inner)
            (Warn (columnsNotSupportByRowCol "facet") :: l)
     /\ columns (layout c') = None) /\
  (exists wrapper children log,
     Normalize.mapRepeat Sample.imports this c (RepeatRowCol row col) inner
                         params
     = Done (SConcat wrapper children)
            (Warn (columnsNotSupportByRowCol "repeat") :: log)
     /\ columns (layout wrapper) = Some 2%Z) /\
  (exists wrapper children log,
     Normalize.mapRepeat Sample.imports this c (RepeatFlat values) inner params
     = Done (SConcat wrapper children) log
     /\ columns (layout wrapper) = Some 3%Z).
Proof.
  intros this c mapping inner params row col values.
  assert (Hinner : exists l, Normalize.this_map this inner params = Done inner l)
    by (apply value_Done; vm_compute; reflexivity).
  assert (Hrc : Forall2
    (fun t child =>
       exists l', Normalize.this_map this inner
                    (with_repeater params (bindingOf t)) = Done child l')
    (bindings (RepeatRowCol row col) (repeater params)) [inner; inner]).
  { repeat (constructor; [apply value_Done; vm_compute; reflexivity|]).
    constructor. }
  assert (Hflat : Forall2
    (fun t child =>
       exists l', Normalize.this_map this inner
                    (with_repeater params (bindingOf t)) = Done child l')
    (bindings (RepeatFlat values) (repeater params)) [inner; inner]).
  { repeat (constructor; [apply value_Done; vm_compute; reflexivity|]).
    constructor. }
  split; [exact Hinner|].
  split; [exact Hrc|]. split; [exact Hflat|].
  destruct Hinner as [l Hl].
  destruct (columns_dropped_for_row_column_forms Sample.imports this c mapping
              inner inner l row col values inner params [inner; inner]
              [inner; inner] Hl Hrc Hflat)
    as ((c' & Hf & Hc' & _) & (w1 & k1 & l1 & Hr1 & _ & Hc1)
        & (w2 & k2 & l2 & Hr2 & _ & Hc2)).
  split; [|split].
  - exists c', l. split; assumption.
  - exists w1, k1, l1. split; assumption.
  - exists w2, k2, l2. split; assumption.
Defined.

(** C6 (counterexample): a row/column facet that declares the column count
    0 keeps it, and nothing is logged; a row/column repeat that declares
    the column count 0 logs nothing either, and its concatenation gets the
    number of column values as its column count. *)
Lemma zero_columns_are_not_warned_about :
  let unit := SUnit (Sample.unit "point" [("x", Sample.fieldDef "f")]) in
  let facet :=
    SFacet (Sample.withColumns 0)
           (FacetMap (mkFacetMapping (Some (Sample.fieldDef "a")) None))
           unit in
  let repeat :=
    SRepeat (Sample.withColumns 0)
            (RepeatRowCol (Some ["r1"]) (Some ["c1"; "c2"])) unit in
  value (Normalize.normalize Sample.imports 3 facet Sample.cfg) = Some facet
  /\ columns (layout (common_of facet)) = Some 0%Z
  /\ warnings (events (Normalize.normalize Sample.imports 3 facet Sample.cfg))
     = []
  /\ option_map (fun s => columns (layout (common_of s)))
                (value (Normalize.normalize Sample.imports 3 repeat Sample.cfg))
     = Some (Some 2%Z)
  /\ columns (layout (common_of repeat)) = Some 0%Z
  /\ warnings (events (Normalize.normalize Sample.imports 3 repeat Sample.cfg))
     = [].
Proof. vm_compute. repeat split. Qed.

(** ** Facet channels in a unit's encoding *)

Section FacetedUnitFacts.
Import Normalize.
Variable I : Imports.

Lemma getFacetMappingAndLayout_row_column row column facet params :
  isSome row || isSome column = true ->
  exists layout,
    getFacetMappingAndLayout I row column facet params =
    Done (FacetMap (mkFacetMapping (option_map withoutLayout row)
                                   (option_map withoutLayout column)),
          layout)
         (if isSome facet
          then [Warn (facetChannelDropped
                        ((if isSome row then [ROW] else []) ++
                         (if isSome column then [COLUMN] else [])))]
          else [])
    /\ columns layout = None.
Proof.
  intros H. unfold getFacetMappingAndLayout. rewrite H.
  destruct row as [r|], column as [co|]; try discriminate;
    destruct facet as [f|]; cbn; eexists; split; reflexivity.
Qed.
End FacetedUnitFacts.

(** C5: a unit whose encoding has a row or column channel together with a
    facet channel normalizes to a facet node whose facet definition is the
    mapping built from the row/column channels alone: each of them that is
    present enters it with its field and its other properties but without
    [align], [center], [spacing] and [columns]; the facet channel is
    dropped, and the warning about the dropped facet channel is logged
    first. *)
Theorem row_column_take_precedence_over_facet :
  forall (I : Imports) (this : Normalize.This) (u : UnitSpec)
         (params : NormalizerParams) (enc : Encoding) (facetDef : ChannelDef)
         (replaced : option Encoding) (l1 : list Event)
         (inner' : Spec) (l2 : list Event),
    u_encoding u = Some enc ->
    isSome (lookup ROW enc) || isSome (lookup COLUMN enc) = true ->
    lookup FACET enc = Some facetDef ->
    channelHasField I (Some enc) ROW || channelHasField I (Some enc) COLUMN
      || channelHasField I (Some enc) FACET = true ->
    replaceRepeaterInEncoding I (Some (omit enc [ROW; COLUMN; FACET]))
                              (repeater params) = Done replaced l1 ->
    Normalize.this_map this (SUnit (innerUnit u replaced)) params
      = Done inner' l2 ->
    let mapping :=
      mkFacetMapping
        (match lookup ROW enc with
         | Some def =>
             Some (mkChannelDef (cd_field def) None None None None
                                (cd_rest def))
         | None => None
         end)
        (match lookup COLUMN enc with
         | Some def =>
             Some (mkChannelDef (cd_field def) None None None None
                                (cd_rest def))
         | None => None
         end) in
    let dropped :=
      Warn (facetChannelDropped
              ((if isSome (lookup ROW enc) then ["row"] else []) ++
               (if isSome (lookup COLUMN enc) then ["column"] else []))) in
    Normalize.getFacetMappingAndLayout I (lookup ROW enc)
      (lookup COLUMN enc) (lookup FACET enc) params =
    Done (FacetMap mapping,
          rowColumnLayout (lookup ROW enc) (lookup COLUMN enc))
         [dropped]
    /\ (exists c',
          Normalize.map I this (SUnit u) params =
          Done (SFacet c' (FacetMap mapping) inner')
               (dropped :: l1 ++
                columnsWarning true (u_common u) "facet" ++ l2)
          /\ name c' = name (u_common u)
          /\ data c' = data (u_common u)).
Proof.
  intros I this u params enc facetDef replaced l1 inner' l2
         Henc Hrc Hfacet Hdispatch Hrepl Hinner mapping dropped.
  assert (Hfl :
    Normalize.getFacetMappingAndLayout I (lookup ROW enc)
      (lookup COLUMN enc) (lookup FACET enc) params =
    Done (FacetMap mapping,
          rowColumnLayout (lookup ROW enc) (lookup COLUMN enc))
         [dropped]).
  { unfold Normalize.getFacetMappingAndLayout. rewrite Hrc, Hfacet.
    subst mapping dropped.
    destruct (lookup ROW enc) as [[rf [ra|] [rc|] [rs|] rco rr]|],
             (lookup COLUMN enc) as [[cf [ca|] [cc|] [cs|] cco cr]|];
      try discriminate; reflexivity. }
  split; [exact Hfl|].
  set (c0 := mkCommon (name (u_common u)) (data (u_common u))
                      (Normalize.spreadLayout
                         (layout (u_common u))
                         (rowColumnLayout (lookup ROW enc)
                                          (lookup COLUMN enc)))
                      (resolve (u_common u)) (rest (u_common u))).
  exists (if truthyNum (columns (layout (u_common u)))
          then omit_columns c0 else c0).
  split; [|destruct (truthyNum _); split; reflexivity].
  unfold Normalize.map. rewrite Henc, Hdispatch.
  unfold Normalize.mapFacetedUnit. rewrite Henc, Hfl.
  cbn [bind fst snd]. rewrite Hrepl. cbn [bind].
  fold (innerUnit u replaced). fold c0.
  rewrite mapFacet_run, Hinner. unfold columnsWarning.
  cbn [Normalize.isFacetMapping andb].
  change (columns (layout c0)) with (columns (layout (u_common u))).
  destruct (truthyNum (columns (layout (u_common u))));
    cbn [bind ret app]; rewrite ?app_nil_r; reflexivity.
Qed.

(** A unit with a row channel that carries layout properties, a facet
    channel and an x channel. *)
Lemma row_column_take_precedence_over_facet_witness :
  let this := Normalize.CoreNormalizer Sample.imports 3 in
  let row :=
    mkChannelDef (Some (FieldName "a")) (Some AlignAll) (Some true)
                 (Some 5%Z) (Some 2%Z) [("sort", JStr "ascending")] in
  let enc := [("row", row); ("facet", Sample.fieldDef "b");
              ("x", Sample.fieldDef "c")] in
  let u := Sample.unit "point" enc in
  let params := only_config Sample.cfg in
  let inner := SUnit (Sample.unit "point" [("x", Sample.fieldDef "c")]) in
  let mapping :=
    mkFacetMapping
      (Some (mkChannelDef (Some (FieldName "a")) None None None None
                          [("sort", JStr "ascending")]))
      None in
  Normalize.getFacetMappingAndLayout Sample.imports (lookup ROW enc)
    (lookup COLUMN enc) (lookup FACET enc) params =
  Done (FacetMap mapping,
        mkLayout (Some (PerAxis (mkRowCol (Some AlignAll) None)))
                 (Some (PerAxis (mkRowCol (Some true) None)))
                 (Some (PerAxis (mkRowCol (Some 5%Z) None)))
                 None)
       [Warn (facetChannelDropped ["row"])]
  /\ (exists c' log,
        Normalize.map Sample.imports this (SUnit u) params =
        Done (SFacet c' (FacetMap mapping) inner)
             (Warn (facetChannelDropped ["row"]) :: log)).
Proof.
  intros this row enc u params inner mapping.
  destruct (value_Done
              (Normalize.this_map this
                 (SUnit (innerUnit u (Some [("x", Sample.fieldDef "c")])))
                 params)
              inner) as [l2 H2]; [vm_compute; reflexivity|].
  destruct (row_column_take_precedence_over_facet Sample.imports this u params
              enc (Sample.fieldDef "b") (Some [("x", Sample.fieldDef "c")]) []
              inner l2 eq_refl eq_refl eq_refl eq_refl eq_refl H2)
    as (Hfl & c' & Hmap & _).
  split; [exact Hfl|]. exists c'. eexists. exact Hmap.
Defined.

(** ** [mapUnit] and the chain of unit normalizers *)

Lemma mergeProjection_run (parentProjection projection : option Json) :
  Normalize.mergeProjection parentProjection projection =
  Done (match projection with
        | None => parentProjection
        | Some JNull => parentProjection
        | Some p => Some p
        end)
       (projectionWarning parentProjection projection).
Proof.
  unfold Normalize.mergeProjection, projectionWarning.
  destruct parentProjection as [pp|], projection as [p|]; try reflexivity.
  destruct (truthyJson (Some pp) && truthyJson (Some p));
    destruct p; reflexivity.
Qed.

Section MapUnitFacts.
Import Normalize.
Variable I : Imports.
Variable this : This.

Lemma with_encoding_same u : with_encoding u (u_encoding u) = u.
Proof. destruct u; reflexivity. Qed.

Lemma tryNormalizers_none chain spec params :
  noneMatches chain spec (config params) ->
  tryNormalizers this chain spec params =
  Done (SUnit spec) (asked chain spec).
Proof.
  induction 1 as [|[n un] chain Hn _ IH]; [reflexivity|].
  cbn [tryNormalizers]. cbn [snd] in Hn. rewrite Hn, IH. reflexivity.
Qed.

Lemma tryNormalizers_first earlier n un later spec params :
  noneMatches earlier spec (config params) ->
  hasMatchingType un spec (config params) = true ->
  tryNormalizers this (earlier ++ (n, un) :: later) spec params =
  (_ <- Done tt (asked earlier spec ++
                 [HasMatchingType n spec; Run n spec]) ;;
   run un spec params (this_mapLayerOrUnit this)).
Proof.
  intros Hnone Hmatch.
  induction Hnone as [|[n' un'] earlier Hn _ IH].
  - cbn [app tryNormalizers asked List.map]. rewrite Hmatch.
    unfold emit. cbn [bind].
    destruct (run un spec params (this_mapLayerOrUnit this)); reflexivity.
  - cbn [app tryNormalizers]. cbn [snd] in Hn. rewrite Hn, IH.
    unfold emit. cbn [bind asked List.map app fst].
    destruct (run un spec params (this_mapLayerOrUnit this)); reflexivity.
Qed.

Lemma mapUnit_without_parent spec params :
  parentEncoding params = None ->
  truthyJson (parentProjection params) = false ->
  mapUnit I this spec params =
  (replaced <- replaceRepeaterInEncoding I (u_encoding spec)
                                         (repeater params) ;;
   tryNormalizers this (nonFacetUnitNormalizers I)
                  (with_encoding spec replaced) params).
Proof. intros He Hp. unfold mapUnit. rewrite He, Hp. reflexivity. Qed.

Lemma mapUnitWithParent_run spec params :
  mapUnitWithParentEncodingOrProjection I this spec params =
  (mergedProjection <-
     mergeProjection (parentProjection params) (u_projection spec) ;;
   replaced <-
     replaceRepeaterInEncoding I (u_encoding spec) (repeater params) ;;
   mergedEncoding <- mergeEncoding (parentEncoding params) replaced ;;
   this_mapUnit this (mergedUnit spec mergedProjection mergedEncoding)
                (only_config (config params))).
Proof.
  unfold mapUnitWithParentEncodingOrProjection.
  apply bind_ext; intros mp. apply bind_ext; intros r.
  apply bind_ext; intros me. unfold mergedUnit.
  destruct spec, (truthyJson mp), me; reflexivity.
Qed.

(** The chain on a unit, whichever way it ends. *)
Lemma chain_outcome chain spec params (l : list Event) :
  (forall earlier n un later,
      chain = earlier ++ (n, un) :: later ->
      noneMatches earlier spec (config params) ->
      hasMatchingType un spec (config params) = true ->
      (_ <- Done tt l ;; tryNormalizers this chain spec params) =
      (_ <- Done tt (l ++ asked earlier spec ++
                     [HasMatchingType n spec; Run n spec]) ;;
       run un spec params (this_mapLayerOrUnit this)))
  /\ (noneMatches chain spec (config params) ->
      (_ <- Done tt l ;; tryNormalizers this chain spec params) =
      Done (SUnit spec) (l ++ asked chain spec)).
Proof.
  split.
  - intros earlier n un later -> Hnone Hmatch.
    rewrite (tryNormalizers_first earlier n un later spec params Hnone Hmatch).
    cbn [bind].
    destruct (run un spec params (this_mapLayerOrUnit this));
      [rewrite app_assoc|]; reflexivity.
  - intros Hnone. rewrite (tryNormalizers_none chain spec params Hnone).
    reflexivity.
Qed.
End MapUnitFacts.

(** C7: a unit that reaches the chain is offered to the normalizers in the
    order box plot, error bar, error band, path overlay, ranged line to
    rule, range step; the first one whose predicate holds produces the
    result and no later one is consulted; when none matches, the unit comes
    back with every property as it was, except that its encoding is the one
    the repeater substitution returned. *)
Theorem mapUnit_first_match_wins :
  forall (I : Imports) (this : Normalize.This) (spec : UnitSpec)
         (params : NormalizerParams) (replaced : option Encoding)
         (l0 : list Event),
    parentEncoding params = None ->
    truthyJson (parentProjection params) = false ->
    replaceRepeaterInEncoding I (u_encoding spec) (repeater params)
      = Done replaced l0 ->
    let chain := Normalize.nonFacetUnitNormalizers I in
    let offered :=
      mkUnitSpec (u_common spec) (u_mark spec) replaced (u_width spec)
                 (u_height spec) (u_view spec) (u_projection spec)
                 (u_selection spec) in
    chain =
      [(BoxPlot, boxPlotNormalizer I); (ErrorBar, errorBarNormalizer I);
       (ErrorBand, errorBandNormalizer I);
       (PathOverlay, pathOverlayNormalizer I);
       (RuleForRangedLine, ruleForRangedLineNormalizer I);
       (RangeStep, rangeStepNormalizer I)]
    /\ (forall earlier n unitNormalizer later,
          chain = earlier ++ (n, unitNormalizer) :: later ->
          noneMatches earlier offered (config params) ->
          hasMatchingType unitNormalizer offered (config params) = true ->
          Normalize.mapUnit I this spec params =
          (_ <- Done tt (l0 ++ asked earlier offered ++
                         [HasMatchingType n offered; Run n offered]) ;;
           run unitNormalizer offered params
               (Normalize.this_mapLayerOrUnit this)))
    /\ (noneMatches chain offered (config params) ->
        Normalize.mapUnit I this spec params =
        Done (SUnit offered) (l0 ++ asked chain offered)).
Proof.
  intros I this spec params replaced l0 He Hp Hrepl chain offered.
  split; [reflexivity|].
  assert (Hrun : Normalize.mapUnit I this spec params =
                 (_ <- Done tt l0 ;;
                  Normalize.tryNormalizers this chain offered params)).
  { rewrite mapUnit_without_parent by assumption.
    rewrite Hrepl, bind_Done. reflexivity. }
  rewrite Hrun. apply chain_outcome.
Qed.

(** An error-bar unit whose [x] channel refers to the repeated field, which
    the second normalizer takes once the field is substituted, and a point
    unit under a [null] parent projection, which none takes. *)
Lemma mapUnit_first_match_wins_witness :
  let I := Sample.imports in
  let this := Normalize.CoreNormalizer I 3 in
  let binding := Some (mkRepeaterValue (Some "a") None None) in
  let params := mkParams Sample.cfg None (Some JNull) binding in
  let bar := Sample.unit "errorbar" [("x", Sample.repeatDef "repeat")] in
  let barA := Sample.unit "errorbar" [("x", Sample.fieldDef "a")] in
  let point := Sample.unit "point" [("y", Sample.repeatDef "repeat")] in
  let pointA := Sample.unit "point" [("y", Sample.fieldDef "a")] in
  (parentEncoding params = None /\
   truthyJson (parentProjection params) = false) /\
  replaceRepeaterInEncoding I (u_encoding bar) (repeater params)
    = Done (u_encoding barA) [] /\
  hasMatchingType (boxPlotNormalizer I) barA (config params) = false /\
  hasMatchingType (errorBarNormalizer I) barA (config params) = true /\
  noneMatches (Normalize.nonFacetUnitNormalizers I) pointA (config params) /\
  Normalize.mapUnit I this bar params =
    (_ <- Done tt [HasMatchingType BoxPlot barA; HasMatchingType ErrorBar barA;
                   Run ErrorBar barA] ;;
     run (errorBarNormalizer I) barA params
         (Normalize.this_mapLayerOrUnit this)) /\
  Normalize.mapUnit I this point params =
    Done (SUnit pointA)
         [HasMatchingType BoxPlot pointA; HasMatchingType ErrorBar pointA;
          HasMatchingType ErrorBand pointA; HasMatchingType PathOverlay pointA;
          HasMatchingType RuleForRangedLine pointA;
          HasMatchingType RangeStep pointA].
Proof.
  intros I this binding params bar barA point pointA.
  assert (Hnone : noneMatches (Normalize.nonFacetUnitNormalizers I) pointA
                              (config params))
    by (repeat constructor).
  assert (Hbox : noneMatches [(BoxPlot, boxPlotNormalizer I)] barA
                             (config params))
    by (repeat constructor).
  split; [split; reflexivity|].
  do 3 (split; [reflexivity|]). split; [exact Hnone|]. split.
  - exact (proj1 (proj2 (mapUnit_first_match_wins I this bar params
                           (u_encoding barA) [] eq_refl eq_refl eq_refl))
             [(BoxPlot, boxPlotNormalizer I)] ErrorBar (errorBarNormalizer I)
             _ eq_refl Hbox eq_refl).
  - exact (proj2 (proj2 (mapUnit_first_match_wins I this point params
                           (u_encoding pointA) [] eq_refl eq_refl eq_refl))
             Hnone).
Defined.

(** C2, as the code has it: with a parent encoding or a truthy parent
    projection in the context, [mapUnit] merges them into the unit and hands
    the merged unit back to [mapUnit] under a context that holds the
    configuration only; there, after one more repeater substitution (with
    no binding), the normalizers of the chain are asked about the merged
    unit in their order: the first that matches expands it, and when none
    matches the merged unit is the result. *)
Theorem mapUnit_with_parent_merges_then_runs_chain :
  forall (I : Imports) (fuel : nat) (spec : UnitSpec)
         (params : NormalizerParams)
         (replaced replacedAgain final : option Encoding)
         (l0 l1 l2 : list Event),
    isSome (parentEncoding params) || truthyJson (parentProjection params)
      = true ->
    replaceRepeaterInEncoding I (u_encoding spec) (repeater params)
      = Done replaced l0 ->
    replaceRepeaterInEncoding I replaced (repeater params)
      = Done replacedAgain l1 ->
    let inheritedEncoding := orEmpty (parentEncoding params) in
    let own := orEmpty replacedAgain in
    let dropped :=
      filter (fun key => isSome (lookup key own)) (keys inheritedEncoding) in
    let mergedProjection :=
      match u_projection spec with
      | None => parentProjection params
      | Some JNull => parentProjection params
      | Some projection => Some projection
      end in
    let merged :=
      mkUnitSpec (u_common spec) (u_mark spec)
                 (match assign inheritedEncoding own with
                  | [] => replaced
                  | mergedEncoding => Some mergedEncoding
                  end)
                 (u_width spec) (u_height spec) (u_view spec)
                 (if truthyJson mergedProjection then mergedProjection
                  else u_projection spec)
                 (u_selection spec) in
    replaceRepeaterInEncoding I (u_encoding merged) None = Done final l2 ->
    let offered :=
      mkUnitSpec (u_common spec) (u_mark spec) final (u_width spec)
                 (u_height spec) (u_view spec) (u_projection merged)
                 (u_selection spec) in
    let merging :=
      l0 ++ projectionWarning (parentProjection params) (u_projection spec)
         ++ l1
         ++ match dropped with
            | [] => []
            | _ => [Warn (encodingOverridden dropped)]
            end
         ++ l2 in
    let chain := Normalize.nonFacetUnitNormalizers I in
    let context := mkParams (config params) None None None in
    (forall earlier n unitNormalizer later,
        chain = earlier ++ (n, unitNormalizer) :: later ->
        noneMatches earlier offered (config params) ->
        hasMatchingType unitNormalizer offered (config params) = true ->
        Normalize.mapUnit I (Normalize.CoreNormalizer I (S fuel)) spec params =
        (_ <- Done tt (merging ++ asked earlier offered ++
                       [HasMatchingType n offered; Run n offered]) ;;
         run unitNormalizer offered context
             (Normalize.this_mapLayerOrUnit (Normalize.CoreNormalizer I fuel))))
    /\ (noneMatches chain offered (config params) ->
        Normalize.mapUnit I (Normalize.CoreNormalizer I (S fuel)) spec params =
        Done (SUnit offered) (merging ++ asked chain offered)).
Proof.
  intros I fuel spec params replaced replacedAgain final l0 l1 l2
         Hparent Hr0 Hr1 pe own dropped mergedProjection merged Hr2
         offered merging chain context.
  assert (Hrun :
    Normalize.mapUnit I (Normalize.CoreNormalizer I (S fuel)) spec params =
    (_ <- Done tt merging ;;
     Normalize.tryNormalizers (Normalize.CoreNormalizer I fuel) chain offered
                              context)).
  { unfold Normalize.mapUnit at 1. rewrite Hparent, Hr0. cbn [bind].
    rewrite mapUnitWithParent_run.
    cbn [u_projection u_encoding Normalize.with_encoding].
    rewrite mergeProjection_run. cbn [bind]. rewrite Hr1. cbn [bind].
    rewrite mergeEncoding_run. cbv zeta. fold pe own dropped. cbn [bind].
    cbn [Normalize.CoreNormalizer Normalize.this_mapUnit].
    assert (Hm : forall mp me,
      mp = mergedProjection ->
      me = match assign pe own with
           | [] => None
           | _ => Some (assign pe own)
           end ->
      mergedUnit (Normalize.with_encoding spec replaced) mp me = merged).
    { intros mp me -> ->. unfold mergedUnit, merged.
      cbn [Normalize.with_encoding u_common u_mark u_encoding u_width
           u_height u_view u_projection u_selection].
      destruct (assign pe own); reflexivity. }
    match goal with
    | |- context [mergedUnit ?u ?mp ?me] =>
        rewrite (Hm mp me eq_refl eq_refl)
    end.
    rewrite mapUnit_without_parent by reflexivity.
    cbn [repeater only_config]. rewrite Hr2. cbn [bind].
    change (Normalize.with_encoding merged final) with offered.
    change (only_config (config params)) with context.
    fold chain.
    destruct (Normalize.tryNormalizers _ chain offered context)
      as [s l|e]; [|reflexivity].
    unfold merging. now rewrite <- !app_assoc. }
  rewrite Hrun.
  exact (chain_outcome (Normalize.CoreNormalizer I fuel) chain offered
                       context merging).
Qed.

(** A box-plot unit whose [x] channel refers to the repeated field, under a
    parent encoding that defines [y]. *)
Lemma mapUnit_with_parent_merges_then_runs_chain_witness :
  let I := Sample.imports in
  let spec := Sample.unit "boxplot" [("x", Sample.repeatDef "repeat")] in
  let params :=
    mkParams Sample.cfg (Some [("y", Sample.fieldDef "b")]) None
             (Some (mkRepeaterValue (Some "a") None None)) in
  let substituted := Some [("x", Sample.fieldDef "a")] in
  let merged :=
    Sample.unit "boxplot" [("y", Sample.fieldDef "b");
                           ("x", Sample.fieldDef "a")] in
  isSome (parentEncoding params) || truthyJson (parentProjection params)
    = true /\
  replaceRepeaterInEncoding I (u_encoding spec) (repeater params)
    = Done substituted [] /\
  hasMatchingType (boxPlotNormalizer I) merged Sample.cfg = true /\
  Normalize.mapUnit I (Normalize.CoreNormalizer I 3) spec params =
  (_ <- Done tt [HasMatchingType BoxPlot merged; Run BoxPlot merged] ;;
   run (boxPlotNormalizer I) merged (mkParams Sample.cfg None None None)
       (Normalize.this_mapLayerOrUnit (Normalize.CoreNormalizer I 2))).
Proof.
  intros I spec params substituted merged.
  split; [reflexivity|]. split; [reflexivity|]. split; [reflexivity|].
  exact (proj1 (mapUnit_with_parent_merges_then_runs_chain I 2 spec params
                  substituted substituted (u_encoding merged) [] [] []
                  eq_refl eq_refl eq_refl eq_refl)
           [] BoxPlot (boxPlotNormalizer I) _ eq_refl (Forall_nil _) eq_refl).
Defined.

(** C2 (counterexample): a box-plot unit normalized under a parent encoding
    does not come back as the merged unit; the chain is consulted on the
    merged unit and the box-plot normalizer expands it. *)
Lemma mapUnit_with_parent_still_runs_chain :
  let I := Sample.imports in
  let spec := Sample.unit "boxplot" [("x", Sample.fieldDef "a")] in
  let params :=
    mkParams Sample.cfg (Some [("y", Sample.fieldDef "b")]) None None in
  let merged :=
    Sample.unit "boxplot" [("y", Sample.fieldDef "b");
                           ("x", Sample.fieldDef "a")] in
  let result :=
    Normalize.mapUnit I (Normalize.CoreNormalizer I 4) spec params in
  value result =
    Some (SLayer emptyCommon None None
            [SUnit (Sample.unit "rule" [("y", Sample.fieldDef "b");
                                        ("x", Sample.fieldDef "a")]);
             SUnit (Sample.unit "bar" [("y", Sample.fieldDef "b");
                                       ("x", Sample.fieldDef "a")]);
             SUnit (Sample.unit "tick" [("y", Sample.fieldDef "b");
                                        ("x", Sample.fieldDef "a")])])
  /\ value result <> Some (SUnit merged)
  /\ firstn 2 (events result) =
     [HasMatchingType BoxPlot merged; Run BoxPlot merged].
Proof.
  vm_compute. repeat split. discriminate.
Qed.

(** ** Normalizing a second time *)

Lemma allOf_In {A : Type} (P : A -> Prop) (l : list A) :
  allOf P l <-> (forall x, In x l -> P x).
Proof.
  unfold allOf. induction l as [|y l IH]; simpl.
  - split; [intros _ x []|trivial].
  - rewrite IH. split.
    + intros [Hy Hl] x [<-|Hx]; auto.
    + intros H. split; [apply H; now left|intros x Hx; apply H; now right].
Qed.

Lemma depth_child (x : Spec) (l : list Spec) :
  In x l -> depth x <= list_max (List.map depth l).
Proof.
  intros Hin.
  assert (H : Forall (fun k => k <= list_max (List.map depth l))
                     (List.map depth l))
    by (apply list_max_le; reflexivity).
  rewrite Forall_forall in H. apply H. now apply in_map.
Qed.

Lemma mapM_fixed {A : Type} (f : A -> M A) (l : list A) :
  (forall x, In x l -> exists log, f x = Done x log) ->
  exists log, mapM f l = Done l log.
Proof.
  induction l as [|x l IH]; intros H.
  - now exists [].
  - destruct (H x (or_introl eq_refl)) as [l1 H1].
    destruct IH as [l2 H2]; [intros y Hy; apply H; now right|].
    rewrite mapM_cons, H1, H2. simpl. eexists; reflexivity.
Qed.

(** Every result of a traversal is the result of its function on an
    element. *)
Lemma mapM_results {A B : Type} (f : A -> M B) (xs : list A) :
  forall ys l,
    mapM f xs = Done ys l ->
    forall y, In y ys -> exists x l', In x xs /\ f x = Done y l'.
Proof.
  induction xs as [|x xs IH]; intros ys l H y Hy.
  - inversion H; subst. destruct Hy.
  - rewrite mapM_cons in H.
    apply bind_Done_inv in H as (y0 & l1 & l2 & Hx & H & _).
    apply bind_Done_inv in H as (ys' & l3 & l4 & Hxs & H & _).
    inversion H; subst. destruct Hy as [<-|Hy].
    + exists x, l1. split; [now left|assumption].
    + destruct (IH _ _ Hxs y Hy) as (x' & l' & Hin & Hf).
      exists x', l'. split; [now right|assumption].
Qed.

Lemma settled_weaken (I : Imports) (cfg : Config) (s : Spec) :
  settled I cfg true s -> settled I cfg false s.
Proof.
  destruct s; cbn [settled]; try exact (fun H => H).
  intros (_ & H). split; [discriminate|exact H].
Qed.

Lemma settled_noRepeat (I : Imports) (cfg : Config) :
  forall s dispatched, settled I cfg dispatched s -> noRepeat s.
Proof.
  fix IH 1. intros [u|c e p l|c f inner|c r inner|c l|c l|c l] dispatched;
    cbn [settled noRepeat]; intros H.
  - exact Logic.I.
  - destruct H as (_ & _ & H). revert H.
    induction l as [|x l IHl]; cbn [allOf fold_right]; [trivial|].
    intros [[_ Hx] Hl]. split; [exact (IH x false Hx)|exact (IHl Hl)].
  - exact (IH inner true (proj2 H)).
  - exact H.
  - revert H. induction l as [|x l IHl]; cbn [allOf fold_right]; [trivial|].
    intros [Hx Hl]. split; [exact (IH x true Hx)|exact (IHl Hl)].
  - revert H. induction l as [|x l IHl]; cbn [allOf fold_right]; [trivial|].
    intros [Hx Hl]. split; [exact (IH x true Hx)|exact (IHl Hl)].
  - revert H. induction l as [|x l IHl]; cbn [allOf fold_right]; [trivial|].
    intros [Hx Hl]. split; [exact (IH x true Hx)|exact (IHl Hl)].
Qed.

Lemma settled_facetsPromoted (I : Imports) (cfg : Config) :
  forall s, settled I cfg true s -> facetsPromoted I s.
Proof.
  fix IH 1. intros [u|c e p l|c f inner|c r inner|c l|c l|c l];
    cbn [settled facetsPromoted]; intros H.
  - exact (proj1 H eq_refl).
  - exact Logic.I.
  - exact (IH inner (proj2 H)).
  - destruct H.
  - revert H. induction l as [|x l IHl]; cbn [allOf fold_right]; [trivial|].
    intros [Hx Hl]. split; [exact (IH x Hx)|exact (IHl Hl)].
  - revert H. induction l as [|x l IHl]; cbn [allOf fold_right]; [trivial|].
    intros [Hx Hl]. split; [exact (IH x Hx)|exact (IHl Hl)].
  - revert H. induction l as [|x l IHl]; cbn [allOf fold_right]; [trivial|].
    intros [Hx Hl]. split; [exact (IH x Hx)|exact (IHl Hl)].
Qed.

Section FixedPointFacts.
Import Normalize.
Variable I : Imports.
Variable cfg : Config.

Lemma mapUnit_settled this u dispatched :
  settled I cfg dispatched (SUnit u) ->
  exists log, mapUnit I this u (only_config cfg) = Done (SUnit u) log.
Proof.
  intros (_ & [l Hrepl] & Hnone).
  rewrite mapUnit_without_parent by reflexivity.
  cbn [repeater only_config]. rewrite Hrepl, bind_Done.
  rewrite with_encoding_same.
  rewrite (tryNormalizers_none this _ u (only_config cfg) Hnone).
  eexists; reflexivity.
Qed.

Lemma mapLayer_fixed this c l :
  (forall x, In x l ->
     exists log, this_mapLayerOrUnit this x (only_config cfg) = Done x log) ->
  exists log,
    mapLayer this c None None l (only_config cfg) =
    Done (SLayer c None None l) log.
Proof.
  intros H. unfold mapLayer, SpecMapper_mapLayer.
  cbn [parentEncoding parentProjection only_config config repeater].
  change (mergeEncoding None None) with (@ret (option Encoding) None).
  change (mergeProjection None None) with (@ret (option Json) None).
  rewrite !bind_ret_l.
  destruct (mapM_fixed (fun x => this_mapLayerOrUnit this x (only_config cfg))
                       l H) as [log Hlog].
  unfold only_config in Hlog. rewrite Hlog. eexists; reflexivity.
Qed.

(** A settled tree is a fixed point of the normalizer, given a recursion
    bound above its depth. *)
Lemma settled_fixed_point fuel :
  forall spec,
    depth spec < fuel ->
    (settled I cfg true spec ->
     exists log,
       this_map (CoreNormalizer I fuel) spec (only_config cfg)
       = Done spec log)
    /\ (isUnitOrLayer spec = true -> settled I cfg false spec ->
        exists log,
          this_mapLayerOrUnit (CoreNormalizer I fuel) spec (only_config cfg)
          = Done spec log).
Proof.
  induction fuel as [|n IH]; intros spec Hd; [lia|].
  cbn [CoreNormalizer this_map this_mapLayerOrUnit].
  assert (Hkids : forall l,
    list_max (List.map depth l) < n ->
    allOf (settled I cfg true) l ->
    exists log,
      mapM (fun subspec =>
              this_map (CoreNormalizer I n) subspec (only_config cfg)) l
      = Done l log).
  { intros l Hl Hsl. apply mapM_fixed. intros x Hx.
    apply IH.
    - pose proof (depth_child x l Hx). lia.
    - now apply (proj1 (allOf_In _ l) Hsl). }
  destruct spec as [u|c e p l|c f inner|c r inner|c l|c l|c l];
    cbn [depth] in Hd; cbn [settled].
  - (* unit *)
    split.
    + intros Hs. pose proof Hs as (Hno & _).
      destruct (Hno eq_refl) as (Hr & Hco & Hf).
      cbn [map SpecMapper_map mapLayerOrUnit].
      rewrite Hr, Hco, Hf. cbn [orb]. now apply (mapUnit_settled _ u true).
    + intros _ Hs. cbn [mapLayerOrUnit].
      now apply (mapUnit_settled _ u false).
  - (* layer *)
    assert (Hl :
      e = None /\ p = None /\
      allOf (fun x => isUnitOrLayer x = true /\ settled I cfg false x) l ->
      exists log,
        mapLayer (CoreNormalizer I n) c e p l (only_config cfg)
        = Done (SLayer c e p l) log).
    { intros (-> & -> & Hsl). apply mapLayer_fixed. intros x Hx.
      apply (proj1 (allOf_In _ l) Hsl) in Hx as Hcx.
      destruct Hcx as [Hul Hsx].
      apply IH; auto. pose proof (depth_child x l Hx). lia. }
    split; [|intros _]; exact Hl.
  - (* facet *)
    split; [|discriminate]. intros [Hcols Hsi].
    cbn [map SpecMapper_map]. rewrite mapFacet_run.
    unfold columnsWarning. rewrite Hcols.
    destruct (proj1 (IH inner ltac:(lia)) Hsi) as [log Hlog].
    rewrite Hlog. eexists; reflexivity.
  - split; [intros []|discriminate].
  - split; [|discriminate]. intros Hs.
    cbn [map SpecMapper_map]. unfold SpecMapper_mapConcat.
    destruct (Hkids l) as [log Hlog]; [lia|assumption|].
    rewrite Hlog. eexists; reflexivity.
  - split; [|discriminate]. intros Hs.
    cbn [map SpecMapper_map]. unfold SpecMapper_mapHConcat.
    destruct (Hkids l) as [log Hlog]; [lia|assumption|].
    rewrite Hlog. eexists; reflexivity.
  - split; [|discriminate]. intros Hs.
    cbn [map SpecMapper_map]. unfold SpecMapper_mapVConcat.
    destruct (Hkids l) as [log Hlog]; [lia|assumption|].
    rewrite Hlog. eexists; reflexivity.
Qed.
End FixedPointFacts.

(** What the methods of [CoreNormalizer] return is settled, when the
    collaborators settle. *)
Section SettlingFacts.
Import Normalize.
Variable I : Imports.
Hypothesis HI : collaboratorsSettle I.

(** How the loop over the chain can end. *)
Lemma tryNormalizers_inv this chain spec params t :
  forall l,
    tryNormalizers this chain spec params = Done t l ->
    (noneMatches chain spec (config params) /\ t = SUnit spec)
    \/ (exists entry l',
          In entry chain
          /\ hasMatchingType (snd entry) spec (config params) = true
          /\ run (snd entry) spec params (this_mapLayerOrUnit this)
             = Done t l').
Proof.
  induction chain as [|[n un] chain IH]; intros l H.
  - inversion H. left. split; [constructor|reflexivity].
  - cbn [tryNormalizers] in H.
    apply bind_Done_inv in H as (x & l1 & l2 & _ & H & _).
    destruct (hasMatchingType un spec (config params)) eqn:E.
    + apply bind_Done_inv in H as (y & l3 & l4 & _ & H & _).
      right. exists (n, un), l4. split; [now left|]. split; assumption.
    + apply IH in H as [[Hn ->]|(entry & l' & Hin & Hm & Hr)].
      * left. split; [constructor; assumption|reflexivity].
      * right. exists entry, l'. split; [now right|]. split; assumption.
Qed.

Lemma settled_finishChild cfg t child :
  settled I cfg true child -> settled I cfg true (finishChild I t child).
Proof.
  unfold finishChild, omit_data, set_name.
  destruct child as [u|c e p l|c f inner|c r inner|c l|c l|c l];
    cbn [with_common common_of settled omit_data_common name data layout
         resolve rest u_common u_encoding noFacetChannel];
    try exact (fun H => H).
  intros (Hno & Hrepl & Hnone). split; [exact Hno|]. split; [exact Hrepl|].
  unfold noneMatches in *. rewrite Forall_forall in *. intros entry Hin.
  rewrite <- (Hnone entry Hin).
  exact (match_ignores_name_and_data I HI entry u _ _ cfg Hin).
Qed.

Section Methods.
Variable this : This.
Hypothesis Hthis : thisSettles I this.

Lemma mapUnit_settles_spec u params t l :
  mapUnit I this u params = Done t l ->
  isUnitOrLayer t = true
  /\ settled I (config params) false t
  /\ (noParent params -> noFacetChannel I (SUnit u) ->
      settled I (config params) true t).
Proof.
  intros H. unfold mapUnit in H.
  apply bind_Done_inv in H as (replaced & l0 & l1 & Hr & H & _).
  assert (Hfield : noFacetChannel I (SUnit u) ->
                   noFacetChannel I (SUnit (with_encoding u replaced))).
  { cbn [noFacetChannel with_encoding u_encoding].
    intros (Hrow & Hcol & Hfac).
    repeat split;
      eapply (substitution_adds_no_field I HI); eassumption. }
  destruct (isSome (parentEncoding params)
            || truthyJson (parentProjection params)) eqn:G.
  - rewrite mapUnitWithParent_run in H.
    apply bind_Done_inv in H as (mp & l2 & l3 & _ & H & _).
    apply bind_Done_inv in H as (r2 & l4 & l5 & _ & H & _).
    apply bind_Done_inv in H as (me & l6 & l7 & _ & H & _).
    destruct (mapUnit_settles I this Hthis (SUnit _) _ t _ H)
      as (Hu & Hs & _).
    cbn [config only_config] in Hs.
    split; [exact Hu|]. split; [exact Hs|].
    intros [Hpe Hpp]. rewrite Hpe, Hpp in G. discriminate.
  - apply tryNormalizers_inv in H
      as [[Hnone ->]|(entry & l' & Hin & Hm & Hrun)].
    + assert (Hsub : exists l',
        replaceRepeaterInEncoding I (u_encoding (with_encoding u replaced))
                                  None
        = Done (u_encoding (with_encoding u replaced)) l').
      { cbn [with_encoding u_encoding].
        exact (substitution_settles I HI _ _ _ _ Hr). }
      split; [reflexivity|]. split.
      * cbn [settled]. split; [discriminate|]. split; assumption.
      * intros _ Hno. cbn [settled].
        split; [intros _; now apply Hfield|]. split; assumption.
    + destruct (expansion_settles I HI entry _ Hin
                  (mapLayerOrUnit_settles I this Hthis)
                  (with_encoding u replaced) params t l' Hm Hrun)
        as (Hu & Hs & Htop).
      split; [exact Hu|]. split; [exact Hs|].
      intros Hp Hno. apply Htop; [exact Hp|now apply Hfield].
Qed.

Lemma mapLayer_settles_spec c e p layer params t l dispatched :
  mapLayer this c e p layer params = Done t l ->
  isUnitOrLayer t = true /\ settled I (config params) dispatched t.
Proof.
  intros H. unfold mapLayer in H.
  apply bind_Done_inv in H as (me & l0 & l1 & _ & H & _).
  apply bind_Done_inv in H as (mp & l2 & l3 & _ & H & _).
  unfold SpecMapper_mapLayer in H.
  apply bind_Done_inv in H as (subspecs & l4 & l5 & Hkids & H & _).
  inversion H; subst. split; [reflexivity|].
  cbn [settled]. split; [reflexivity|]. split; [reflexivity|].
  apply allOf_In. intros y Hy.
  destruct (mapM_results _ _ _ _ Hkids y Hy) as (x & l' & _ & Hx).
  destruct (mapLayerOrUnit_settles I this Hthis _ _ _ _ Hx) as (Hu & Hs & _).
  cbn [config] in Hs. split; assumption.
Qed.

Lemma mapLayerOrUnit_settles_spec : settles I (mapLayerOrUnit I this).
Proof.
  intros s params t l H.
  destruct s as [u|c e p layer|c f inner|c r inner|c k|c k|c k];
    cbn [mapLayerOrUnit] in H; try discriminate.
  - exact (mapUnit_settles_spec u params t l H).
  - destruct (mapLayer_settles_spec _ _ _ _ _ _ _ false H) as [Hu Hs].
    destruct (mapLayer_settles_spec _ _ _ _ _ _ _ true H) as [_ Hs'].
    split; [exact Hu|]. split; [exact Hs|]. intros _ _. exact Hs'.
Qed.

Lemma mapFacet_settles_spec c f inner params t l :
  noParent params ->
  mapFacet this c f inner params = Done t l ->
  settled I (config params) true t.
Proof.
  intros Hp H. rewrite mapFacet_run in H.
  apply bind_Done_inv in H as (x & l0 & l1 & _ & H & _).
  apply bind_Done_inv in H as (inner' & l2 & l3 & Hin & H & _).
  inversion H; subst. cbn [settled]. split.
  - destruct (isFacetMapping f && truthyNum (columns (layout c))) eqn:E;
      [|exact E].
    cbn [omit_columns set_columns layout columns truthyNum].
    apply andb_false_r.
  - exact (map_settles I this Hthis _ _ _ _ Hp Hin).
Qed.

Lemma mapFacetedUnit_settles_spec u params t l :
  noParent params ->
  mapFacetedUnit I this u params = Done t l ->
  settled I (config params) true t.
Proof.
  intros Hp H. unfold mapFacetedUnit in H.
  destruct (u_encoding u) as [enc|]; [|discriminate].
  apply bind_Done_inv in H as (fl & l0 & l1 & _ & H & _).
  apply bind_Done_inv in H as (replaced & l2 & l3 & _ & H & _).
  exact (mapFacet_settles_spec _ _ _ _ _ _ Hp H).
Qed.

Lemma mapRepeat_settles_spec c repeat childSpec params t l :
  noParent params ->
  mapRepeat I this c repeat childSpec params = Done t l ->
  settled I (config params) true t.
Proof.
  intros Hp H. rewrite mapRepeat_run in H.
  apply bind_Done_inv in H as (x & l0 & l1 & _ & H & _).
  apply bind_Done_inv in H as (children & l2 & l3 & Hkids & H & _).
  inversion H; subst. cbn [settled].
  apply allOf_In. intros y Hy.
  destruct (mapM_results _ _ _ _ Hkids y Hy) as (b & l' & _ & Hb).
  unfold expandChild in Hb.
  apply bind_Done_inv in Hb as (child & l4 & l5 & Hchild & Hb & _).
  inversion Hb; subst. apply settled_finishChild.
  exact (map_settles I this Hthis childSpec
                     (with_repeater params (bindingOf b)) child l4 Hp Hchild).
Qed.

Lemma members_settle (members : list Spec) params subspecs l :
  noParent params ->
  mapM (fun subspec => this_map this subspec params) members
    = Done subspecs l ->
  allOf (settled I (config params) true) subspecs.
Proof.
  intros Hp H. apply allOf_In. intros y Hy.
  destruct (mapM_results _ _ _ _ H y Hy) as (x & l' & _ & Hx).
  exact (map_settles I this Hthis _ _ _ _ Hp Hx).
Qed.

Lemma SpecMapper_map_settles_spec s params t l :
  noParent params -> noFacetChannel I s ->
  SpecMapper_map I this s params = Done t l ->
  settled I (config params) true t.
Proof.
  intros Hp Hno H.
  destruct s as [u|c e p layer|c f inner|c r inner|c k|c k|c k];
    cbn [SpecMapper_map] in H.
  - apply mapLayerOrUnit_settles_spec in H as (_ & _ & Htop). now apply Htop.
  - apply mapLayerOrUnit_settles_spec in H as (_ & _ & Htop). now apply Htop.
  - now apply (mapFacet_settles_spec c f inner params t l).
  - now apply (mapRepeat_settles_spec c r inner params t l).
  - unfold SpecMapper_mapConcat in H.
    apply bind_Done_inv in H as (subspecs & l0 & l1 & Hkids & H & _).
    inversion H; subst. cbn [settled]. now apply (members_settle k params _ l0).
  - unfold SpecMapper_mapHConcat in H.
    apply bind_Done_inv in H as (subspecs & l0 & l1 & Hkids & H & _).
    inversion H; subst. cbn [settled]. now apply (members_settle k params _ l0).
  - unfold SpecMapper_mapVConcat in H.
    apply bind_Done_inv in H as (subspecs & l0 & l1 & Hkids & H & _).
    inversion H; subst. cbn [settled]. now apply (members_settle k params _ l0).
Qed.

Lemma map_settles_spec s params t l :
  noParent params ->
  map I this s params = Done t l ->
  settled I (config params) true t.
Proof.
  intros Hp H.
  destruct s as [u|c e p layer|c f inner|c r inner|c k|c k|c k];
    cbn [map] in H;
    [|match type of H with
      | SpecMapper_map _ _ ?s _ = _ =>
          exact (SpecMapper_map_settles_spec s params t l Hp Logic.I H)
      end..].
  destruct (channelHasField I (u_encoding u) ROW
            || channelHasField I (u_encoding u) COLUMN
            || channelHasField I (u_encoding u) FACET) eqn:E.
  - now apply (mapFacetedUnit_settles_spec u params t l).
  - apply orb_false_iff in E as [E Hf]. apply orb_false_iff in E as [Hr Hc].
    apply (SpecMapper_map_settles_spec (SUnit u) params t l Hp); [|exact H].
    cbn [noFacetChannel]. repeat split; assumption.
Qed.
End Methods.

Lemma CoreNormalizer_settles fuel : thisSettles I (CoreNormalizer I fuel).
Proof.
  induction fuel as [|n IH].
  - constructor; cbn [CoreNormalizer this_map this_mapLayerOrUnit
                      this_mapUnit].
    + discriminate.
    + intros s params t l; discriminate.
    + intros [] params t l; discriminate.
  - constructor; cbn [CoreNormalizer this_map this_mapLayerOrUnit
                      this_mapUnit].
    + intros s params t l. now apply map_settles_spec.
    + now apply mapLayerOrUnit_settles_spec.
    + intros s params t l H. destruct s; try discriminate.
      now apply (mapUnit_settles_spec (CoreNormalizer I n) IH _ _ _ l).
Qed.
End SettlingFacts.

(** The sample collaborators settle. *)
Section SampleSettles.

Lemma Sample_replaceInDef_settled def repeater def' :
  Sample.replaceInDef def repeater = Some def' ->
  Sample.replaceInDef def' None = Some def'
  /\ (isSome (cd_field def) = false -> def' = def).
Proof.
  unfold Sample.replaceInDef.
  destruct (cd_field def) as [[f|r]|] eqn:E.
  - intros H; inversion H; subst. rewrite E. split; reflexivity.
  - destruct repeater as [rv|]; [|discriminate].
    destruct (Sample.binding rv r); [|discriminate].
    intros H; inversion H; subst. cbn. split; [reflexivity|discriminate].
  - intros H; inversion H; subst. rewrite E. split; reflexivity.
Qed.

Lemma Sample_replaceRepeater_settled e repeater :
  forall out l,
    Sample.replaceRepeater e repeater = Done out l ->
    Sample.replaceRepeater out None = Done out []
    /\ forall channel,
         Sample.channelHasField (Some e) channel = false ->
         Sample.channelHasField (Some out) channel = false.
Proof.
  induction e as [|[k def] e IH]; intros out l H.
  - inversion H; subst. split; [reflexivity|trivial].
  - cbn [Sample.replaceRepeater] in H.
    destruct (Sample.replaceInDef def repeater) as [def'|] eqn:E.
    + apply bind_Done_inv in H as (rest & l1 & l2 & Hrest & H & _).
      inversion H; subst.
      destruct (IH _ _ Hrest) as [Hfix Hfield].
      destruct (Sample_replaceInDef_settled _ _ _ E) as [Hdef Hsame].
      split.
      * cbn [Sample.replaceRepeater]. rewrite Hdef, Hfix. reflexivity.
      * intros channel. specialize (Hfield channel).
        cbn [Sample.channelHasField lookup] in *.
        destruct (String.eqb channel k); [|exact Hfield].
        intros Hno. now rewrite (Hsame Hno).
    + apply bind_Done_inv in H as (x & l1 & l2 & _ & H & _).
      destruct (IH _ _ H) as [Hfix Hfield]. split; [exact Hfix|].
      intros channel. specialize (Hfield channel).
      cbn [Sample.channelHasField lookup] in *.
      destruct (String.eqb channel k); [|exact Hfield].
      unfold Sample.replaceInDef in E.
      destruct (cd_field def) as [[f|r]|]; try discriminate.
Qed.

Lemma Sample_collaborators_settle : collaboratorsSettle Sample.imports.
Proof.
  constructor.
  - intros e repeater e' l H.
    cbn [replaceRepeaterInEncoding Sample.imports] in *.
    unfold Sample.replaceRepeaterInEncoding in *.
    destruct e as [e|].
    + apply bind_Done_inv in H as (out & l1 & l2 & Hout & H & _).
      inversion H; subst.
      destruct (Sample_replaceRepeater_settled _ _ _ _ Hout) as [Hfix _].
      rewrite Hfix. eexists; reflexivity.
    + inversion H; subst. eexists; reflexivity.
  - intros e repeater e' l channel H.
    cbn [replaceRepeaterInEncoding channelHasField Sample.imports] in *.
    unfold Sample.replaceRepeaterInEncoding in H.
    destruct e as [e|].
    + apply bind_Done_inv in H as (out & l1 & l2 & Hout & H & _).
      inversion H; subst.
      exact (proj2 (Sample_replaceRepeater_settled _ _ _ _ Hout) channel).
    + inversion H; subst. reflexivity.
  - intros entry u n d cfg Hin.
    cbn in Hin.
    destruct Hin as [<-|[<-|[<-|[<-|[<-|[<-|[]]]]]]]; reflexivity.
  - intros entry callback Hin Hcb u params t l Hm Hrun.
    cbn in Hin.
    destruct Hin as [<-|[<-|[<-|[<-|[<-|[<-|[]]]]]]];
      cbn [snd Sample.compositeMark Sample.inert hasMatchingType run] in *;
      try discriminate;
      destruct (Hcb _ _ _ _ Hrun) as (Hu & Hs & Htop);
      (split; [exact Hu|]; split; [exact Hs|]; intros Hp _;
       exact (Htop Hp Logic.I)).
Qed.
End SampleSettles.



(** ** [ConcatModel.parseSelections] *)

Section ParseSelectionsFacts.
Context {Other : Type}.
Variable X : Compile.Imports Other.

(** Copying the entries of [sel] leaves every key of [sel] with its
    definition from [sel], and the other keys as they were. *)
Lemma mergeSelection_lookup (mine sel : Obj Compile.SelectionComponent)
      (key : string) :
  lookup key (Compile.mergeSelection mine sel) =
  match lookup key sel with
  | Some def => Some def
  | None => lookup key mine
  end.
Proof.
  unfold Compile.mergeSelection.
  assert (H : forall ks acc,
    (forall k, In k ks -> lookup k sel <> None) ->
    lookup key
      (fold_left
         (fun acc k =>
            match lookup k sel with
            | Some v => set k v acc
            | None => acc
            end) ks acc) =
    if in_dec string_dec key ks then lookup key sel else lookup key acc).
  { induction ks as [|k ks IH]; intros acc Hks; [reflexivity|].
    cbn [fold_left]. rewrite IH by (intros k' Hk'; apply Hks; now right).
    destruct (lookup k sel) as [v|] eqn:Ek;
      [|exfalso; apply (Hks k); [now left|assumption]].
    destruct (in_dec string_dec key ks) as [Hin|Hnin];
      destruct (in_dec string_dec key (k :: ks)) as [Hin'|Hnin'];
      try reflexivity.
    - exfalso. apply Hnin'. now right.
    - destruct Hin' as [<-|Hin']; [|contradiction].
      rewrite lookup_set_same. now symmetry.
    - apply lookup_set_other. intros ->. apply Hnin'. now left. }
  rewrite H.
  - destruct (in_dec string_dec key (keys sel)) as [Hin|Hnin].
    + destruct (lookup key sel) eqn:E; [reflexivity|].
      apply lookup_None_notin in E. contradiction.
    + apply lookup_None_notin in Hnin. now rewrite Hnin.
  - intros k Hk E. apply lookup_None_notin in E. contradiction.
Qed.

(** The loop of [parseSelections] over children that all parse. *)
Lemma parseSelections_loop children :
  forall parsed log kids0 sel0,
    mapM (Compile.parseSelections X) children = Done parsed log ->
    Forall (fun child => Compile.selection_of X child <> None) parsed ->
    foldM (Compile.parseSelectionsStep X (Compile.parseSelections X))
          children (kids0, sel0) =
    Done (kids0 ++ parsed,
          fold_left
            (fun acc child =>
               Compile.mergeSelection acc
                 (orEmpty (Compile.selection_of X child)))
            parsed sel0)
         log.
Proof.
  induction children as [|child children IH];
    intros parsed log kids0 sel0 Hmap Hsel.
  - inversion Hmap; subst. rewrite foldM_nil, app_nil_r. reflexivity.
  - rewrite mapM_cons in Hmap.
    apply bind_Done_inv in Hmap as (child' & l1 & l2 & Hc & Hmap & ->).
    apply bind_Done_inv in Hmap as (rest & l3 & l4 & Hrest & Hret & ->).
    inversion Hret; subst. inversion Hsel as [|? ? Hchild Hothers]; subst.
    rewrite foldM_cons. unfold Compile.parseSelectionsStep at 1.
    rewrite Hc. cbn [bind].
    destruct (Compile.selection_of X child') as [sel|] eqn:Esel;
      [|contradiction].
    cbn [bind ret fst snd].
    rewrite (IH rest l3 (kids0 ++ [child']) (Compile.mergeSelection sel0 sel)
                Hrest Hothers).
    cbn [fold_left orEmpty]. rewrite Esel. cbn [orEmpty].
    rewrite <- !app_assoc, !app_nil_r. reflexivity.
Qed.

Lemma parseSelections_concat base concatType children :
  Compile.parseSelections X (Compile.ConcatModel base concatType children) =
  (r <- foldM (Compile.parseSelectionsStep X (Compile.parseSelections X))
              children ([], []) ;;
   ret (Compile.ConcatModel (Compile.with_selection base (snd r))
                            concatType (fst r))).
Proof. reflexivity. Qed.

(** Looking a key up in the merged mapping is picking, child after child,
    the definition of the last child that has one. *)
Lemma mergedSelections_lookup parsed key acc :
  lookup key
    (fold_left
       (fun acc child =>
          Compile.mergeSelection acc (orEmpty (Compile.selection_of X child)))
       parsed acc) =
  fold_left
    (fun found child =>
       pick key found (orEmpty (Compile.selection_of X child)))
    parsed (lookup key acc).
Proof.
  revert acc. induction parsed as [|child parsed IH]; intros acc;
    [reflexivity|].
  cbn [fold_left]. rewrite IH, mergeSelection_lookup. reflexivity.
Qed.

(** The last child that defines a key decides its definition. *)
Lemma mergedSelections_last before child after key def :
  lookup key (orEmpty (Compile.selection_of X child)) = Some def ->
  Forall (fun later =>
            lookup key (orEmpty (Compile.selection_of X later)) = None)
         after ->
  lookup key (mergedSelections X (before ++ child :: after)) = Some def.
Proof.
  intros Hdef Hafter. unfold mergedSelections.
  rewrite fold_left_app. cbn [fold_left].
  remember (Compile.mergeSelection _ _) as acc eqn:Eacc.
  assert (Hacc : lookup key acc = Some def)
    by (subst acc; rewrite mergeSelection_lookup, Hdef; reflexivity).
  clear Eacc. revert acc Hacc.
  induction Hafter as [|later after Hl _ IH]; intros acc Hacc;
    [exact Hacc|].
  cbn [fold_left]. apply IH. now rewrite mergeSelection_lookup, Hl.
Qed.
End ParseSelectionsFacts.

(** C8: [ConcatModel.parseSelections] lets every child parse its selections
    and copies the selections of the parsed child into the parent's
    mapping, child after child.  The mapping the parent holds afterwards
    has, for every key, the definition of the last parsed child that
    defines it; the rest of the parent is as it was, and the log is the
    children's: the merge itself logs nothing. *)
Theorem parseSelections_last_write_wins :
  forall (Other : Type) (X : Compile.Imports Other)
         (base : Compile.ModelBase) (concatType : Compile.ConcatType)
         (children parsed : list (Compile.Model Other)) (log : list Event),
    mapM (Compile.parseSelections X) children = Done parsed log ->
    Forall (fun child => Compile.selection_of X child <> None) parsed ->
    exists base' merged,
      Compile.parseSelections X (Compile.ConcatModel base concatType children)
        = Done (Compile.ConcatModel base' concatType parsed) log
      /\ Compile.selection_of X (Compile.ConcatModel base' concatType parsed)
         = Some merged
      /\ Compile.base_name base' = Compile.base_name base
      /\ Compile.component_rest (Compile.base_component base')
         = Compile.component_rest (Compile.base_component base)
      /\ Compile.base_rest base' = Compile.base_rest base
      /\ (forall key,
            lookup key merged =
            lastDefinition
              key
              (List.map (fun child => orEmpty (Compile.selection_of X child))
                        parsed))
      /\ (forall before child after key def,
            parsed = before ++ child :: after ->
            lookup key (orEmpty (Compile.selection_of X child)) = Some def ->
            Forall (fun later =>
                      lookup key (orEmpty (Compile.selection_of X later))
                      = None)
                   after ->
            lookup key merged = Some def).
Proof.
  intros Other X base concatType children parsed log Hmap Hsel.
  exists (Compile.with_selection base (mergedSelections X parsed)),
         (mergedSelections X parsed).
  split; [|split; [reflexivity|split; [reflexivity|split; [reflexivity|
           split; [reflexivity|split]]]]].
  - rewrite parseSelections_concat.
    set (loop := foldM _ _ _).
    assert (Hloop : loop = Done (parsed, mergedSelections X parsed) log)
      by exact (parseSelections_loop X children parsed log [] [] Hmap Hsel).
    rewrite Hloop. cbn [bind ret fst snd]. rewrite app_nil_r. reflexivity.
  - intros key. unfold mergedSelections, lastDefinition.
    rewrite mergedSelections_lookup.
    change (lookup key []) with (@None Compile.SelectionComponent).
    generalize (@None Compile.SelectionComponent).
    clear Hmap Hsel.
    induction parsed as [|child rest IH]; intros found; [reflexivity|].
    cbn [fold_left List.map]. apply IH.
  - intros before child after key def -> Hdef Hafter.
    now apply mergedSelections_last.
Qed.

(** Two children that both define the selection [brush], under a parent
    that held a stale mapping. *)
Lemma parseSelections_last_write_wins_witness :
  let X := SampleModel.imports in
  let first := [("brush", JStr "interval"); ("pick", JStr "single")] in
  let second := [("brush", JStr "multi")] in
  let children := [SampleModel.leaf "a" first; SampleModel.leaf "b" second] in
  let parsed :=
    [SampleModel.parsedLeaf "a" first; SampleModel.parsedLeaf "b" second] in
  let base :=
    Compile.mkModelBase "grid"
      (Compile.mkComponent (Some [("old", JStr "stale")])
                           [("data", JStr "cars")])
      [] in
  mapM (Compile.parseSelections X) children = Done parsed [] /\
  Forall (fun child => Compile.selection_of X child <> None) parsed /\
  exists base' merged,
    Compile.parseSelections X
      (Compile.ConcatModel base Compile.hconcat children)
    = Done (Compile.ConcatModel base' Compile.hconcat parsed) []
    /\ Compile.selection_of X
         (Compile.ConcatModel base' Compile.hconcat parsed) = Some merged
    /\ lookup "brush" merged = Some (JStr "multi")
    /\ lookup "pick" merged = Some (JStr "single")
    /\ lookup "old" merged = None.
Proof.
  intros X first second children parsed base.
  assert (Hsel : Forall (fun child => Compile.selection_of X child <> None)
                        parsed)
    by (repeat constructor; discriminate).
  destruct (parseSelections_last_write_wins SampleModel.Leaf X base
              Compile.hconcat children parsed [] eq_refl Hsel)
    as (base' & merged & Hrun & Hread & _ & _ & _ & Hall & Hlast).
  split; [reflexivity|]. split; [exact Hsel|].
  exists base', merged. split; [exact Hrun|]. split; [exact Hread|].
  split; [|split].
  - apply (Hlast [SampleModel.parsedLeaf "a" first]
                 (SampleModel.parsedLeaf "b" second) [] "brush" (JStr "multi")
                 eq_refl eq_refl).
    constructor.
  - rewrite Hall. reflexivity.
  - rewrite Hall. reflexivity.
Defined.

(** ** The constructor of [ConcatModel] *)

Lemma sharesAxis_spec (r : option Resolve) :
  Compile.sharesAxis r = true <->
  exists res ax,
    r = Some res /\ resolve_axis res = Some ax /\
    (axis_x ax = Some Shared \/ axis_y ax = Some Shared).
Proof.
  unfold Compile.sharesAxis, Compile.isShared. split.
  - destruct r as [res|]; [|discriminate].
    destruct (resolve_axis res) as [ax|] eqn:Eax; [|discriminate].
    intros H. exists res, ax. split; [reflexivity|]. split; [assumption|].
    destruct (axis_x ax) as [[|]|]; [now left| |];
      (destruct (axis_y ax) as [[|]|]; [now right|discriminate..]).
  - intros (res & ax & -> & -> & [->| ->]); [reflexivity|].
    destruct (axis_x ax) as [[|]|]; reflexivity.
Qed.

(** C10: constructing a [ConcatModel] from a concat spec whose resolve asks
    for a shared x or y axis logs the warning that concatenated views
    cannot share axes exactly once, between what the base constructor and
    what the construction of the children log; the model built is the same
    as when no axis is shared. *)
Theorem ConcatModel_constructor_warns_once :
  forall (Other : Type) (X : Compile.Imports Other) (spec : Spec)
         (parent : option Compile.ModelBase) (parentGivenName : string)
         (cfg : Config) (base : Compile.ModelBase) (l0 : list Event)
         (specs : list Spec) (children : list (Compile.Model Other))
         (l1 : list Event),
    Compile.Model_constructor X spec "concat" parent parentGivenName cfg
                              (resolve (common_of spec)) = Done base l0 ->
    Compile.getChildren spec = Some specs ->
    mapMi (fun i child =>
             Compile.buildModel X child base
               (Compile.getName X base (Compile.concatChildName i)) None cfg)
          0 specs = Done children l1 ->
    Compile.ConcatModel_constructor X spec parent parentGivenName cfg =
    Done (Compile.ConcatModel base (Compile.concatTypeOf spec) children)
         (l0 ++
          (if Compile.sharesAxis (resolve (common_of spec))
           then [Warn CONCAT_CANNOT_SHARE_AXIS] else []) ++
          l1).
Proof.
  intros Other X spec parent parentGivenName cfg base l0 specs children l1
         Hbase Hspecs Hkids.
  unfold Compile.ConcatModel_constructor.
  rewrite Hbase, Hspecs. cbn [bind].
  destruct (Compile.sharesAxis (resolve (common_of spec)));
    unfold warn, emit, ret; cbn [bind]; rewrite Hkids; cbn [bind ret app];
    rewrite ?app_nil_r; reflexivity.
Qed.

(** A horizontal concatenation that asks for a shared x axis. *)
Lemma ConcatModel_constructor_warns_once_witness :
  let X := SampleModel.imports in
  let shared :=
    mkCommon (Some "grid") None emptyLayout
             (Some (mkResolve (Some (mkAxisResolveMap (Some Shared) None)) []))
             [] in
  let point := SUnit (Sample.unit "point" [("x", Sample.fieldDef "a")]) in
  let spec := SHConcat shared [point; point] in
  let base := SampleModel.base "grid" in
  let children :=
    [SampleModel.leaf "grid_concat_0" []; SampleModel.leaf "grid_concat_1" []] in
  Compile.sharesAxis (resolve (common_of spec)) = true /\
  Compile.ConcatModel_constructor X spec None "" Sample.cfg =
  Done (Compile.ConcatModel base Compile.hconcat children)
       [Warn CONCAT_CANNOT_SHARE_AXIS].
Proof.
  intros X shared point spec base children. split; [reflexivity|].
  exact (ConcatModel_constructor_warns_once SampleModel.Leaf X spec None ""
           Sample.cfg base [] [point; point] children [] eq_refl eq_refl
           eq_refl).
Defined.


(** * Further properties of the code *)

(** ** Objects: key order, well-formedness, extensionality *)

Section MoreObjectFacts.
Context {V : Type}.
Implicit Types (o a b c : Obj V) (k key : string) (v : V).

Lemma isSome_lookup_In key o :
  isSome (lookup key o) = true <-> In key (keys o).
Proof.
  destruct (lookup key o) eqn:E; simpl.
  - split; [intros _|reflexivity].
    destruct (in_dec string_dec key (keys o)) as [H|H]; [exact H|].
    apply lookup_None_notin in H. congruence.
  - split; [discriminate|]. intros H. apply lookup_None_notin in E.
    contradiction.
Qed.

Lemma set_fresh key v o :
  lookup key o = None -> set key v o = o ++ [(key, v)].
Proof.
  induction o as [|[k w] o IH]; simpl; [reflexivity|].
  destruct (String.eqb key k); [discriminate|].
  intros H. now rewrite IH.
Qed.

Lemma isSome_lookup_set key k v o :
  isSome (lookup key (set k v o)) =
  isSome (lookup key o) || String.eqb key k.
Proof.
  destruct (String.eqb key k) eqn:E.
  - apply String.eqb_eq in E; subst. rewrite lookup_set_same. simpl.
    now rewrite orb_true_r.
  - apply String.eqb_neq in E. rewrite lookup_set_other by assumption.
    now rewrite orb_false_r.
Qed.

(** [{...a, ...b}] lists the keys of [a] in their order, then the keys
    that only [b] has, in the order of [b]. *)
Lemma keys_assign a b : wf b -> keys (assign a b) = keys a ++ newKeys a b.
Proof.
  unfold assign, wf, newKeys. revert a.
  induction b as [|[k v] b IH]; intros a Hwf; simpl.
  - now rewrite app_nil_r.
  - inversion Hwf as [|? ? Hnotin Hwf']; subst.
    rewrite IH by assumption. rewrite keys_set.
    destruct (isSome (lookup k a)) eqn:Ek; simpl.
    + f_equal. apply filter_ext_in. intros key _.
      rewrite isSome_lookup_set.
      destruct (String.eqb key k) eqn:E; [|now rewrite orb_false_r].
      apply String.eqb_eq in E; subst. now rewrite Ek.
    + rewrite <- app_assoc. simpl. do 2 f_equal.
      apply filter_ext_in. intros key Hin.
      rewrite isSome_lookup_set.
      destruct (String.eqb key k) eqn:E; [|now rewrite orb_false_r].
      apply String.eqb_eq in E; subst. contradiction.
Qed.

Lemma wf_assign a b : wf a -> wf b -> wf (assign a b).
Proof.
  intros Ha Hb. unfold wf. rewrite keys_assign by assumption.
  apply NoDup_app; [exact Ha|now apply NoDup_filter|].
  intros key Hin Hnew. unfold newKeys in Hnew.
  apply filter_In in Hnew as [_ Hnew].
  apply isSome_lookup_In in Hin. now rewrite Hin in Hnew.
Qed.

(** Two objects with the same keys in the same order and the same value
    under every key are the same object. *)
Lemma obj_ext o1 o2 :
  wf o1 -> keys o1 = keys o2 ->
  (forall key, lookup key o1 = lookup key o2) -> o1 = o2.
Proof.
  revert o2. induction o1 as [|[k v] o1 IH]; intros [|[k' v'] o2] Hwf Hk Hl;
    try discriminate; [reflexivity|].
  simpl in Hk. injection Hk as -> Hk.
  pose proof (Hl k') as H0. simpl in H0. rewrite String.eqb_refl in H0.
  injection H0 as ->.
  inversion Hwf as [|? ? Hnotin Hwf']; subst.
  f_equal. apply IH; [assumption..|].
  intros key. specialize (Hl key). simpl in Hl.
  destruct (String.eqb key k') eqn:E; [|exact Hl].
  apply String.eqb_eq in E; subst key.
  assert (H1 : lookup k' o1 = None) by now apply lookup_None_notin.
  assert (H2 : lookup k' o2 = None)
    by (apply lookup_None_notin; now rewrite <- Hk).
  now rewrite H1, H2.
Qed.

Lemma assign_disjoint a b :
  wf b -> (forall key, In key (keys b) -> lookup key a = None) ->
  assign a b = a ++ b.
Proof.
  unfold assign, wf. revert a.
  induction b as [|[k v] b IH]; intros a Hwf Hd; simpl.
  - now rewrite app_nil_r.
  - inversion Hwf as [|? ? Hnotin Hwf']; subst.
    rewrite set_fresh by (apply Hd; now left).
    rewrite IH; [now rewrite <- app_assoc|assumption|].
    intros key Hin. apply lookup_None_notin. unfold keys.
    rewrite map_app. intros Hin'. apply in_app_or in Hin' as [H|[<-|[]]].
    + assert (Hn : lookup key a = None) by (apply Hd; now right).
      apply lookup_None_notin in Hn. contradiction.
    + contradiction.
Qed.

Lemma assign_nil_l b : wf b -> assign [] b = b.
Proof. intros H. now rewrite assign_disjoint. Qed.

Lemma assign_nil_r a : assign a [] = a.
Proof. reflexivity. Qed.

Lemma assign_assoc a b c :
  wf a -> wf b -> wf c -> assign (assign a b) c = assign a (assign b c).
Proof.
  intros Ha Hb Hc. apply obj_ext.
  - now repeat apply wf_assign.
  - rewrite !keys_assign by (try assumption; now apply wf_assign).
    unfold newKeys. rewrite (keys_assign b c) by assumption.
    unfold newKeys. rewrite <- app_assoc, filter_app. do 2 apply f_equal.
    induction (keys c) as [|k ks IH]; [reflexivity|]. simpl.
    rewrite lookup_assign by assumption.
    destruct (lookup k b) eqn:Eb; simpl; [exact IH|].
    destruct (lookup k a); simpl; [exact IH|now rewrite IH].
  - intros key. rewrite !lookup_assign by (try assumption; now apply wf_assign).
    destruct (lookup key c), (lookup key b); reflexivity.
Qed.

Lemma lookup_omit key o props :
  lookup key (omit o props) =
  if existsb (String.eqb key) props then None else lookup key o.
Proof.
  unfold omit. induction o as [|[k w] o IH]; simpl.
  - now destruct (existsb _ props).
  - destruct (existsb (String.eqb k) props) eqn:Ek; simpl; rewrite IH;
      (destruct (String.eqb key k) eqn:E; [|reflexivity]);
      apply String.eqb_eq in E; subst key; now rewrite Ek.
Qed.

Lemma orEmpty_nonEmpty o : orEmpty (nonEmpty o) = o.
Proof. now destruct o. Qed.
End MoreObjectFacts.

(** ** More on [mergeEncoding] and [mergeProjection] *)

Lemma mergeEncoding_value (parentEncoding encoding : option Encoding) :
  exists l,
    Normalize.mergeEncoding parentEncoding encoding =
    Done (nonEmpty (assign (orEmpty parentEncoding) (orEmpty encoding))) l.
Proof. eexists. apply mergeEncoding_run. Qed.

(** X1: the object [mergeEncoding] returns is well formed when its two
    arguments are, and lists the parent's channels in the parent's order
    followed by the channels only the child has, in the child's order. *)
Theorem mergeEncoding_keeps_key_order :
  forall (parentEncoding encoding : option Encoding) (merged : Encoding)
         (l : list Event),
    wf (orEmpty parentEncoding) ->
    wf (orEmpty encoding) ->
    Normalize.mergeEncoding parentEncoding encoding = Done (Some merged) l ->
    wf merged
    /\ keys merged =
       keys (orEmpty parentEncoding) ++
       newKeys (orEmpty parentEncoding) (orEmpty encoding).
Proof.
  intros pe e merged l Hp He H.
  destruct (mergeEncoding_value pe e) as [l' H']. rewrite H' in H.
  assert (Hm : merged = assign (orEmpty pe) (orEmpty e)).
  { destruct (assign (orEmpty pe) (orEmpty e)); simpl in H;
      [discriminate|now inversion H]. }
  subst merged. split; [now apply wf_assign|now apply keys_assign].
Qed.

(** The merge of [{x: A, y: B}] with [{z: C, x: D}]. *)
Lemma mergeEncoding_keeps_key_order_witness :
  let parentEncoding :=
    Some [("x", Sample.fieldDef "A"); ("y", Sample.fieldDef "B")] in
  let encoding :=
    Some [("z", Sample.fieldDef "C"); ("x", Sample.fieldDef "D")] in
  let merged :=
    [("x", Sample.fieldDef "D"); ("y", Sample.fieldDef "B");
     ("z", Sample.fieldDef "C")] in
  wf (orEmpty parentEncoding) /\ wf (orEmpty encoding) /\
  Normalize.mergeEncoding parentEncoding encoding =
    Done (Some merged) [Warn (encodingOverridden ["x"])] /\
  wf merged /\ keys merged = ["x"; "y"; "z"].
Proof.
  intros pe e merged.
  assert (Wp : wf (orEmpty pe)).
  { unfold wf; simpl. repeat constructor; simpl; intuition discriminate. }
  assert (We : wf (orEmpty e)).
  { unfold wf; simpl. repeat constructor; simpl; intuition discriminate. }
  split; [exact Wp|]. split; [exact We|]. split; [reflexivity|].
  exact (mergeEncoding_keeps_key_order pe e merged _ Wp We eq_refl).
Defined.

(** X2: merging with a missing or empty side gives back the other side
    unchanged and logs nothing; when there is no channel on either side the
    result is [undefined], never an empty object. *)
Theorem mergeEncoding_missing_side :
  forall e : Encoding,
    wf e ->
    Normalize.mergeEncoding None (Some e) = Done (nonEmpty e) []
    /\ Normalize.mergeEncoding (Some []) (Some e) = Done (nonEmpty e) []
    /\ Normalize.mergeEncoding (Some e) None = Done (nonEmpty e) []
    /\ Normalize.mergeEncoding (Some e) (Some []) = Done (nonEmpty e) []
    /\ Normalize.mergeEncoding None None = Done None []
    /\ Normalize.mergeEncoding (Some []) (Some []) = Done None [].
Proof.
  intros e Hwf.
  assert (Hf : filter (fun key : string =>
                         isSome (lookup key (@nil (string * ChannelDef))))
                      (keys e) = []).
  { induction (keys e) as [|k ks IH]; [reflexivity|exact IH]. }
  pose proof (mergeEncoding_run None (Some e)) as H1.
  pose proof (mergeEncoding_run (Some []) (Some e)) as H2.
  pose proof (mergeEncoding_run (Some e) None) as H3.
  pose proof (mergeEncoding_run (Some e) (Some [])) as H4.
  cbv zeta in H1, H2, H3, H4. cbn [orEmpty] in H1, H2, H3, H4.
  rewrite assign_nil_l in H1, H2 by assumption.
  rewrite assign_nil_r in H3, H4. rewrite Hf in H3, H4.
  repeat split; assumption || reflexivity.
Qed.

(** The two sides of [{x: A}]. *)
Lemma mergeEncoding_missing_side_witness :
  let e := [("x", Sample.fieldDef "A")] in
  wf e /\
  Normalize.mergeEncoding None (Some e) = Done (Some e) [] /\
  Normalize.mergeEncoding (Some e) None = Done (Some e) [].
Proof.
  intros e.
  assert (W : wf e) by (unfold wf; simpl; repeat constructor; intros []).
  split; [exact W|].
  destruct (mergeEncoding_missing_side e W) as (H1 & _ & H3 & _).
  split; [exact H1|exact H3].
Defined.

(** X3: merging encodings is associative in what it returns: whether the
    encodings of nested layers are merged outermost first (as [mapLayer]
    does on the way down) or innermost first, the unit gets the same
    object. *)
Theorem mergeEncoding_nested_layers :
  forall a b c : option Encoding,
    wf (orEmpty a) -> wf (orEmpty b) -> wf (orEmpty c) ->
    value (ab <- Normalize.mergeEncoding a b ;; Normalize.mergeEncoding ab c)
    = value (bc <- Normalize.mergeEncoding b c ;;
             Normalize.mergeEncoding a bc)
    /\ value (ab <- Normalize.mergeEncoding a b ;;
              Normalize.mergeEncoding ab c)
       = Some (nonEmpty (assign (assign (orEmpty a) (orEmpty b)) (orEmpty c))).
Proof.
  intros a b c Ha Hb Hc.
  assert (Hl : value (ab <- Normalize.mergeEncoding a b ;;
                      Normalize.mergeEncoding ab c)
               = Some (nonEmpty (assign (assign (orEmpty a) (orEmpty b))
                                        (orEmpty c)))).
  { destruct (mergeEncoding_value a b) as [l1 H1]. rewrite H1. cbn [bind].
    destruct (mergeEncoding_value
                (nonEmpty (assign (orEmpty a) (orEmpty b))) c) as [l2 H2].
    rewrite H2, orEmpty_nonEmpty. reflexivity. }
  split; [|exact Hl]. rewrite Hl.
  destruct (mergeEncoding_value b c) as [l1 H1]. rewrite H1. cbn [bind].
  destruct (mergeEncoding_value
              a (nonEmpty (assign (orEmpty b) (orEmpty c)))) as [l2 H2].
  rewrite H2, orEmpty_nonEmpty. cbn [value].
  now rewrite assign_assoc.
Qed.

(** Three nested encodings that all define [x]. *)
Lemma mergeEncoding_nested_layers_witness :
  let a := Some [("x", Sample.fieldDef "A"); ("y", Sample.fieldDef "B")] in
  let b := Some [("z", Sample.fieldDef "C"); ("x", Sample.fieldDef "D")] in
  let c := Some [("x", Sample.fieldDef "E")] in
  (wf (orEmpty a) /\ wf (orEmpty b) /\ wf (orEmpty c)) /\
  value (ab <- Normalize.mergeEncoding a b ;; Normalize.mergeEncoding ab c)
  = value (bc <- Normalize.mergeEncoding b c ;; Normalize.mergeEncoding a bc).
Proof.
  intros a b c.
  assert (Wa : wf (orEmpty a)).
  { unfold wf; simpl. repeat constructor; simpl; intuition discriminate. }
  assert (Wb : wf (orEmpty b)).
  { unfold wf; simpl. repeat constructor; simpl; intuition discriminate. }
  assert (Wc : wf (orEmpty c)).
  { unfold wf; simpl. repeat constructor; simpl; intuition discriminate. }
  split; [repeat split; assumption|].
  exact (proj1 (mergeEncoding_nested_layers a b c Wa Wb Wc)).
Defined.

(** X4: [mergeProjection] returns the child's projection unless that is
    missing or [null], and the parent's then; it warns, once and naming
    both, exactly when both are truthy, so that a [null] child projection
    gives back the parent's without a warning; over nested layers the
    innermost projection that is neither missing nor [null] wins. *)
Theorem mergeProjection_child_wins :
  forall a b c : option Json,
    Normalize.mergeProjection a b =
      Done (match b with
            | None => a
            | Some JNull => a
            | Some p => Some p
            end)
           (match a, b with
            | Some pp, Some p =>
                if truthyJson a && truthyJson b
                then [Warn (projectionOverridden pp p)]
                else []
            | _, _ => []
            end)
    /\ Normalize.mergeProjection a (Some JNull) = Done a []
    /\ Normalize.mergeProjection (Some JNull) b =
       Done (match b with None => Some JNull | Some p => Some p end) []
    /\ value (ab <- Normalize.mergeProjection a b ;;
              Normalize.mergeProjection ab c)
       = Some (match c with
               | None | Some JNull =>
                   match b with
                   | None | Some JNull => a
                   | Some p => Some p
                   end
               | Some p => Some p
               end).
Proof.
  intros a b c. split; [|split; [|split]].
  - apply mergeProjection_run.
  - rewrite mergeProjection_run. unfold projectionWarning.
    destruct a as [pp|]; [|reflexivity].
    cbn [truthyJson]. now rewrite andb_false_r.
  - rewrite mergeProjection_run. unfold projectionWarning.
    destruct b as [[]|]; reflexivity.
  - rewrite !mergeProjection_run. cbn [bind].
    rewrite mergeProjection_run. cbn [value].
    destruct c as [[]|]; reflexivity.
Qed.

(** ** [mapLayer] *)

Section MapLayerFacts.
Import Normalize.
Variable this : This.

Lemma mapLayer_run c encoding projection layer params :
  exists l,
    mapLayer this c encoding projection layer params =
    (_ <- Done tt l ;;
     subspecs <- mapM (fun subspec =>
                         this_mapLayerOrUnit this subspec
                           (layerContext params encoding projection))
                      layer ;;
     ret (SLayer c None None subspecs)).
Proof.
  unfold mapLayer, SpecMapper_mapLayer, layerContext.
  destruct (mergeEncoding_value (parentEncoding params) encoding) as [l1 H1].
  rewrite H1, mergeProjection_run.
  exists (l1 ++ projectionWarning (parentProjection params) projection).
  cbn [bind].
  destruct (mapM _ layer) as [kids l2|e]; cbn [bind ret app];
    rewrite ?app_nil_r, <- ?app_assoc; reflexivity.
Qed.

Lemma mapLayer_children c encoding projection layer params subspecs :
  Forall2 (fun subspec normalized =>
             exists l, this_mapLayerOrUnit this subspec
                         (layerContext params encoding projection)
                       = Done normalized l)
          layer subspecs ->
  exists log,
    mapLayer this c encoding projection layer params =
    Done (SLayer c None None subspecs) log.
Proof.
  intros H. destruct (mapLayer_run c encoding projection layer params)
    as [l Hrun].
  destruct (mapM_Forall2 _ _ _ H) as [l' Hl'].
  rewrite Hrun, Hl'. eexists; reflexivity.
Qed.
End MapLayerFacts.

(** X5: [mapLayer] normalizes every member of the layer under a context
    whose parent encoding is the inherited one overlaid by the layer's own,
    whose parent projection is the layer's unless that is missing or
    [null], and whose configuration and repeater are unchanged; the layer
    it returns has no encoding and no projection of its own, and its
    members in order. *)
Theorem mapLayer_hands_down_merged_context :
  forall (this : Normalize.This) (c : Common) (encoding : option Encoding)
         (projection : option Json) (layer : list Spec)
         (params : NormalizerParams) (subspecs : list Spec),
    Forall2 (fun subspec normalized =>
               exists l, Normalize.this_mapLayerOrUnit this subspec
                           (layerContext params encoding projection)
                         = Done normalized l)
            layer subspecs ->
    (exists log,
       Normalize.mapLayer this c encoding projection layer params =
       Done (SLayer c None None subspecs) log)
    /\ List.length subspecs = List.length layer
    /\ config (layerContext params encoding projection) = config params
    /\ repeater (layerContext params encoding projection) = repeater params
    /\ (wf (orEmpty encoding) ->
        forall key,
          lookup key (orEmpty (parentEncoding
                                 (layerContext params encoding projection))) =
          match lookup key (orEmpty encoding) with
          | Some def => Some def
          | None => lookup key (orEmpty (parentEncoding params))
          end).
Proof.
  intros this c encoding projection layer params subspecs H.
  split; [now apply mapLayer_children|].
  split; [symmetry; exact (Forall2_length H)|].
  split; [reflexivity|]. split; [reflexivity|].
  intros Hwf key. cbn [layerContext parentEncoding].
  rewrite orEmpty_nonEmpty. now apply lookup_assign.
Qed.

(** A layer with an encoding of its own over one unit. *)
Lemma mapLayer_hands_down_merged_context_witness :
  let this := Normalize.CoreNormalizer Sample.imports 3 in
  let encoding := Some [("x", Sample.fieldDef "a")] in
  let layer := [SUnit (Sample.unit "point" [("y", Sample.fieldDef "b")])] in
  let subspecs :=
    [SUnit (Sample.unit "point" [("x", Sample.fieldDef "a");
                                 ("y", Sample.fieldDef "b")])] in
  let params := only_config Sample.cfg in
  Forall2 (fun subspec normalized =>
             exists l, Normalize.this_mapLayerOrUnit this subspec
                         (layerContext params encoding None)
                       = Done normalized l)
          layer subspecs /\
  exists log,
    Normalize.mapLayer this emptyCommon encoding None layer params =
    Done (SLayer emptyCommon None None subspecs) log.
Proof.
  intros this encoding layer subspecs params.
  assert (F : Forall2
    (fun subspec normalized =>
       exists l, Normalize.this_mapLayerOrUnit this subspec
                   (layerContext params encoding None) = Done normalized l)
    layer subspecs).
  { constructor; [apply value_Done; vm_compute; reflexivity|constructor]. }
  split; [exact F|].
  exact (proj1 (mapLayer_hands_down_merged_context this emptyCommon encoding
                  None layer params subspecs F)).
Defined.

(** X6: a unit inside a layer that declares an encoding comes out of
    [normalize] with the layer's channels followed by its own, its own
    definition winning on a shared channel, while the layer node loses its
    encoding (for a unit no chain normalizer matches and encodings the
    repeater substitution leaves alone). *)
Theorem layer_encoding_reaches_units :
  forall (I : Imports) (fuel : nat) (c : Common) (layerEncoding : Encoding)
         (u : UnitSpec) (e : Encoding) (cfg : Config) (l1 l2 : list Event),
    u_encoding u = Some e ->
    wf e -> wf layerEncoding -> layerEncoding <> [] ->
    replaceRepeaterInEncoding I (Some e) None = Done (Some e) l1 ->
    replaceRepeaterInEncoding I (Some (assign layerEncoding e)) None
      = Done (Some (assign layerEncoding e)) l2 ->
    noneMatches (Normalize.nonFacetUnitNormalizers I)
                (Normalize.with_encoding u (Some (assign layerEncoding e)))
                cfg ->
    (exists log,
       Normalize.normalize I (S (S (S fuel)))
         (SLayer c (Some layerEncoding) None [SUnit u]) cfg =
       Done (SLayer c None None
               [SUnit (Normalize.with_encoding
                         u (Some (assign layerEncoding e)))])
            log)
    /\ (forall key,
          lookup key (assign layerEncoding e) =
          match lookup key e with
          | Some def => Some def
          | None => lookup key layerEncoding
          end).
Proof.
  intros I fuel c pe u e cfg l1 l2 Hu He Hpe Hne Hr1 Hr2 Hnone.
  split; [|intros key; now apply lookup_assign].
  unfold Normalize.normalize.
  cbn [Normalize.CoreNormalizer Normalize.this_map Normalize.map
       Normalize.SpecMapper_map Normalize.mapLayerOrUnit].
  apply mapLayer_children. constructor; [|constructor].
  assert (Hctx : layerContext (only_config cfg) (Some pe) None =
                 mkParams cfg (Some pe) None None).
  { unfold layerContext. cbn [only_config parentEncoding orEmpty config
                              parentProjection repeater].
    rewrite assign_nil_l by assumption.
    destruct pe; [contradiction|reflexivity]. }
  rewrite Hctx.
  cbn [Normalize.CoreNormalizer Normalize.this_mapLayerOrUnit
       Normalize.mapLayerOrUnit].
  unfold Normalize.mapUnit at 1.
  cbn [repeater parentEncoding parentProjection isSome orb].
  rewrite Hu, Hr1. cbn [bind].
  rewrite mapUnitWithParent_run.
  cbn [repeater parentEncoding parentProjection config u_encoding
       u_projection Normalize.with_encoding].
  rewrite mergeProjection_run, Hr1. cbn [bind projectionWarning].
  destruct (mergeEncoding_value (Some pe) (Some e)) as [l3 H3].
  rewrite H3. cbn [bind orEmpty].
  assert (Hm : nonEmpty (assign pe e) = Some (assign pe e)).
  { destruct (assign pe e) eqn:E; [|reflexivity].
    apply assign_nil in E as [E _]. contradiction. }
  rewrite Hm.
  assert (Hmerged : forall mp,
    mp = match u_projection u with
         | None => None
         | Some JNull => None
         | Some p => Some p
         end ->
    mergedUnit (Normalize.with_encoding u (Some e)) mp
               (Some (assign pe e)) =
    Normalize.with_encoding u (Some (assign pe e))).
  { intros mp ->. unfold mergedUnit, Normalize.with_encoding.
    cbn [u_common u_mark u_encoding u_width u_height u_view u_projection
         u_selection].
    destruct (u_projection u) as [[]|]; try reflexivity;
      destruct (truthyJson _); reflexivity. }
  match goal with
  | |- context [mergedUnit ?x ?mp ?me] => rewrite (Hmerged mp eq_refl)
  end.
  cbn [Normalize.CoreNormalizer Normalize.this_mapUnit].
  rewrite mapUnit_without_parent by reflexivity.
  cbn [repeater only_config Normalize.with_encoding u_encoding].
  rewrite Hr2. cbn [bind].
  assert (Hsame :
    Normalize.with_encoding (Normalize.with_encoding u (Some (assign pe e)))
                            (Some (assign pe e)) =
    Normalize.with_encoding u (Some (assign pe e))) by reflexivity.
  rewrite Hsame.
  rewrite (tryNormalizers_none _ _ _ (only_config cfg) Hnone).
  eexists; reflexivity.
Qed.

(** A point unit with [y] and [x] under a layer that declares [x] and
    [color]. *)
Lemma layer_encoding_reaches_units_witness :
  let I := Sample.imports in
  let pe := [("x", Sample.fieldDef "a"); ("color", Sample.fieldDef "c")] in
  let e := [("y", Sample.fieldDef "b"); ("x", Sample.fieldDef "d")] in
  let u := Sample.unit "point" e in
  let merged :=
    [("x", Sample.fieldDef "d"); ("color", Sample.fieldDef "c");
     ("y", Sample.fieldDef "b")] in
  (wf e /\ wf pe /\ pe <> []) /\
  noneMatches (Normalize.nonFacetUnitNormalizers I)
              (Normalize.with_encoding u (Some (assign pe e))) Sample.cfg /\
  exists log,
    Normalize.normalize I 3 (SLayer emptyCommon (Some pe) None [SUnit u])
                        Sample.cfg =
    Done (SLayer emptyCommon None None [SUnit (Sample.unit "point" merged)])
         log.
Proof.
  intros I pe e u merged.
  assert (We : wf e).
  { unfold wf; simpl. repeat constructor; simpl; intuition discriminate. }
  assert (Wp : wf pe).
  { unfold wf; simpl. repeat constructor; simpl; intuition discriminate. }
  assert (Hne : pe <> []) by discriminate.
  assert (Hnone : noneMatches (Normalize.nonFacetUnitNormalizers I)
                    (Normalize.with_encoding u (Some (assign pe e)))
                    Sample.cfg) by (repeat constructor).
  split; [repeat split; assumption|]. split; [exact Hnone|].
  exact (proj1 (layer_encoding_reaches_units I 0 emptyCommon pe u e Sample.cfg
                  [] [] eq_refl We Wp Hne eq_refl eq_refl Hnone)).
Defined.

(** ** [getFacetMappingAndLayout] and [mapFacetedUnit] *)

(** X7: with a row or column channel, the layout properties [align],
    [center] and [spacing] of the two definitions are collected per axis (a
    property is absent when neither definition sets it, and a value such as
    [false] or [0] is kept), the definitions enter the facet mapping
    without their layout properties, and a [columns] written inside a
    row or column definition is discarded without a warning. *)
Theorem row_column_layout_is_per_axis :
  forall (I : Imports) (row column facet : option ChannelDef)
         (params : NormalizerParams),
    isSome row || isSome column = true ->
    Normalize.getFacetMappingAndLayout I row column facet params =
      Done (FacetMap
              (mkFacetMapping (option_map Normalize.withoutLayout row)
                              (option_map Normalize.withoutLayout column)),
            rowColumnLayout row column)
           (if isSome facet
            then [Warn (facetChannelDropped
                          ((if isSome row then [ROW] else []) ++
                           (if isSome column then [COLUMN] else [])))]
            else [])
    /\ columns (rowColumnLayout row column) = None
    /\ (forall def,
          cd_columns (Normalize.withoutLayout def) = None
          /\ cd_align (Normalize.withoutLayout def) = None
          /\ cd_center (Normalize.withoutLayout def) = None
          /\ cd_spacing (Normalize.withoutLayout def) = None
          /\ cd_field (Normalize.withoutLayout def) = cd_field def
          /\ cd_rest (Normalize.withoutLayout def) = cd_rest def).
Proof.
  intros I row column facet params H.
  split; [|split; [reflexivity|intros def; repeat split]].
  unfold Normalize.getFacetMappingAndLayout. rewrite H.
  destruct row as [[rf [ra|] [rc|] [rs|] rco rr]|],
           column as [[cf [ca|] [cc|] [cs|] cco cr]|];
    try discriminate; destruct facet; reflexivity.
Qed.

(** A row definition with a spacing of 0 and a column definition that is
    centered. *)
Lemma row_column_layout_is_per_axis_witness :
  let row :=
    Some (mkChannelDef (Some (FieldName "a")) None None (Some 0%Z)
                       (Some 4%Z) []) in
  let column :=
    Some (mkChannelDef (Some (FieldName "b")) None (Some true) None None []) in
  isSome row || isSome column = true /\
  Normalize.getFacetMappingAndLayout Sample.imports row column None
                                     (only_config Sample.cfg) =
  Done (FacetMap (mkFacetMapping (Some (Sample.fieldDef "a"))
                                 (Some (Sample.fieldDef "b"))),
        mkLayout None
                 (Some (PerAxis (mkRowCol None (Some true))))
                 (Some (PerAxis (mkRowCol (Some 0%Z) None)))
                 None)
       [].
Proof.
  intros row column. split; [reflexivity|].
  exact (proj1 (row_column_layout_is_per_axis Sample.imports row column None
                  (only_config Sample.cfg) eq_refl)).
Defined.

(** X8: with a facet channel only, the facet definition is what repeater
    substitution returns for the definition without its layout properties,
    and the layout is flat: [align] as given, [center] only when [true],
    [spacing] and [columns] only when not 0; the function logs nothing of
    its own.  With no row, column or facet definition at all it throws. *)
Theorem facet_only_layout_is_flat :
  forall (I : Imports) (def : ChannelDef) (params : NormalizerParams)
         (facetMapping : FacetDef) (l : list Event),
    replaceRepeaterInFacet I (Normalize.withoutLayout def) (repeater params)
      = Done facetMapping l ->
    Normalize.getFacetMappingAndLayout I None None (Some def) params =
      Done (facetMapping, facetLayout def) l
    /\ Normalize.getFacetMappingAndLayout I None None None params =
       Thrown TypeError
    /\ (cd_center def <> Some true -> center (facetLayout def) = None)
    /\ (cd_spacing def = Some 0%Z -> spacing (facetLayout def) = None)
    /\ (cd_columns def = Some 0%Z -> columns (facetLayout def) = None)
    /\ (truthyNum (cd_columns def) = true ->
        columns (facetLayout def) = cd_columns def).
Proof.
  intros I def params fm l H.
  split; [|split; [reflexivity|]].
  - unfold Normalize.getFacetMappingAndLayout. cbn [isSome orb].
    rewrite H. unfold facetLayout.
    destruct def as [f [a|] [[|]|] [sp|] co r]; cbn;
      rewrite ?app_nil_r; try reflexivity;
      destruct (Z.eqb sp 0); reflexivity.
  - unfold facetLayout. cbn [center spacing columns].
    split; [|split; [|split]].
    + intros Hc. destruct (cd_center def) as [[|]|]; try reflexivity.
      now contradiction Hc.
    + intros ->. reflexivity.
    + intros ->. reflexivity.
    + intros ->. reflexivity.
Qed.

(** A facet definition with three columns, not centered, spacing 0. *)
Lemma facet_only_layout_is_flat_witness :
  let def :=
    mkChannelDef (Some (FieldName "a")) (Some AlignEach) (Some false)
                 (Some 0%Z) (Some 3%Z) [] in
  let params := only_config Sample.cfg in
  replaceRepeaterInFacet Sample.imports (Normalize.withoutLayout def)
                         (repeater params)
    = Done (FacetField (Sample.fieldDef "a")) [] /\
  Normalize.getFacetMappingAndLayout Sample.imports None None (Some def) params
    = Done (FacetField (Sample.fieldDef "a"),
            mkLayout (Some (Flat AlignEach)) None None (Some 3%Z)) [].
Proof.
  intros def params. split; [reflexivity|].
  exact (proj1 (facet_only_layout_is_flat Sample.imports def params
                  (FacetField (Sample.fieldDef "a")) [] eq_refl)).
Defined.

(** X9: a unit whose encoding has a facet channel, and no row or column
    channel, becomes a facet node that keeps the unit's name and data and
    takes the non-zero [columns] of the facet channel as its column count;
    no warning about columns is logged (the log holds only what the
    collaborators log). *)
Theorem facet_channel_columns_reach_facet_node :
  forall (I : Imports) (this : Normalize.This) (u : UnitSpec)
         (params : NormalizerParams) (enc : Encoding) (def def' : ChannelDef)
         (replaced : option Encoding) (inner' : Spec)
         (l0 l1 l2 : list Event),
    u_encoding u = Some enc ->
    lookup ROW enc = None ->
    lookup COLUMN enc = None ->
    lookup FACET enc = Some def ->
    channelHasField I (Some enc) ROW || channelHasField I (Some enc) COLUMN
      || channelHasField I (Some enc) FACET = true ->
    truthyNum (cd_columns def) = true ->
    replaceRepeaterInFacet I (Normalize.withoutLayout def) (repeater params)
      = Done (FacetField def') l0 ->
    replaceRepeaterInEncoding I (Some (omit enc [ROW; COLUMN; FACET]))
                              (repeater params) = Done replaced l1 ->
    Normalize.this_map this (SUnit (innerUnit u replaced)) params
      = Done inner' l2 ->
    exists c',
      Normalize.map I this (SUnit u) params =
        Done (SFacet c' (FacetField def') inner') (l0 ++ l1 ++ l2)
      /\ columns (layout c') = cd_columns def
      /\ name c' = name (u_common u)
      /\ data c' = data (u_common u)
      /\ resolve c' = resolve (u_common u)
      /\ rest c' = rest (u_common u).
Proof.
  intros I this u params enc def def' replaced inner' l0 l1 l2
         Henc Hrow Hcol Hfacet Hdispatch Hcols Hf Hrepl Hinner.
  destruct (facet_only_layout_is_flat I def params _ _ Hf) as (Hfl & _).
  eexists. split.
  - unfold Normalize.map. rewrite Henc, Hdispatch.
    unfold Normalize.mapFacetedUnit.
    rewrite Henc, Hrow, Hcol, Hfacet, Hfl. cbn [bind fst snd].
    rewrite Hrepl. cbn [bind]. fold (innerUnit u replaced).
    rewrite mapFacet_run. unfold columnsWarning.
    cbn [Normalize.isFacetMapping andb]. rewrite Hinner.
    cbn [bind ret app]. rewrite !app_nil_r. reflexivity.
  - cbn [layout columns name data resolve rest Normalize.spreadLayout
         facetLayout].
    rewrite Hcols. repeat split.
    unfold truthyNum in Hcols. destruct (cd_columns def); [reflexivity|].
    discriminate.
Qed.

(** A named unit with data and a facet channel that asks for 3 columns. *)
Lemma facet_channel_columns_reach_facet_node_witness :
  let I := Sample.imports in
  let this := Normalize.CoreNormalizer I 3 in
  let def := mkChannelDef (Some (FieldName "a")) None None None (Some 3%Z) [] in
  let enc := [("facet", def); ("x", Sample.fieldDef "b")] in
  let u :=
    mkUnitSpec (mkCommon (Some "chart") (Some (JStr "cars")) emptyLayout None [])
               (JStr "point") (Some enc) None None None None None in
  let inner := SUnit (Sample.unit "point" [("x", Sample.fieldDef "b")]) in
  truthyNum (cd_columns def) = true /\
  exists c',
    Normalize.map I this (SUnit u) (only_config Sample.cfg) =
      Done (SFacet c' (FacetField (Sample.fieldDef "a")) inner)
           (events (Normalize.this_map this inner (only_config Sample.cfg)))
    /\ columns (layout c') = Some 3%Z
    /\ name c' = Some "chart"
    /\ data c' = Some (JStr "cars").
Proof.
  intros I this def enc u inner. split; [reflexivity|].
  assert (Hinner :
    Normalize.this_map this
      (SUnit (innerUnit u (Some [("x", Sample.fieldDef "b")])))
      (only_config Sample.cfg) =
    Done inner
         (events (Normalize.this_map this inner (only_config Sample.cfg))))
    by (vm_compute; reflexivity).
  destruct (facet_channel_columns_reach_facet_node I this u
              (only_config Sample.cfg) enc def (Sample.fieldDef "a")
              (Some [("x", Sample.fieldDef "b")]) inner [] [] _
              eq_refl eq_refl eq_refl eq_refl eq_refl eq_refl eq_refl eq_refl
              Hinner) as (c' & Hrun & Hc & Hn & Hd & _).
  exists c'. repeat split; assumption.
Defined.

(** ** More on [mapRepeat] *)

Section MoreMapRepeatFacts.
Import Normalize.
Variable I : Imports.
Variable this : This.

Lemma expandChild_results childSpec params ts :
  forall children l,
    mapM (expandChild I this childSpec params) ts = Done children l ->
    Forall2 (fun t child =>
               data (common_of child) = None /\
               name (common_of child) = Some (childNameOf I t))
            ts children.
Proof.
  induction ts as [|t ts IH]; intros children l H.
  - inversion H; constructor.
  - rewrite mapM_cons in H.
    apply bind_Done_inv in H as (child & l1 & l2 & Hc & H & _).
    apply bind_Done_inv in H as (rest & l3 & l4 & Hrest & H & _).
    inversion H; subst. constructor; [|now apply (IH rest l3)].
    unfold expandChild in Hc.
    apply bind_Done_inv in Hc as (k & l5 & l6 & _ & Hk & _).
    inversion Hk; subst.
    split; [apply finishChild_data|apply finishChild_name].
Qed.

Lemma Forall2_Forall_r {A B : Type} (P : A -> B -> Prop) (Q : B -> Prop)
      (xs : list A) (ys : list B) :
  Forall2 P xs ys -> (forall x y, P x y -> Q y) -> Forall Q ys.
Proof.
  intros F HPQ. induction F as [|x y xs ys Hxy _ IH]; constructor; eauto.
Qed.

Lemma crossProduct_nil {A : Type} (rs ros cos : list A) :
  In [] [rs; ros; cos] -> crossProduct rs ros cos = [].
Proof.
  intros H. apply length_zero_iff_nil. rewrite crossProduct_length.
  destruct H as [->|[->|[->|[]]]]; simpl; lia.
Qed.
End MoreMapRepeatFacts.

(** X10: whatever [mapRepeat] returns is a concatenation, never a repeat;
    none of its children carries data (the data is moved up to the
    concatenation), and every child has a name, also when the normalized
    template had its own or none. *)
Theorem mapRepeat_children_carry_no_data :
  forall (I : Imports) (this : Normalize.This) (c : Common)
         (repeat : RepeatDef) (childSpec : Spec) (params : NormalizerParams)
         (s : Spec) (log : list Event),
    Normalize.mapRepeat I this c repeat childSpec params = Done s log ->
    exists wrapper children,
      s = SConcat wrapper children
      /\ Forall (fun child => data (common_of child) = None) children
      /\ Forall (fun child => name (common_of child) <> None) children
      /\ name wrapper = name c
      /\ resolve wrapper = resolve c
      /\ rest wrapper = rest c.
Proof.
  intros I this c repeat childSpec params s log H.
  rewrite mapRepeat_run in H.
  apply bind_Done_inv in H as (u & l1 & l2 & _ & H & _).
  apply bind_Done_inv in H as (children & l3 & l4 & Hkids & H & _).
  inversion H; subst.
  exists (repeatWrapper repeat c childSpec), children.
  split; [reflexivity|].
  pose proof (expandChild_results I this childSpec params _ _ _ Hkids) as F.
  split; [|split; [|repeat split]].
  - apply (Forall2_Forall_r _ _ _ _ F). now intros t child [Hd _].
  - apply (Forall2_Forall_r _ _ _ _ F). intros t child [_ Hn].
    now rewrite Hn.
Qed.

(** A flat repeat over a template that has data and a name. *)
Lemma mapRepeat_children_carry_no_data_witness :
  let I := Sample.imports in
  let this := Normalize.CoreNormalizer I 2 in
  let template :=
    SUnit (mkUnitSpec
             (mkCommon (Some "mine") (Some (JStr "cars")) emptyLayout None [])
             (JStr "point") (Some [("x", Sample.repeatDef "repeat")])
             None None None None None) in
  exists s log,
    Normalize.mapRepeat I this emptyCommon (RepeatFlat ["a"; "b"]) template
                        (only_config Sample.cfg) = Done s log
    /\ exists wrapper children,
         s = SConcat wrapper children
         /\ Forall (fun child => data (common_of child) = None) children
         /\ Forall (fun child => name (common_of child) <> None) children.
Proof.
  intros I this template.
  destruct (Normalize.mapRepeat I this emptyCommon (RepeatFlat ["a"; "b"])
              template (only_config Sample.cfg)) as [s log|e] eqn:E;
    [|vm_compute in E; discriminate].
  exists s, log. split; [reflexivity|].
  destruct (mapRepeat_children_carry_no_data I this emptyCommon _ template
              (only_config Sample.cfg) s log E)
    as (wrapper & children & Hs & Hdata & Hname & _).
  exists wrapper, children. repeat split; assumption.
Defined.

(** X11: when one of the three value sequences is empty (a flat repeat
    over no value, or an empty row or column list), [mapRepeat] returns a
    concatenation without children and never normalizes the template; its
    log holds at most the columns warning.  For an empty column list the
    column count of the concatenation is 0. *)
Theorem mapRepeat_over_empty_sequence :
  forall (I : Imports) (this : Normalize.This) (c : Common)
         (repeat : RepeatDef) (childSpec : Spec) (params : NormalizerParams),
    In [] [Normalize.repeatValues repeat (repeater params);
           Normalize.rowValues repeat (repeater params);
           Normalize.columnValues repeat (repeater params)] ->
    Normalize.mapRepeat I this c repeat childSpec params =
      Done (SConcat (repeatWrapper repeat c childSpec) [])
           (columnsWarning (negb (Normalize.isArray repeat)) c "repeat")
    /\ (forall row,
          repeat = RepeatRowCol row (Some []) ->
          columns (layout (repeatWrapper repeat c childSpec)) = Some 0%Z).
Proof.
  intros I this c repeat childSpec params H. split.
  - rewrite mapRepeat_run. unfold bindings.
    rewrite (crossProduct_nil _ _ _ H). rewrite mapM_nil.
    cbn [bind ret]. now rewrite !app_nil_r.
  - intros row ->. reflexivity.
Qed.

(** A flat repeat over no value, run by a normalizer that could not
    normalize anything. *)
Lemma mapRepeat_over_empty_sequence_witness :
  let I := Sample.imports in
  let this := Normalize.CoreNormalizer I 0 in
  let template := SUnit (Sample.unit "point" []) in
  let params := only_config Sample.cfg in
  In [] [Normalize.repeatValues (RepeatFlat []) (repeater params);
         Normalize.rowValues (RepeatFlat []) (repeater params);
         Normalize.columnValues (RepeatFlat []) (repeater params)] /\
  Normalize.mapRepeat I this (Sample.named "grid") (RepeatFlat []) template
                      params =
  Done (SConcat (Sample.named "grid") []) [].
Proof.
  intros I this template params.
  assert (H : In [] [Normalize.repeatValues (RepeatFlat []) (repeater params);
                     Normalize.rowValues (RepeatFlat []) (repeater params);
                     Normalize.columnValues (RepeatFlat []) (repeater params)])
    by (left; reflexivity).
  split; [exact H|].
  exact (proj1 (mapRepeat_over_empty_sequence I this (Sample.named "grid")
                  (RepeatFlat []) template params H)).
Defined.

(** X12: a row/column repeat that declares neither rows nor columns, with
    no repeater inherited, yields exactly one child: the template
    normalized under the binding that is null in every dimension; its name
    is set to the empty string and the concatenation gets one column. *)
Theorem mapRepeat_without_values :
  forall (I : Imports) (this : Normalize.This) (c : Common)
         (childSpec : Spec) (params : NormalizerParams) (child : Spec)
         (l : list Event),
    repeater params = None ->
    Normalize.this_map this childSpec
      (with_repeater params (mkRepeaterValue None None None)) = Done child l ->
    exists wrapper,
      Normalize.mapRepeat I this c (RepeatRowCol None None) childSpec params =
        Done (SConcat wrapper [omit_data (set_name child "")])
             (columnsWarning true c "repeat" ++ l)
      /\ columns (layout wrapper) = Some 1%Z
      /\ name (common_of (omit_data (set_name child ""))) = Some "".
Proof.
  intros I this c childSpec params child l Hrep Hchild.
  exists (repeatWrapper (RepeatRowCol None None) c childSpec).
  split; [|split; [reflexivity|destruct child; reflexivity]].
  rewrite mapRepeat_run. unfold bindings.
  cbn [Normalize.repeatValues Normalize.rowValues Normalize.columnValues
       Normalize.isArray negb].
  rewrite Hrep. cbn [crossProduct flat_map List.map app].
  rewrite mapM_cons, mapM_nil. unfold expandChild at 1.
  unfold bindingOf. cbn [fst snd]. rewrite Hchild.
  unfold finishChild, childNameOf, Normalize.childName, Normalize.nameToken.
  cbn [bind ret fst snd String.append app].
  rewrite !app_nil_r. reflexivity.
Qed.

(** The repeat [{}] over a named template. *)
Lemma mapRepeat_without_values_witness :
  let I := Sample.imports in
  let this := Normalize.CoreNormalizer I 2 in
  let template :=
    SUnit (mkUnitSpec (Sample.named "mine") (JStr "point")
                      (Some [("x", Sample.fieldDef "a")])
                      None None None None None) in
  let params := only_config Sample.cfg in
  repeater params = None /\
  exists wrapper log,
    Normalize.mapRepeat I this emptyCommon (RepeatRowCol None None) template
                        params =
      Done (SConcat wrapper
              [SUnit (mkUnitSpec (Sample.named "") (JStr "point")
                                 (Some [("x", Sample.fieldDef "a")])
                                 None None None None None)])
           log
    /\ columns (layout wrapper) = Some 1%Z.
Proof.
  intros I this template params. split; [reflexivity|].
  destruct (value_Done
              (Normalize.this_map this template
                 (with_repeater params (mkRepeaterValue None None None)))
              template) as [l Hl]; [vm_compute; reflexivity|].
  destruct (mapRepeat_without_values I this emptyCommon template params
              template l eq_refl Hl) as (wrapper & Hrun & Hc & _).
  exists wrapper. eexists. split; [exact Hrun|exact Hc].
Defined.

(** ** Model trees *)

(** Induction over a model tree, with the property known for the children
    of a concat model. *)
Lemma Model_tree_ind {Other : Type} (P : Compile.Model Other -> Prop) :
  (forall o, P (Compile.OtherModel o)) ->
  (forall base concatType children,
      Forall P children -> P (Compile.ConcatModel base concatType children)) ->
  forall m, P m.
Proof.
  intros Ho Hc. fix IH 1. intros [o|base concatType children]; [apply Ho|].
  apply Hc. induction children as [|child children IHc]; constructor;
    [apply IH|exact IHc].
Qed.

(** ** More on [ConcatModel.parseSelections] *)

Section NestedSelectionFacts.
Context {Other : Type}.
Variable X : Compile.Imports Other.

Lemma fold_pick_init key (objs : list (Obj Compile.SelectionComponent))
      found :
  fold_left (pick key) objs found =
  match fold_left (pick key) objs None with
  | Some v => Some v
  | None => found
  end.
Proof.
  revert found. induction objs as [|o objs IH]; intros found; [reflexivity|].
  cbn [fold_left]. rewrite IH. rewrite (IH (pick key None o)).
  destruct (fold_left (pick key) objs None); [reflexivity|].
  unfold pick. now destruct (lookup key o).
Qed.

(** What the loop of [parseSelections] has done when it returns. *)
Lemma parseSelections_loop_inv children :
  forall kids0 sel0 r l,
    foldM (Compile.parseSelectionsStep X (Compile.parseSelections X))
          children (kids0, sel0) = Done r l ->
    exists parsed,
      Forall2 (fun child child' =>
                 exists l', Compile.parseSelections X child = Done child' l')
              children parsed
      /\ Forall (fun child' => Compile.selection_of X child' <> None) parsed
      /\ r = (kids0 ++ parsed,
              fold_left
                (fun acc child =>
                   Compile.mergeSelection acc
                     (orEmpty (Compile.selection_of X child)))
                parsed sel0).
Proof.
  induction children as [|child children IH]; intros kids0 sel0 r l H.
  - inversion H; subst. exists []. rewrite app_nil_r.
    repeat split; constructor.
  - rewrite foldM_cons in H.
    apply bind_Done_inv in H as (acc & l1 & l2 & Hstep & H & _).
    unfold Compile.parseSelectionsStep in Hstep.
    apply bind_Done_inv in Hstep as (child' & l3 & l4 & Hc & Hstep & _).
    destruct (Compile.selection_of X child') as [sel|] eqn:Esel;
      [|discriminate].
    inversion Hstep; subst acc. cbn [fst snd] in H.
    apply IH in H as (parsed & F & Hsel & ->).
    exists (child' :: parsed). split; [|split].
    + constructor; [now exists l3|exact F].
    + constructor; [now rewrite Esel|exact Hsel].
    + cbn [fold_left]. rewrite Esel, <- app_assoc. reflexivity.
Qed.

Lemma parseSelections_concat_inv base concatType children m' log :
  Compile.parseSelections X (Compile.ConcatModel base concatType children)
    = Done m' log ->
  exists parsed,
    Forall2 (fun child child' =>
               exists l', Compile.parseSelections X child = Done child' l')
            children parsed
    /\ Forall (fun child' => Compile.selection_of X child' <> None) parsed
    /\ m' = Compile.ConcatModel
              (Compile.with_selection base (mergedSelections X parsed))
              concatType parsed.
Proof.
  rewrite parseSelections_concat. intros H.
  apply bind_Done_inv in H as (r & l1 & l2 & Hloop & Hret & _).
  apply parseSelections_loop_inv in Hloop as (parsed & F & Hsel & ->).
  inversion Hret; subst. exists parsed. repeat split; assumption.
Qed.

Lemma parseSelections_bubbles_up m :
  forall m' log sel key,
    Compile.parseSelections X m = Done m' log ->
    Compile.selection_of X m' = Some sel ->
    lookup key sel = lastDefinition key (leafSelections X m').
Proof.
  induction m as [o|base concatType children IH] using Model_tree_ind;
    intros m' log sel key Hparse Hsel.
  - cbn [Compile.parseSelections] in Hparse.
    apply bind_Done_inv in Hparse as (o' & l1 & l2 & _ & Hret & _).
    inversion Hret; subst. cbn [Compile.selection_of] in Hsel.
    cbn [leafSelections]. rewrite Hsel. unfold lastDefinition.
    cbn [fold_left orEmpty]. unfold pick. now destruct (lookup key sel).
  - apply parseSelections_concat_inv in Hparse as (parsed & F & Hhas & ->).
    cbn [Compile.selection_of Compile.with_selection Compile.base_component
         Compile.selection] in Hsel.
    inversion Hsel; subst sel. clear Hsel.
    unfold mergedSelections. rewrite mergedSelections_lookup.
    cbn [leafSelections lookup]. unfold lastDefinition.
    generalize (@None Compile.SelectionComponent) as found.
    induction F as [|child child' children parsed [l' Hc] F IHF];
      intros found; [reflexivity|].
    inversion IH as [|? ? IHchild IHrest]; subst.
    inversion Hhas as [|? ? Hchild' Hrest]; subst.
    cbn [fold_left flat_map]. rewrite fold_left_app.
    rewrite (IHF IHrest Hrest).
    f_equal. fold (pick key found (orEmpty (Compile.selection_of X child'))).
    destruct (Compile.selection_of X child') as [sel'|] eqn:Esel';
      [|contradiction].
    cbn [orEmpty]. unfold pick at 1.
    rewrite (IHchild child' l' sel' key Hc Esel').
    unfold lastDefinition.
    symmetry. apply fold_pick_init.
Qed.

(** A key is in the merged mapping exactly when a child defines it. *)
Lemma mergedSelections_keys parsed key :
  isSome (lookup key (mergedSelections X parsed)) =
  existsb (fun child =>
             isSome (lookup key (orEmpty (Compile.selection_of X child))))
          parsed.
Proof.
  unfold mergedSelections. rewrite mergedSelections_lookup.
  change (lookup key []) with (@None Compile.SelectionComponent).
  assert (H : forall found,
    isSome (fold_left
              (fun found child =>
                 pick key found (orEmpty (Compile.selection_of X child)))
              parsed found) =
    isSome found ||
    existsb (fun child =>
               isSome (lookup key (orEmpty (Compile.selection_of X child))))
            parsed).
  { induction parsed as [|child parsed IH]; intros found; cbn [fold_left existsb].
    - now rewrite orb_false_r.
    - rewrite IH. unfold pick.
      destruct (lookup key (orEmpty (Compile.selection_of X child)));
        destruct found; reflexivity. }
  now rewrite H.
Qed.
End NestedSelectionFacts.

(** X13: after [parseSelections] the mapping of a concat model has a key
    exactly when one of its children, after parsing, defines that key:
    nothing a child defines is lost, and nothing else is in the mapping
    (also no entry the model held before). *)
Theorem parseSelections_has_the_childrens_keys :
  forall (Other : Type) (X : Compile.Imports Other)
         (base : Compile.ModelBase) (concatType : Compile.ConcatType)
         (children : list (Compile.Model Other)) (m' : Compile.Model Other)
         (log : list Event),
    Compile.parseSelections X (Compile.ConcatModel base concatType children)
      = Done m' log ->
    exists parsed merged,
      m' = Compile.ConcatModel (Compile.with_selection base merged)
                               concatType parsed
      /\ Compile.selection_of X m' = Some merged
      /\ List.length parsed = List.length children
      /\ (forall key,
            isSome (lookup key merged) =
            existsb
              (fun child =>
                 isSome (lookup key
                           (orEmpty (Compile.selection_of X child))))
              parsed).
Proof.
  intros Other X base concatType children m' log H.
  apply parseSelections_concat_inv in H as (parsed & F & _ & ->).
  exists parsed, (mergedSelections X parsed).
  split; [reflexivity|]. split; [reflexivity|].
  split; [symmetry; exact (Forall2_length F)|].
  intros key. apply mergedSelections_keys.
Qed.

(** A concat model that held a stale selection, over two leaves. *)
Lemma parseSelections_has_the_childrens_keys_witness :
  let X := SampleModel.imports in
  let stale :=
    Compile.with_selection (SampleModel.base "grid") [("old", JStr "stale")] in
  let children :=
    [SampleModel.leaf "a" [("brush", JStr "interval")];
     SampleModel.leaf "b" [("pick", JStr "single")]] in
  exists m' log,
    Compile.parseSelections X
      (Compile.ConcatModel stale Compile.concat children) = Done m' log
    /\ exists parsed merged,
         m' = Compile.ConcatModel (Compile.with_selection stale merged)
                                  Compile.concat parsed
         /\ Compile.selection_of X m' = Some merged
         /\ isSome (lookup "old" merged) = false
         /\ isSome (lookup "pick" merged) = true.
Proof.
  intros X stale children.
  destruct (Compile.parseSelections X
              (Compile.ConcatModel stale Compile.concat children))
    as [m' log|e] eqn:E; [|vm_compute in E; discriminate].
  exists m', log. split; [reflexivity|].
  destruct (parseSelections_has_the_childrens_keys SampleModel.Leaf X stale
              Compile.concat children m' log E)
    as (parsed & merged & Hm & Hsel & _ & Hkeys).
  exists parsed, merged. split; [exact Hm|]. split; [exact Hsel|].
  rewrite !Hkeys.
  assert (Hv : value (Compile.parseSelections X
                        (Compile.ConcatModel stale Compile.concat children))
               = Some m') by (rewrite E; reflexivity).
  vm_compute in Hv. injection Hv as <-.
  injection Hm as _ <-. split; reflexivity.
Defined.

(** X14: selections travel up through nested concat models: after
    [parseSelections], the mapping of the root gives every key the
    definition of the last leaf of the tree (in the order of the children,
    at every depth) that defines it. *)
Theorem parseSelections_bubbles_up_the_tree :
  forall (Other : Type) (X : Compile.Imports Other)
         (m m' : Compile.Model Other) (log : list Event)
         (sel : Obj Compile.SelectionComponent) (key : string),
    Compile.parseSelections X m = Done m' log ->
    Compile.selection_of X m' = Some sel ->
    lookup key sel = lastDefinition key (leafSelections X m').
Proof.
  intros Other X m m' log sel key. apply parseSelections_bubbles_up.
Qed.

(** Two levels of concat models whose leaves define [brush] and [zoom]. *)
Lemma parseSelections_bubbles_up_the_tree_witness :
  let X := SampleModel.imports in
  let inner :=
    Compile.ConcatModel (SampleModel.base "inner") Compile.vconcat
      [SampleModel.leaf "b" [("brush", JStr "multi")];
       SampleModel.leaf "c" [("zoom", JStr "interval")]] in
  let m :=
    Compile.ConcatModel (SampleModel.base "outer") Compile.hconcat
      [SampleModel.leaf "a" [("brush", JStr "single")]; inner] in
  exists m' log sel,
    Compile.parseSelections X m = Done m' log
    /\ Compile.selection_of X m' = Some sel
    /\ lookup "brush" sel = lastDefinition "brush" (leafSelections X m')
    /\ lookup "brush" sel = Some (JStr "multi")
    /\ lookup "zoom" sel = Some (JStr "interval").
Proof.
  intros X inner m.
  destruct (Compile.parseSelections X m) as [m' log|e] eqn:E;
    [|vm_compute in E; discriminate].
  destruct (Compile.selection_of X m') as [sel|] eqn:Esel;
    [|vm_compute in E; inversion E; subst; discriminate].
  exists m', log, sel. split; [reflexivity|]. split; [exact Esel|].
  split;
    [exact (parseSelections_bubbles_up_the_tree SampleModel.Leaf X m m' log
              sel "brush" E Esel)|].
  assert (Hv : value (Compile.parseSelections X m) = Some m')
    by (rewrite E; reflexivity).
  vm_compute in Hv. injection Hv as <-.
  vm_compute in Esel. injection Esel as <-. split; reflexivity.
Defined.

(** ** More on the constructor of [ConcatModel] *)

Lemma mapMi_cons {A B : Type} (f : nat -> A -> M B) (i : nat) (x : A)
      (xs : list A) :
  mapMi f i (x :: xs) =
  (y <- f i x ;; ys <- mapMi f (S i) xs ;; ret (y :: ys)).
Proof. reflexivity. Qed.

Lemma mapMi_nth {A B : Type} (f : nat -> A -> M B) (xs : list A) :
  forall i ys l,
    mapMi f i xs = Done ys l ->
    List.length ys = List.length xs
    /\ forall j x,
         nth_error xs j = Some x ->
         exists y l', f (i + j) x = Done y l' /\ nth_error ys j = Some y.
Proof.
  induction xs as [|x xs IH]; intros i ys l H.
  - inversion H; subst. split; [reflexivity|]. intros [|j] x'; discriminate.
  - rewrite mapMi_cons in H.
    apply bind_Done_inv in H as (y & l1 & l2 & Hy & H & _).
    apply bind_Done_inv in H as (ys' & l3 & l4 & Hys & H & _).
    inversion H; subst. destruct (IH _ _ _ Hys) as [Hlen Hnth].
    split; [simpl; now rewrite Hlen|].
    intros [|j] x' Hx; cbn [nth_error] in *.
    + inversion Hx; subst. rewrite Nat.add_0_r. now exists y, l1.
    + destruct (Hnth j x' Hx) as (y' & l' & Hf & Hn).
      exists y', l'. split; [|exact Hn].
      now replace (i + S j) with (S i + j) by lia.
Qed.

Lemma concatChildName_inj (i j : nat) :
  Compile.concatChildName i = Compile.concatChildName j -> i = j.
Proof.
  unfold Compile.concatChildName. intros H.
  assert (Hs : DecimalString.NilZero.string_of_uint (Nat.to_uint i) =
               DecimalString.NilZero.string_of_uint (Nat.to_uint j))
    by (cbn in H; now inversion H).
  assert (Hnn : forall n, Nat.to_uint n <> Decimal.Nil).
  { intros n E.
    pose proof (DecimalNat.Unsigned.to_of (Nat.to_uint n)) as H0.
    rewrite DecimalNat.Unsigned.of_to, E in H0. discriminate. }
  apply (f_equal DecimalString.NilZero.uint_of_string) in Hs.
  rewrite !DecimalString.NilZero.usu in Hs by apply Hnn.
  inversion Hs. now apply DecimalNat.Unsigned.to_uint_inj.
Qed.



(** ** The assemble phases of [ConcatModel] *)

Section AssembleFacts.
Context {Other : Type}.
Variable Y : ConcatPhases.Methods Other.

Lemma fold_left_app_flat_map {A B : Type} (f : A -> list B) (xs : list A)
      (init : list B) :
  fold_left (fun acc x => acc ++ f x) xs init = init ++ flat_map f xs.
Proof.
  revert init. induction xs as [|x xs IH]; intros init; cbn [fold_left flat_map].
  - now rewrite app_nil_r.
  - now rewrite IH, app_assoc.
Qed.

Lemma flat_map_flat_map {A B C : Type} (f : A -> list B) (g : B -> list C)
      (xs : list A) :
  flat_map g (flat_map f xs) = flat_map (fun x => flat_map g (f x)) xs.
Proof.
  induction xs as [|x xs IH]; [reflexivity|].
  cbn [flat_map]. now rewrite flat_map_app, IH.
Qed.

Lemma flat_map_ext_Forall {A B : Type} (f g : A -> list B) (xs : list A) :
  Forall (fun x => f x = g x) xs -> flat_map f xs = flat_map g xs.
Proof.
  induction 1 as [|x xs Hx _ IH]; [reflexivity|].
  cbn [flat_map]. now rewrite Hx, IH.
Qed.

Lemma assembleLayoutSignals_concat base concatType children :
  ConcatPhases.assembleLayoutSignals
    Y (Compile.ConcatModel base concatType children) =
  fold_left
    (fun signals child =>
       signals ++ ConcatPhases.assembleLayoutSignals Y child)
    children
    (ConcatPhases.layout_assembleLayoutSignals
       Y (Compile.ConcatModel base concatType children)).
Proof. reflexivity. Qed.

Lemma assembleSelectionTopLevelSignals_concat base concatType children sg :
  ConcatPhases.assembleSelectionTopLevelSignals
    Y (Compile.ConcatModel base concatType children) sg =
  fold_left
    (fun sg child => ConcatPhases.assembleSelectionTopLevelSignals Y child sg)
    children sg.
Proof. reflexivity. Qed.

Lemma assembleSelectionData_concat base concatType children data :
  ConcatPhases.assembleSelectionData
    Y (Compile.ConcatModel base concatType children) data =
  fold_left
    (fun db child => ConcatPhases.assembleSelectionData Y child db)
    children data.
Proof. reflexivity. Qed.

(** A fold that threads a value through the children, each child threading
    it through its leaves, threads it through all the leaves. *)
Lemma fold_children_leaves {S : Type}
      (perModel : Compile.Model Other -> S -> S) (perLeaf : Other -> S -> S)
      (children : list (Compile.Model Other)) :
  Forall (fun child =>
            forall s, perModel child s =
                      fold_left (fun s o => perLeaf o s) (leaves child) s)
         children ->
  forall s,
    fold_left (fun s child => perModel child s) children s =
    fold_left (fun s o => perLeaf o s) (flat_map leaves children) s.
Proof.
  induction 1 as [|child children Hc _ IH]; intros s; [reflexivity|].
  cbn [fold_left flat_map]. now rewrite fold_left_app, IH, Hc.
Qed.
End AssembleFacts.

(** X16: the layout signals a model tree assembles are the signals each of
    its models contributes itself, taken in pre-order: a concat model's
    own before those of its children, the children in their order. *)
Theorem assembleLayoutSignals_in_preorder :
  forall (Other : Type) (Y : ConcatPhases.Methods Other)
         (m : Compile.Model Other),
    ConcatPhases.assembleLayoutSignals Y m =
    flat_map (ownLayoutSignals Y) (preorder m).
Proof.
  intros Other Y.
  induction m as [o|base concatType children IH] using Model_tree_ind.
  - cbn. now rewrite app_nil_r.
  - rewrite assembleLayoutSignals_concat, fold_left_app_flat_map.
    cbn [preorder flat_map ownLayoutSignals]. f_equal.
    rewrite flat_map_flat_map. now apply flat_map_ext_Forall.
Qed.

(** X17: a concat model adds nothing of its own to the top-level selection
    signals and to the selection data: in both, the value given is threaded
    through the leaves of the tree, in the order of the children at every
    depth. *)
Theorem assembleSelection_threads_through_leaves :
  forall (Other : Type) (Y : ConcatPhases.Methods Other)
         (m : Compile.Model Other) (given : list Json),
    ConcatPhases.assembleSelectionTopLevelSignals Y m given =
      fold_left
        (fun sg o =>
           ConcatPhases.other_assembleSelectionTopLevelSignals Y o sg)
        (leaves m) given
    /\ ConcatPhases.assembleSelectionData Y m given =
       fold_left
         (fun db o => ConcatPhases.other_assembleSelectionData Y o db)
         (leaves m) given.
Proof.
  intros Other Y m.
  induction m as [o|base concatType children IH] using Model_tree_ind;
    intros given; [split; reflexivity|].
  rewrite assembleSelectionTopLevelSignals_concat,
          assembleSelectionData_concat.
  cbn [leaves]. split.
  - apply (fold_children_leaves
             (ConcatPhases.assembleSelectionTopLevelSignals Y)
             (ConcatPhases.other_assembleSelectionTopLevelSignals Y)).
    eapply Forall_impl; [|exact IH]. intros child Hc s. apply Hc.
  - apply (fold_children_leaves
             (ConcatPhases.assembleSelectionData Y)
             (ConcatPhases.other_assembleSelectionData Y)).
    eapply Forall_impl; [|exact IH]. intros child Hc s. apply Hc.
Qed.

(** ** [assembleMarks] *)

Section AssembleMarksFacts.
Context {Other : Type}.
Variable Y : ConcatPhases.Methods Other.

Lemma wf_optional_entry {A : Type} (key : string) (f : A -> Json)
      (x : option A) :
  wf (match x with Some v => [(key, f v)] | None => [] end).
Proof.
  unfold wf. destruct x; simpl; repeat constructor. intros [].
Qed.

Lemma groupHead_lookup child key :
  lookup key (groupHead Y child) =
  if String.eqb key "type" then Some (JStr "group")
  else if String.eqb key "name"
       then Some (JStr (ConcatPhases.child_getName Y child "group"))
  else if String.eqb key "title"
       then (if truthyJson (ConcatPhases.assembleTitle Y child)
             then ConcatPhases.assembleTitle Y child
             else None)
  else if String.eqb key "style"
       then (if truthyStr (ConcatPhases.assembleGroupStyle Y child)
             then option_map JStr (ConcatPhases.assembleGroupStyle Y child)
             else None)
  else if String.eqb key "encode"
       then (if truthyJson
                  (ConcatPhases.assembleGroupEncodeEntry Y child false)
             then option_map
                    (fun e => JObj [("update", e)])
                    (ConcatPhases.assembleGroupEncodeEntry Y child false)
             else None)
  else None.
Proof.
  unfold groupHead.
  destruct (ConcatPhases.assembleTitle Y child) as [t|];
    try destruct (truthyJson (Some t));
    destruct (ConcatPhases.assembleGroupStyle Y child) as [st|];
    try destruct (truthyStr (Some st));
    destruct (ConcatPhases.assembleGroupEncodeEntry Y child false) as [e|];
    try destruct (truthyJson (Some e));
    cbn [assign fold_left set fst snd String.eqb Ascii.eqb Bool.eqb
         lookup option_map];
    repeat match goal with
           | |- context [String.eqb key ?s] =>
               let E := fresh "E" in
               destruct (String.eqb key s) eqn:E;
               [apply String.eqb_eq in E; subst key; reflexivity|]
           end;
    reflexivity.
Qed.
End AssembleMarksFacts.

(** X18: [assembleMarks] gives one group per child, in the order of the
    children.  The child's own assembled group is spread last, so each of
    its entries is in the result as it is; only where it has no such entry
    does the group get the type ["group"], the child's group name, the
    child's title, its non-empty style and its encode entry (under
    [update]), and a title, style or encode entry that is absent or falsy
    leaves no key behind. *)
Theorem assembleMarks_one_group_per_child :
  forall (Other : Type) (Y : ConcatPhases.Methods Other)
         (children : list (Compile.Model Other)) (i : nat)
         (child : Compile.Model Other),
    nth_error children i = Some child ->
    wf (ConcatPhases.assembleGroup Y child) ->
    List.length (ConcatPhases.assembleMarks Y children) = List.length children
    /\ exists group,
         nth_error (ConcatPhases.assembleMarks Y children) i = Some group
         /\ forall key,
              lookup key group =
              match lookup key (ConcatPhases.assembleGroup Y child) with
              | Some v => Some v
              | None =>
                  if String.eqb key "type" then Some (JStr "group")
                  else if String.eqb key "name"
                  then Some (JStr (ConcatPhases.child_getName Y child "group"))
                  else if String.eqb key "title"
                  then (if truthyJson (ConcatPhases.assembleTitle Y child)
                        then ConcatPhases.assembleTitle Y child
                        else None)
                  else if String.eqb key "style"
                  then (if truthyStr (ConcatPhases.assembleGroupStyle Y child)
                        then option_map
                               JStr (ConcatPhases.assembleGroupStyle Y child)
                        else None)
                  else if String.eqb key "encode"
                  then (if truthyJson
                             (ConcatPhases.assembleGroupEncodeEntry
                                Y child false)
                        then option_map
                               (fun e => JObj [("update", e)])
                               (ConcatPhases.assembleGroupEncodeEntry
                                  Y child false)
                        else None)
                  else None
              end.
Proof.
  intros Other Y children i child Hi Hwf.
  split; [apply length_map|].
  exists (ConcatPhases.assembleMarkGroup Y child). split.
  - unfold ConcatPhases.assembleMarks. rewrite nth_error_map, Hi. reflexivity.
  - intros key.
    change (ConcatPhases.assembleMarkGroup Y child)
      with (assign (groupHead Y child) (ConcatPhases.assembleGroup Y child)).
    rewrite lookup_assign by assumption.
    now rewrite groupHead_lookup.
Qed.

(** A titled leaf and a plain one (no title, empty style). *)
Lemma assembleMarks_one_group_per_child_witness :
  let Y := SamplePhases.methods in
  let children := [SampleModel.leaf "a" []; SampleModel.leaf "plain" []] in
  (wf (ConcatPhases.assembleGroup Y (SampleModel.leaf "plain" [])) /\
   nth_error children 1 = Some (SampleModel.leaf "plain" [])) /\
  List.length (ConcatPhases.assembleMarks Y children) = 2%nat /\
  exists group,
    nth_error (ConcatPhases.assembleMarks Y children) 1 = Some group
    /\ group = [("type", JStr "group"); ("name", JStr "plain_group");
                ("marks", JArr [])]
    /\ lookup "title" group = None
    /\ lookup "style" group = None
    /\ lookup "encode" group = None.
Proof.
  intros Y children.
  assert (W : wf (ConcatPhases.assembleGroup Y (SampleModel.leaf "plain" []))).
  { unfold wf; simpl. repeat constructor. intros []. }
  split; [split; [exact W|reflexivity]|].
  destruct (assembleMarks_one_group_per_child SampleModel.Leaf Y children 1
              (SampleModel.leaf "plain" []) eq_refl W)
    as (Hlen & group & Hnth & Hlook).
  split; [exact Hlen|]. exists group. split; [exact Hnth|].
  split; [vm_compute in Hnth; now injection Hnth|].
  rewrite !Hlook. repeat split.
Defined.

(** ** [parseData] before [parseSelections] *)

Lemma lookup_data_with_data (base : Compile.ModelBase) (d : Json) :
  data_of (ConcatPhases.with_data base d) = Some d.
Proof. unfold data_of, ConcatPhases.with_data. apply lookup_set_same. Qed.

(** X19: the two phases do not undo each other at a concat model: when
    [parseData] and then [parseSelections] have run, the model still has
    its name and concat type and as many children, its data component is
    the one [parseData] stored, and its selection mapping is there. *)
Theorem parseSelections_keeps_parsed_data :
  forall (Other : Type) (X : Compile.Imports Other)
         (Y : ConcatPhases.Methods Other) (base : Compile.ModelBase)
         (concatType : Compile.ConcatType)
         (children : list (Compile.Model Other))
         (d : Json) (ld : list Event)
         (m1 m2 : Compile.Model Other) (l1 l2 : list Event),
    ConcatPhases.data_parseData
      Y (Compile.ConcatModel base concatType children) = Done d ld ->
    ConcatPhases.parseData
      Y (Compile.ConcatModel base concatType children) = Done m1 l1 ->
    Compile.parseSelections X m1 = Done m2 l2 ->
    exists base2 children2 merged,
      m2 = Compile.ConcatModel base2 concatType children2
      /\ data_of base2 = Some d
      /\ Compile.selection (Compile.base_component base2) = Some merged
      /\ Compile.base_name base2 = Compile.base_name base
      /\ List.length children2 = List.length children.
Proof.
  intros Other X Y base concatType children d ld m1 m2 l1 l2 Hd H1 H2.
  cbn [ConcatPhases.parseData] in H1. rewrite Hd in H1.
  apply bind_Done_inv in H1 as (d' & l3 & l4 & Hd' & H1 & _).
  inversion Hd'; subst d' l3.
  apply bind_Done_inv in H1 as (children1 & l5 & l6 & Hkids & H1 & _).
  inversion H1; subst m1.
  apply parseSelections_concat_inv in H2 as (parsed & F & _ & ->).
  exists (Compile.with_selection (ConcatPhases.with_data base d)
                                 (mergedSelections X parsed)),
         parsed, (mergedSelections X parsed).
  split; [reflexivity|]. split; [apply lookup_data_with_data|].
  split; [reflexivity|]. split; [reflexivity|].
  rewrite <- (Forall2_length F). exact (mapM_length _ _ _ _ Hkids).
Qed.

(** A concat model over two leaves that define selections. *)
Lemma parseSelections_keeps_parsed_data_witness :
  let X := SampleModel.imports in
  let Y := SamplePhases.methods in
  let base := SampleModel.base "grid" in
  let children :=
    [SampleModel.leaf "a" [("brush", JStr "interval")];
     SampleModel.leaf "b" [("pick", JStr "single")]] in
  let m := Compile.ConcatModel base Compile.concat children in
  exists m1 m2 l1 l2,
    ConcatPhases.data_parseData Y m = Done (JStr "grid_data") [] /\
    ConcatPhases.parseData Y m = Done m1 l1 /\
    Compile.parseSelections X m1 = Done m2 l2 /\
    exists base2 children2 merged,
      m2 = Compile.ConcatModel base2 Compile.concat children2
      /\ data_of base2 = Some (JStr "grid_data")
      /\ Compile.selection (Compile.base_component base2) = Some merged.
Proof.
  intros X Y base children m.
  destruct (ConcatPhases.parseData Y m) as [m1 l1|e] eqn:E1;
    [|vm_compute in E1; discriminate].
  destruct (Compile.parseSelections X m1) as [m2 l2|e] eqn:E2.
  - exists m1, m2, l1, l2.
    split; [reflexivity|]. split; [reflexivity|]. split; [exact E2|].
    destruct (parseSelections_keeps_parsed_data SampleModel.Leaf X Y base
                Compile.concat children (JStr "grid_data") [] m1 m2 l1 l2
                eq_refl E1 E2)
      as (base2 & children2 & merged & Hm & Hd & Hs & _).
    exists base2, children2, merged. repeat split; assumption.
  - exfalso.
    assert (Hv : value (ConcatPhases.parseData Y m) = Some m1)
      by (rewrite E1; reflexivity).
    vm_compute in Hv. injection Hv as <-.
    vm_compute in E2. discriminate.
Defined.

(** ** [mapFacet] without a column count to drop *)

(** X20: unless the facet definition is a row/column mapping and the column
    count is non-zero, [mapFacet] logs nothing of its own and returns the
    facet node with all its properties, the column count included, around
    the normalized inner spec; so a flat facet keeps its column count. *)
Theorem mapFacet_keeps_flat_facet_columns :
  forall (this : Normalize.This) (c : Common) (facet : FacetDef)
         (inner inner' : Spec) (params : NormalizerParams) (l : list Event),
    Normalize.isFacetMapping facet && truthyNum (columns (layout c)) = false ->
    Normalize.this_map this inner params = Done inner' l ->
    Normalize.mapFacet this c facet inner params =
    Done (SFacet c facet inner') l.
Proof.
  intros this c facet inner inner' params l Hno Hinner.
  rewrite mapFacet_run. unfold columnsWarning. rewrite Hno, Hinner.
  cbn [bind ret app]. now rewrite app_nil_r.
Qed.

(** A flat facet that asks for 3 columns. *)
Lemma mapFacet_keeps_flat_facet_columns_witness :
  let this := Normalize.CoreNormalizer Sample.imports 2 in
  let c := Sample.withColumns 3 in
  let facet := FacetField (Sample.fieldDef "a") in
  let inner := SUnit (Sample.unit "point" [("x", Sample.fieldDef "b")]) in
  let params := only_config Sample.cfg in
  Normalize.isFacetMapping facet && truthyNum (columns (layout c)) = false /\
  exists l,
    Normalize.mapFacet this c facet inner params = Done (SFacet c facet inner) l
    /\ columns (layout c) = Some 3%Z.
Proof.
  intros this c facet inner params. split; [reflexivity|].
  destruct (value_Done (Normalize.this_map this inner params) inner)
    as [l Hl]; [vm_compute; reflexivity|].
  exists l. split; [|reflexivity].
  exact (mapFacet_keeps_flat_facet_columns this c facet inner inner params l
           eq_refl Hl).
Defined.

(** ** The fan-out phases of [ConcatModel] *)

Section FanOutFacts.
Context {Other : Type}.

(** A phase that parses the leaves and rebuilds the concat models around
    them is the leaf phase run over the leaves, in order, inside the same
    tree of concat models. *)
Lemma fan_out_over_leaves (perLeaf : Other -> M Other)
      (phase : Compile.Model Other -> M (Compile.Model Other)) :
  (forall o, phase (Compile.OtherModel o) =
             (o' <- perLeaf o ;; ret (Compile.OtherModel o'))) ->
  (forall base concatType children,
      phase (Compile.ConcatModel base concatType children) =
      (children' <- mapM phase children ;;
       ret (Compile.ConcatModel base concatType children'))) ->
  forall m m' l,
    phase m = Done m' l ->
    mapM perLeaf (leaves m) = Done (leaves m') l
    /\ shape m' = shape m.
Proof.
  intros Hleaf Hconcat.
  induction m as [o|base concatType children IH] using Model_tree_ind;
    intros m' l H.
  - rewrite Hleaf in H.
    apply bind_Done_inv in H as (o' & l1 & l2 & Ho & H & ->).
    inversion H; subst. cbn [leaves shape].
    rewrite mapM_cons, Ho. cbn. split; reflexivity.
  - rewrite Hconcat in H.
    apply bind_Done_inv in H as (children' & l1 & l2 & Hkids & H & ->).
    inversion H; subst. cbn [leaves shape].
    rewrite app_nil_r. clear H.
    enough (Hboth : mapM perLeaf (flat_map leaves children)
                    = Done (flat_map leaves children') l1
                    /\ List.map shape children' = List.map shape children)
      by (destruct Hboth as [Hl Hs]; now rewrite Hl, Hs).
    revert children' l1 Hkids.
    induction IH as [|child children Hchild _ IHc]; intros children' l1 Hkids.
    + inversion Hkids; subst. split; reflexivity.
    + rewrite mapM_cons in Hkids.
      apply bind_Done_inv in Hkids as (child' & l3 & l4 & Hc & Hkids & ->).
      apply bind_Done_inv in Hkids as (rest & l5 & l6 & Hrest & Hret & ->).
      inversion Hret; subst.
      destruct (Hchild _ _ Hc) as [Hl Hp].
      destruct (IHc _ _ Hrest) as [Hls Hps].
      cbn [flat_map List.map]. rewrite mapM_app, Hl, Hls. cbn [bind ret].
      rewrite !app_nil_r, Hp, Hps. split; reflexivity.
Qed.
End FanOutFacts.

(** X21: [parseMarkGroup] and [parseAxesAndHeaders] do nothing at a concat
    model but pass the call on: what they return and log is what the leaf
    phase returns and logs when run over the leaves of the tree, one after
    the other in the order of the children, and around the leaves the tree
    is as it was: every concat model has its base (name and component), its
    concat type and its nesting unchanged. *)
Theorem fan_out_phases_reach_every_leaf_once :
  forall (Other : Type) (Y : ConcatPhases.Methods Other)
         (m m1 m2 : Compile.Model Other) (l1 l2 : list Event),
    ConcatPhases.parseMarkGroup Y m = Done m1 l1 ->
    ConcatPhases.parseAxesAndHeaders Y m1 = Done m2 l2 ->
    mapM (ConcatPhases.other_parseMarkGroup Y) (leaves m) = Done (leaves m1) l1
    /\ mapM (ConcatPhases.other_parseAxesAndHeaders Y) (leaves m1)
       = Done (leaves m2) l2
    /\ shape m1 = shape m
    /\ shape m2 = shape m
    /\ (forall base concatType children,
          m = Compile.ConcatModel base concatType children ->
          exists children2,
            m2 = Compile.ConcatModel base concatType children2
            /\ List.length children2 = List.length children).
Proof.
  intros Other Y m m1 m2 l1 l2 H1 H2.
  destruct (fan_out_over_leaves (ConcatPhases.other_parseMarkGroup Y)
              (ConcatPhases.parseMarkGroup Y)
              (fun o => eq_refl) (fun b t c => eq_refl) m m1 l1 H1)
    as [Ha Hb].
  destruct (fan_out_over_leaves (ConcatPhases.other_parseAxesAndHeaders Y)
              (ConcatPhases.parseAxesAndHeaders Y)
              (fun o => eq_refl) (fun b t c => eq_refl) m1 m2 l2 H2)
    as [Hc Hd].
  assert (He : shape m2 = shape m) by now rewrite Hd.
  split; [exact Ha|]. split; [exact Hc|]. split; [exact Hb|].
  split; [exact He|].
  intros base concatType children ->.
  destruct m2 as [o|base2 concatType2 children2]; [discriminate|].
  cbn [shape] in He. injection He as -> -> Hkids.
  exists children2. split; [reflexivity|].
  apply (f_equal (@List.length _)) in Hkids. now rewrite !length_map in Hkids.
Qed.

(** Two levels of concat models that hold data and selections, over three
    leaves. *)
Lemma fan_out_phases_reach_every_leaf_once_witness :
  let Y := SamplePhases.methods in
  let outer :=
    Compile.mkModelBase "outer"
      (Compile.mkComponent (Some [("brush", JStr "multi")])
                           [("data", JStr "cars")])
      [("resolve", JObj [])] in
  let inner :=
    Compile.mkModelBase "inner"
      (Compile.mkComponent (Some []) [("data", JStr "weather")]) [] in
  let tree a b c :=
    Compile.ConcatModel outer Compile.hconcat
      [SampleModel.leaf a [];
       Compile.ConcatModel inner Compile.vconcat
         [SampleModel.leaf b []; SampleModel.leaf c []]] in
  let marks :=
    [Warn (otherMessage "a: marks"); Warn (otherMessage "b: marks");
     Warn (otherMessage "c: marks")] in
  let axes :=
    [Warn (otherMessage "a+marks: axes"); Warn (otherMessage "b+marks: axes");
     Warn (otherMessage "c+marks: axes")] in
  ConcatPhases.parseMarkGroup Y (tree "a" "b" "c")
    = Done (tree "a+marks" "b+marks" "c+marks") marks /\
  ConcatPhases.parseAxesAndHeaders Y (tree "a+marks" "b+marks" "c+marks")
    = Done (tree "a+marks+axes" "b+marks+axes" "c+marks+axes") axes /\
  mapM (ConcatPhases.other_parseMarkGroup Y) (leaves (tree "a" "b" "c"))
    = Done (leaves (tree "a+marks" "b+marks" "c+marks")) marks /\
  shape (tree "a+marks+axes" "b+marks+axes" "c+marks+axes")
    = shape (tree "a" "b" "c").
Proof.
  intros Y outer inner tree marks axes.
  assert (H1 : ConcatPhases.parseMarkGroup Y (tree "a" "b" "c")
               = Done (tree "a+marks" "b+marks" "c+marks") marks)
    by reflexivity.
  assert (H2 : ConcatPhases.parseAxesAndHeaders
                 Y (tree "a+marks" "b+marks" "c+marks")
               = Done (tree "a+marks+axes" "b+marks+axes" "c+marks+axes") axes)
    by reflexivity.
  split; [exact H1|]. split; [exact H2|].
  destruct (fan_out_phases_reach_every_leaf_once SampleModel.Leaf Y _ _ _
              _ _ H1 H2) as (Ha & _ & _ & Hs & _).
  split; [exact Ha|exact Hs].
Defined.
